(** * make_image_grid.py: a shallow embedding and its geometry theorems

    The program lists the image files of a folder, plans a rows x columns
    grid, fits every image into a cell and pastes the cells on one canvas.
    Pixel data is abstracted away: an image is its (width, height); every
    integer is a Python [int] (unbounded, [Z]); every Python [float] is an
    IEEE-754 binary64 value, modelled by [spec_float] with the operations
    of [SpecFloat] at precision 53. *)

From Stdlib Require Import ZArith List String Ascii Bool Lia Reals Lra Psatz.
From Stdlib Require Import Sorted Permutation.
From Stdlib Require Import Floats.SpecFloat.
Import ListNotations.

Local Open Scope Z_scope.

(** ** Python exceptions and the error monad *)

Inductive exn : Type :=
| ZeroDivisionError
| OverflowError
| ValueError
| UnidentifiedImageError
| OSError.

Inductive res (A : Type) : Type :=
| Ok (a : A)
| Raise (e : exn).
Arguments Ok {A} a.
Arguments Raise {A} e.

Definition bind {A B : Type} (c : res A) (k : A -> res B) : res B :=
  match c with
  | Ok a => k a
  | Raise e => Raise e
  end.

Notation "x <- c ;; k" := (bind c (fun x => k))
  (at level 61, c at next level, right associativity).

(** ** Python numbers *)

Module Py.

(** binary64 *)
Definition prec : Z := 53.
Definition emax : Z := 1024.
Definition float : Type := spec_float.

(** An integer as an exact (not normalised) mantissa at exponent 0. *)
Definition raw_of_int (z : Z) : float :=
  match z with
  | Z0 => S754_zero false
  | Zpos p => S754_finite false p 0
  | Zneg p => S754_finite true p 0
  end.

(** [a / b] on two ints: the correctly rounded quotient of the exact
    integers ([long_true_divide]); [SFdiv] rounds the exact quotient of
    the two mantissas once, to nearest even. *)
Definition int_truediv (a b : Z) : res float :=
  if b =? 0 then Raise ZeroDivisionError
  else match SFdiv prec emax (raw_of_int a) (raw_of_int b) with
       | S754_infinity _ => Raise OverflowError
       | r => Ok r
       end.

(** [float(z)], the conversion Python applies to the int operand of a
    mixed int/float operation and of [math.sqrt]. *)
Definition float_of_int (z : Z) : res float :=
  match binary_normalize prec emax z 0 false with
  | S754_infinity _ => Raise OverflowError
  | r => Ok r
  end.

(** [z * f] with [z] an int and [f] a float. *)
Definition int_mul_float (z : Z) (f : float) : res float :=
  x <- float_of_int z ;;
  Ok (SFmul prec emax x f).

(** [min(a, b)] on floats: [b] replaces [a] only when [b < a]. *)
Definition min (a b : float) : float :=
  if SFltb b a then b else a.

(** [max(a, b)] on ints: [b] replaces [a] only when [b > a]. *)
Definition max (a b : Z) : Z :=
  if b >? a then b else a.

(** [max(iterable)] on ints; the empty iterable raises ValueError. *)
Definition max_of (l : list Z) : res Z :=
  match l with
  | [] => Raise ValueError
  | x :: t => Ok (fold_left max t x)
  end.

(** [int(f)]: truncation toward zero. *)
Definition int_of_float (f : float) : res Z :=
  match f with
  | S754_zero _ => Ok 0
  | S754_finite s m e => Ok (cond_Zopp s (Z.shiftl (Zpos m) e))
  | S754_infinity _ => Raise OverflowError
  | S754_nan => Raise ValueError
  end.

(** [math.ceil(f)]. *)
Definition ceil (f : float) : res Z :=
  match f with
  | S754_zero _ => Ok 0
  | S754_finite false m e => Ok (- Z.shiftl (Zneg m) e)
  | S754_finite true m e => Ok (- Z.shiftl (Zpos m) e)
  | S754_infinity _ => Raise OverflowError
  | S754_nan => Raise ValueError
  end.

(** [math.sqrt(z)] on an int: convert, then the correctly rounded root;
    a negative argument is a "math domain error". *)
Definition sqrt (z : Z) : res float :=
  x <- float_of_int z ;;
  match x with
  | S754_finite true _ _ => Raise ValueError
  | _ => Ok (SFsqrt prec emax x)
  end.

(** [a // b] and [a % b] on ints: floor division, the remainder has
    the sign of [b]. *)
Definition floordiv (a b : Z) : res Z :=
  if b =? 0 then Raise ZeroDivisionError else Ok (a / b).

Definition modulo (a b : Z) : res Z :=
  if b =? 0 then Raise ZeroDivisionError else Ok (a mod b).

(** [a or b] on ints: [b] is evaluated only when [a] is 0. *)
Definition or_else (a : Z) (b : res Z) : res Z :=
  if a =? 0 then b else Ok a.

End Py.


(** ** pathlib, as far as [iter_images] uses it *)

Local Open Scope string_scope.
Local Open Scope Z_scope.

(** A directory entry: its file name, whether [is_file()] holds (a regular
    file, symlinks followed), and what [Image.open] finds in it: the
    (width, height) of the image, or nothing when it raises. The
    decoding of the pixels, which [im.convert] starts, is taken to
    succeed for a file that opens. *)
Record DirEntry : Type := {
  name : string;
  is_file : bool;
  image : option (Z * Z)
}.

(** [str.lower()]; only the ASCII letters matter for the suffixes below. *)
Definition lower_char (c : ascii) : ascii :=
  let n := nat_of_ascii c in
  if ((65 <=? n) && (n <=? 90))%nat then ascii_of_nat (n + 32) else c.

Fixpoint lower (s : string) : string :=
  match s with
  | EmptyString => EmptyString
  | String c t => String (lower_char c) (lower t)
  end.

(** The part of [s] from its last dot on ([s[s.rfind('.'):]]). *)
Fixpoint from_last_dot (s : string) : option string :=
  match s with
  | EmptyString => None
  | String c t =>
      match from_last_dot t with
      | Some r => Some r
      | None => if Ascii.eqb c "." then Some s else None
      end
  end.

(** [PurePath.suffix]: with [i = name.rfind('.')], the suffix is
    [name[i:]] when [0 < i < len(name) - 1] and the empty string
    otherwise. *)
Definition suffix (nm : string) : string :=
  match nm with
  | EmptyString => ""
  | String _ t =>
      match from_last_dot t with
      | Some r => if (1 <? String.length r)%nat then r else ""
      | None => ""
      end
  end.

(** [sorted(...)] of the entries of one folder: paths of one folder
    compare as their names do. Insertion keeps equal names in their
    original order, as Python's stable sort does. *)
Fixpoint insert (x : DirEntry) (l : list DirEntry) : list DirEntry :=
  match l with
  | [] => [x]
  | y :: t => if String.leb (name x) (name y) then x :: y :: t
              else y :: insert x t
  end.

Fixpoint sorted (l : list DirEntry) : list DirEntry :=
  match l with
  | [] => []
  | x :: t => insert x (sorted t)
  end.

(** ** The program *)

Definition IMAGE_EXTS : list string :=
  [".jpg"; ".jpeg"; ".png"; ".bmp"; ".gif"; ".tif"; ".tiff"; ".webp"].

Definition in_exts (s : string) : bool := existsb (String.eqb s) IMAGE_EXTS.

(** The test of [iter_images] on one entry. *)
Definition is_image (entry : DirEntry) : bool :=
  is_file entry && in_exts (lower (suffix (name entry))).

(** [iter_images(folder)]; [iterdir] is what [folder.iterdir()] yields,
    in whatever order the file system gives. *)
Definition iter_images (iterdir : list DirEntry) : list DirEntry :=
  filter is_image (sorted iterdir).

(** Names in the order [sorted] puts them. *)
Definition name_le (a b : DirEntry) : Prop :=
  String.leb (name a) (name b) = true.

(** What [load_and_fit] builds, without the pixels: the canvas of the
    cell, the size the image was resized to and where it was pasted. *)
Record Cell : Type := {
  canvas_size : Z * Z;
  new_size : Z * Z;
  offset : Z * Z
}.

(** Pillow hands sizes to its C core as C ints. *)
Definition INT_MAX : Z := 2 ^ 31 - 1.

(** [Image.new(mode, size, color)]: Pillow refuses a negative width or
    height with ValueError and one beyond a C int with OverflowError;
    memory is taken to suffice and the colour to parse. *)
Definition Image_new (size : Z * Z) : res unit :=
  if (fst size <? 0) || (snd size <? 0) then Raise ValueError
  else if (INT_MAX <? fst size) || (INT_MAX <? snd size) then Raise OverflowError
  else Ok tt.

(** [im.resize(size, resample)]: the new width and height must be
    positive C ints. *)
Definition Image_resize (size : Z * Z) : res unit :=
  if (INT_MAX <? fst size) || (INT_MAX <? snd size) then Raise OverflowError
  else if (fst size <? 1) || (snd size <? 1) then Raise ValueError
  else Ok tt.

Definition load_and_fit (path : DirEntry) (cell_w cell_h : Z) : res Cell :=
  match image path with
  | None => Raise UnidentifiedImageError
  | Some (width, height) =>
      a <- Py.int_truediv cell_w width ;;
      b <- Py.int_truediv cell_h height ;;
      let scale := Py.min a b in
      pw <- Py.int_mul_float width scale ;;
      iw <- Py.int_of_float pw ;;
      let new_w := Py.max 1 iw in
      ph <- Py.int_mul_float height scale ;;
      ih <- Py.int_of_float ph ;;
      let new_h := Py.max 1 ih in
      _ <- Image_resize (new_w, new_h) ;;
      _ <- Image_new (cell_w, cell_h) ;;
      let off_x := (cell_w - new_w) / 2 in
      let off_y := (cell_h - new_h) / 2 in
      Ok {| canvas_size := (cell_w, cell_h);
            new_size := (new_w, new_h);
            offset := (off_x, off_y) |}
  end.

Module argparse.
(** The parsed command line. *)
Record Namespace : Type := {
  folder : string;
  output : string;
  cols : Z;
  cell_width : Z;
  cell_height : Z;
  padding : Z;
  bg : string
}.
End argparse.

(** The geometry [main] derives before it draws. *)
Record GridLayout : Type := {
  cell_w : Z;
  cell_h : Z;
  cols : Z;
  rows : Z;
  pad : Z;
  grid_w : Z;
  grid_h : Z
}.

(** The loop over [images] that fills [sizes]. *)
Fixpoint read_sizes (images : list DirEntry) : res (list (Z * Z)) :=
  match images with
  | [] => Ok []
  | p :: rest =>
      match image p with
      | None => Raise UnidentifiedImageError
      | Some size => sizes <- read_sizes rest ;; Ok (size :: sizes)
      end
  end.

(** [cols = args.cols or math.ceil(math.sqrt(len(images)))]. *)
Definition main_cols (args_cols n : Z) : res Z :=
  Py.or_else args_cols (s <- Py.sqrt n ;; Py.ceil s).

(** [rows = math.ceil(len(images) / cols)]. *)
Definition main_rows (n cols : Z) : res Z :=
  q <- Py.int_truediv n cols ;; Py.ceil q.

(** Lines 88 to 98 of [main]: from the sizes to the canvas size. *)
Definition main_layout (args : argparse.Namespace) (sizes : list (Z * Z))
  : res GridLayout :=
  let n := Z.of_nat (List.length sizes) in
  max_w <- Py.max_of (map fst sizes) ;;
  max_h <- Py.max_of (map snd sizes) ;;
  cell_w <- Py.or_else (argparse.cell_width args) (Ok max_w) ;;
  cell_h <- Py.or_else (argparse.cell_height args) (Ok max_h) ;;
  cols <- main_cols (argparse.cols args) n ;;
  rows <- main_rows n cols ;;
  let pad := argparse.padding args in
  let grid_w := cols * cell_w + (cols - 1) * pad in
  let grid_h := rows * cell_h + (rows - 1) * pad in
  Ok {| cell_w := cell_w; cell_h := cell_h; cols := cols; rows := rows;
        pad := pad; grid_w := grid_w; grid_h := grid_h |}.

(** What the run does to the outside, in order. *)
Inductive event : Type :=
| NewGrid (size : Z * Z)
| Paste (path : string) (cell : Cell) (xy : Z * Z)
| Save (out_path : string)
| Stdout (line : string).

(** The loop that pastes the cells; [idx] counts from where [enumerate]
    stands. It stops at the first exception. *)
Fixpoint paste_loop (L : GridLayout) (idx : Z) (images : list DirEntry)
                    (trace : list event) : list event * option exn :=
  match images with
  | [] => (trace, None)
  | img_path :: rest =>
      match Py.floordiv idx (cols L) with
      | Raise e => (trace, Some e)
      | Ok r =>
      match Py.modulo idx (cols L) with
      | Raise e => (trace, Some e)
      | Ok c =>
          let x := c * (cell_w L + pad L) in
          let y := r * (cell_h L + pad L) in
          match load_and_fit img_path (cell_w L) (cell_h L) with
          | Raise e => (trace, Some e)
          | Ok cell =>
              paste_loop L (idx + 1) rest
                         (trace ++ [Paste (name img_path) cell (x, y)])%list
          end
      end
      end
  end.

(** The folder as the run finds it; [writable] tells whether
    [grid.save(out_path)] and the closing [print] succeed. *)
Record World : Type := {
  is_dir : bool;
  iterdir : list DirEntry;
  writable : bool
}.

Inductive outcome : Type :=
| Returned
| SystemExit (message : string)
| Uncaught (e : exn).

(** The status the process ends with. *)
Definition exit_status (o : outcome) : Z :=
  match o with
  | Returned => 0
  | SystemExit _ => 1
  | Uncaught _ => 1
  end.

Definition main (args : argparse.Namespace) (w : World)
  : outcome * list event :=
  if negb (is_dir w) then
    (SystemExit ("Folder not found: " ++ argparse.folder args)%string, [])
  else
    let images := iter_images (iterdir w) in
    match images with
    | [] => (SystemExit "No images found in the folder.", [])
    | _ :: _ =>
        match read_sizes images with
        | Raise e => (Uncaught e, [])
        | Ok sizes =>
        match main_layout args sizes with
        | Raise e => (Uncaught e, [])
        | Ok L =>
        match Image_new (grid_w L, grid_h L) with
        | Raise e => (Uncaught e, [])
        | Ok _ =>
            let '(trace, failure) :=
              paste_loop L 0 images [NewGrid (grid_w L, grid_h L)] in
            match failure with
            | Some e => (Uncaught e, trace)
            | None =>
                if writable w then
                  (Returned,
                   (trace ++ [Save (argparse.output args);
                              Stdout ("Wrote " ++ argparse.output args)%string])%list)
                else (Uncaught OSError, trace)
            end
        end
        end
        end
    end.

(** ** The specification's wording, kept apart for comparison *)

Module Spec.

(** "columns = cols if cols > 0 else ceil(sqrt(n))" *)
Definition columns (cols n : Z) : Z :=
  if 0 <? cols then cols else Z.sqrt_up n.

(** "rows = ceil(n / columns)" *)
Definition rows (n columns : Z) : Z := (n + columns - 1) / columns.

(** "scale = min(w / srcWidth, h / srcHeight)", as the exact fraction
    [N / D] that attains the minimum. *)
Definition scale (w h srcWidth srcHeight : Z) : Z * Z :=
  if w * srcHeight <=? h * srcWidth then (w, srcWidth) else (h, srcHeight).

(** "round(x)" for x = num / den: the nearest integer, halves up. *)
Definition round (num den : Z) : Z := (2 * num + den) / (2 * den).

(** "newWidth = max(1, round(srcWidth * scale))" and the same for the
    height. *)
Definition new_size (w h srcWidth srcHeight : Z) : Z * Z :=
  let '(N, D) := scale w h srcWidth srcHeight in
  (Z.max 1 (round (srcWidth * N) D), Z.max 1 (round (srcHeight * N) D)).

(** "the recognized set {jpg, jpeg, png, bmp, gif, tif, tiff, webp}" *)
Definition extensions : list string :=
  ["jpg"; "jpeg"; "png"; "bmp"; "gif"; "tif"; "tiff"; "webp"]%string.

(** "extension (case-insensitive) belongs to the recognized set": each
    letter of the extension is the small letter of the set's word or
    its capital. *)
Definition capital (c : ascii) : ascii :=
  let n := nat_of_ascii c in
  if ((97 <=? n) && (n <=? 122))%nat then ascii_of_nat (n - 32) else c.

Fixpoint same_ignoring_case (ext word : string) : bool :=
  match ext, word with
  | EmptyString, EmptyString => true
  | String a ext', String b word' =>
      (Ascii.eqb a b || Ascii.eqb a (capital b)) &&
      same_ignoring_case ext' word'
  | _, _ => false
  end.

Definition recognized (ext : string) : bool :=
  existsb (same_ignoring_case ext) extensions.

End Spec.

(** ** Sample inputs *)

Module Sample.

Definition args0 : argparse.Namespace :=
  {| argparse.folder := "photos"; argparse.output := "grid.jpg";
     argparse.cols := 2; argparse.cell_width := 0;
     argparse.cell_height := 0; argparse.padding := 10;
     argparse.bg := "#ffffff" |}.

Definition sizes4 : list (Z * Z) :=
  [(640, 480); (800, 600); (320, 200); (100, 900)].

Definition picture (n : string) (size : Z * Z) : DirEntry :=
  {| name := n; is_file := true; image := Some size |}.

Definition wide : DirEntry := picture "wide.png" (8, 7).

(** A folder with five pictures and two files that are not. *)
Definition photos : World :=
  {| is_dir := true;
     iterdir := [picture "e.gif" (100, 900); picture "b.png" (800, 600);
                 {| name := "notes.txt"; is_file := true; image := None |};
                 picture "a.JPG" (640, 480); picture "d.webp" (320, 200);
                 {| name := "sub.png"; is_file := false; image := None |};
                 picture "c.jpeg" (64, 64)];
     writable := true |}.

Definition empty_folder : World :=
  {| is_dir := true;
     iterdir := [{| name := "notes.txt"; is_file := true; image := None |}];
     writable := true |}.

Definition photos_trace : list event :=
  Eval vm_compute in snd (main args0 photos).

(** The same folder, listed in another order. *)
Definition photos_shuffled : list DirEntry :=
  [picture "c.jpeg" (64, 64); picture "a.JPG" (640, 480);
   {| name := "sub.png"; is_file := false; image := None |};
   picture "e.gif" (100, 900);
   {| name := "notes.txt"; is_file := true; image := None |};
   picture "d.webp" (320, 200); picture "b.png" (800, 600)].

End Sample.

(** ** Colours *)

Module ImageColor.

Definition hex_digit (c : ascii) : bool :=
  let n := nat_of_ascii c in
  (((48 <=? n) && (n <=? 57)) || ((97 <=? n) && (n <=? 102)) ||
   ((65 <=? n) && (n <=? 70)))%nat.

(** A colour written [#rrggbb], in hexadecimal digits of either case:
    one of the forms [ImageColor.getrgb] accepts. The model of the
    program leaves the colour out of [Image.new]; a theorem that names
    the exception [Image.new] raises asks for a colour of this form. *)
Definition is_hex (color : string) : bool :=
  match color with
  | String "#" digits =>
      (String.length digits =? 6)%nat &&
      forallb hex_digit (list_ascii_of_string digits)
  | _ => false
  end.

End ImageColor.

(** ** Sample runs that fail, and the smallest one *)

Module Cases.

(** The folder of [Sample.photos] when the output cannot be written. *)
Definition read_only : World :=
  {| is_dir := true; iterdir := iterdir Sample.photos; writable := false |}.

(** A folder where one file with an image name cannot be decoded. *)
Definition one_broken : World :=
  {| is_dir := true;
     iterdir := [Sample.picture "a.png" (640, 480);
                 {| name := "c.png"; is_file := true; image := None |};
                 Sample.picture "b.png" (800, 600)];
     writable := true |}.

(** A folder with a single picture. *)
Definition single : World :=
  {| is_dir := true;
     iterdir := [{| name := "notes.txt"; is_file := true; image := None |};
                 Sample.picture "only.png" (640, 480)];
     writable := true |}.

(** The command line with nothing but the folder: the defaults of the
    parser. *)
Definition defaults (folder : string) : argparse.Namespace :=
  {| argparse.folder := folder; argparse.output := "grid.jpg";
     argparse.cols := 0; argparse.cell_width := 0;
     argparse.cell_height := 0; argparse.padding := 8;
     argparse.bg := "#ffffff" |}.

(** The command line of [Sample.args0] with a negative padding. *)
Definition tight : argparse.Namespace :=
  {| argparse.folder := "photos"; argparse.output := "grid.jpg";
     argparse.cols := 2; argparse.cell_width := 0;
     argparse.cell_height := 0; argparse.padding := -10;
     argparse.bg := "#ffffff" |}.

(** More columns than binary64 can divide by, and a padding that undoes
    the cell width. *)
Definition huge_cols : argparse.Namespace :=
  {| argparse.folder := "photos"; argparse.output := "grid.jpg";
     argparse.cols := 2 ^ 1080; argparse.cell_width := 0;
     argparse.cell_height := 0; argparse.padding := -640;
     argparse.bg := "#ffffff" |}.

(** Cells too wide for a canvas of two columns. *)
Definition oversize : argparse.Namespace :=
  {| argparse.folder := "photos"; argparse.output := "grid.jpg";
     argparse.cols := 2; argparse.cell_width := 2000000000;
     argparse.cell_height := 0; argparse.padding := 8;
     argparse.bg := "#ffffff" |}.

End Cases.

(** ** Binary64 values as reals *)

Module Fp.

Import Py.

Definition bpow (e : Z) : R := powerRZ 2 e.

(** The real value of a finite float. *)
Definition F2R (f : float) : R :=
  match f with
  | S754_finite s m e => (IZR (cond_Zopp s (Zpos m)) * bpow e)%R
  | _ => 0%R
  end.

(** A positive, canonical (normalised or subnormal) binary64 number. *)
Definition pos_float (f : float) : Prop :=
  exists m e, f = S754_finite false m e /\ bounded prec emax m e = true.

(** A real that some positive binary64 number denotes. *)
Definition representable (v : R) : Prop :=
  exists M E, v = (IZR M * bpow E)%R /\ 0 < M < 2 ^ prec /\
              emin prec emax <= E <= emax - prec.

(** [x] lies in the slot [m * 2^e, (m+1) * 2^e) and [l] tells whether it
    sits on the lower end. *)
Definition located (x : R) (m e : Z) (l : location) : Prop :=
  (IZR m * bpow e <= x < IZR (m + 1) * bpow e)%R /\
  (l = loc_Exact <-> x = (IZR m * bpow e)%R).

Definition fexp64 (z : Z) : Z := fexp prec emax z.

(** [f] is a positive float and no representable number lies strictly
    between the exact value [x] and [f]. *)
Definition faithful (x : R) (f : float) : Prop :=
  pos_float f /\
  (forall g, representable g -> (g <= x)%R -> (g <= F2R f)%R) /\
  (forall G, representable G -> (x <= G)%R -> (F2R f <= G)%R).

End Fp.

(** * Binary64 arithmetic: what one rounding guarantees *)

Module Binary64.

Import Py Fp.

Lemma bpow_pos e : (0 < bpow e)%R.
Proof. apply powerRZ_lt; lra. Qed.

Lemma bpow_add a b : bpow (a + b) = (bpow a * bpow b)%R.
Proof. apply powerRZ_add; lra. Qed.

Lemma bpow_succ a : bpow (a + 1) = (2 * bpow a)%R.
Proof. rewrite bpow_add. unfold bpow at 2. simpl. lra. Qed.

Lemma bpow_IZR n : 0 <= n -> bpow n = IZR (2 ^ n).
Proof.
  intros Hn. pattern n. apply natlike_ind; [reflexivity | | exact Hn].
  intros k Hk IH. unfold Z.succ. rewrite bpow_succ, IH, Z.pow_add_r by lia.
  rewrite mult_IZR. change (2 ^ 1) with 2. rewrite Rmult_comm. reflexivity.
Qed.

Lemma bpow_le a b : a <= b -> (bpow a <= bpow b)%R.
Proof.
  intros H. replace b with (a + (b - a)) by lia.
  rewrite bpow_add, (bpow_IZR (b - a)) by lia.
  assert (1 <= 2 ^ (b - a)) by (apply Z.lt_pred_le, Z.pow_pos_nonneg; lia).
  apply IZR_le in H0. pose proof (bpow_pos a). nra.
Qed.

Lemma bpow_lt a b : a < b -> (bpow a < bpow b)%R.
Proof.
  intros H. apply Rlt_le_trans with (bpow (a + 1)).
  - rewrite bpow_succ. pose proof (bpow_pos a). lra.
  - apply bpow_le. lia.
Qed.

(** Scaling an integer mantissa to a smaller exponent. *)
Lemma F2R_change_exp (m e e' : Z) :
  e' <= e -> (IZR m * bpow e = IZR (m * 2 ^ (e - e')) * bpow e')%R.
Proof.
  intros H. rewrite mult_IZR, <- bpow_IZR by lia.
  rewrite Rmult_assoc, <- bpow_add. f_equal. f_equal. lia.
Qed.

Lemma IZR_bpow_lt (a b e : Z) :
  (IZR a * bpow e < IZR b * bpow e)%R -> a < b.
Proof.
  intros H. apply lt_IZR. pose proof (bpow_pos e). nra.
Qed.

Lemma IZR_bpow_le (a b e : Z) :
  (IZR a * bpow e <= IZR b * bpow e)%R -> a <= b.
Proof.
  intros H. apply le_IZR. pose proof (bpow_pos e). nra.
Qed.

(** *** Number of binary digits *)

Lemma digits2_size p : digits2_pos p = Pos.size p.
Proof. induction p; simpl; congruence. Qed.

Lemma Zdigits2_bounds m :
  0 < m -> 2 ^ (Zdigits2 m - 1) <= m < 2 ^ Zdigits2 m.
Proof.
  destruct m as [|p|p]; try lia. intros _. simpl Zdigits2.
  rewrite digits2_size.
  pose proof (Pos.size_gt p) as Hg. pose proof (Pos.size_le p) as Hl.
  assert (Hp : Zpos (2 ^ Pos.size p) = 2 ^ Zpos (Pos.size p))
    by (rewrite Pos2Z.inj_pow; reflexivity).
  split.
  - assert (2 ^ Zpos (Pos.size p) <= 2 * Zpos p) by (rewrite <- Hp; exact Hl).
    replace (Zpos (Pos.size p)) with (Zpos (Pos.size p) - 1 + 1) in H by lia.
    rewrite Z.pow_add_r in H by lia. lia.
  - rewrite <- Hp. exact Hg.
Qed.

Lemma Zdigits2_unique m d :
  0 < m -> 2 ^ (d - 1) <= m < 2 ^ d -> Zdigits2 m = d.
Proof.
  intros Hm [Hl Hu]. pose proof (Zdigits2_bounds m Hm) as [Hl' Hu'].
  assert (Hd : 0 < d).
  { destruct (Z_lt_le_dec 0 d); [assumption|].
    destruct (Z.eq_dec d 0); [subst; simpl in Hu; lia|].
    rewrite Z.pow_neg_r in Hu by lia. lia. }
  assert (Hd' : 0 < Zdigits2 m) by (destruct m; simpl; lia).
  destruct (Z_lt_le_dec (Zdigits2 m) d) as [C|C].
  - assert (2 ^ Zdigits2 m <= 2 ^ (d - 1)) by (apply Z.pow_le_mono_r; lia). lia.
  - destruct (Z_lt_le_dec d (Zdigits2 m)) as [C'|C']; [|lia].
    assert (2 ^ d <= 2 ^ (Zdigits2 m - 1)) by (apply Z.pow_le_mono_r; lia). lia.
Qed.

Lemma Zdigits2_nonneg m : 0 <= Zdigits2 m.
Proof. destruct m; simpl; lia. Qed.

Lemma Zdigits2_0 m : 0 <= m -> Zdigits2 m = 0 -> m = 0.
Proof. destruct m; simpl; lia. Qed.

(** Dropping [k] low bits drops [k] digits. *)
Lemma Zdigits2_div m k :
  0 < m -> 0 <= k -> k < Zdigits2 m -> Zdigits2 (m / 2 ^ k) = Zdigits2 m - k.
Proof.
  intros Hm Hk Hlt. pose proof (Zdigits2_bounds m Hm) as [Hl Hu].
  assert (H2k : 0 < 2 ^ k) by (apply Z.pow_pos_nonneg; lia).
  assert (Hq : 2 ^ (Zdigits2 m - k - 1) <= m / 2 ^ k < 2 ^ (Zdigits2 m - k)).
  { split.
    - apply Z.div_le_lower_bound; [lia|].
      rewrite <- Z.pow_add_r by lia.
      replace (k + (Zdigits2 m - k - 1)) with (Zdigits2 m - 1) by lia. lia.
    - apply Z.div_lt_upper_bound; [lia|].
      rewrite <- Z.pow_add_r by lia.
      replace (k + (Zdigits2 m - k)) with (Zdigits2 m) by lia. lia. }
  apply Zdigits2_unique; [|exact Hq].
  assert (0 < 2 ^ (Zdigits2 m - k - 1)) by (apply Z.pow_pos_nonneg; lia). lia.
Qed.

Lemma Zdigits2_div_small m k :
  0 <= m -> 0 <= k -> Zdigits2 m <= k -> m / 2 ^ k = 0.
Proof.
  intros Hm Hk Hle. destruct (Z.eq_dec m 0) as [->|Hn].
  - apply Z.div_0_l. apply Z.pow_nonzero; lia.
  - apply Z.div_small. pose proof (Zdigits2_bounds m ltac:(lia)) as [_ Hu].
    assert (2 ^ Zdigits2 m <= 2 ^ k)
      by (apply Z.pow_le_mono_r; [lia | lia]).
    lia.
Qed.

(** *** Right shifts keep the slot *)

Lemma shr_1_fields m r s :
  0 <= m ->
  shr_1 (Build_shr_record m r s) = Build_shr_record (m / 2) (Z.odd m) (r || s).
Proof.
  intros Hm. destruct m as [|p|p]; [reflexivity | | lia].
  destruct p as [p|p|]; simpl shr_1; f_equal.
  - apply Z.div_unique with 1; lia.
  - apply Z.div_unique with 0; lia.
Qed.

Lemma loc_exact_iff mrs :
  loc_of_shr_record mrs = loc_Exact <-> shr_r mrs = false /\ shr_s mrs = false.
Proof.
  destruct mrs as [m [|] [|]]; simpl; split; try discriminate; intuition discriminate.
Qed.

Lemma shr_1_located x e mrs :
  0 <= shr_m mrs ->
  located x (shr_m mrs) e (loc_of_shr_record mrs) ->
  located x (shr_m (shr_1 mrs)) (e + 1) (loc_of_shr_record (shr_1 mrs)).
Proof.
  destruct mrs as [m r s]. cbn [shr_m]. intros Hm [[Hlo Hhi] Hex].
  rewrite shr_1_fields by assumption. cbn [shr_m]. unfold located.
  rewrite loc_exact_iff in Hex. cbn [shr_r shr_s] in Hex.
  rewrite loc_exact_iff. cbn [shr_r shr_s].
  rewrite bpow_succ. pose proof (bpow_pos e) as HB.
  pose proof (Z.div_mod m 2 ltac:(lia)) as Hdm.
  pose proof (Z.mod_pos_bound m 2 ltac:(lia)) as Hmb.
  pose proof (Zmod_odd m) as Hodd.
  assert (Hm' : IZR m = (2 * IZR (m / 2) + IZR (m mod 2))%R).
  { rewrite <- (mult_IZR 2), <- plus_IZR. f_equal. exact Hdm. }
  rewrite plus_IZR in *. rewrite Hm' in *.
  destruct (Z.odd m); rewrite Hodd in *.
  - split; [split; nra|]. split.
    + intros [Habs _]. discriminate.
    + intros Hx. exfalso. nra.
  - split; [split; nra|]. split.
    + intros [_ Hrs]. apply orb_false_iff in Hrs.
      apply Hex in Hrs. lra.
    + intros Hx. split; [reflexivity|]. apply orb_false_iff, Hex. lra.
Qed.

Lemma iter_pos_invariant {A : Type} (f : A -> A) (Inv : Z -> A -> Prop) :
  (forall k a, 0 <= k -> Inv k a -> Inv (k + 1) (f a)) ->
  forall p k a, 0 <= k -> Inv k a -> Inv (k + Zpos p) (iter_pos f p a).
Proof.
  intros Hstep. induction p as [p IH|p IH|]; intros k a Hk Ha; cbn [iter_pos].
  - replace (k + Zpos p~1) with (k + 1 + Zpos p + Zpos p) by lia.
    apply IH; [lia|]. apply IH; [lia|]. apply Hstep; assumption.
  - replace (k + Zpos p~0) with (k + Zpos p + Zpos p) by lia.
    apply IH; [lia|]. apply IH; assumption.
  - apply Hstep; assumption.
Qed.

Lemma shr_located x m e l n :
  0 <= m -> located x m e l ->
  let '(mrs, e') := shr (shr_record_of_loc m l) e n in
  e' = e + Z.max 0 n /\ shr_m mrs = m / 2 ^ Z.max 0 n /\
  located x (shr_m mrs) e' (loc_of_shr_record mrs).
Proof.
  intros Hm Hloc.
  assert (H0 : shr_m (shr_record_of_loc m l) = m /\
               loc_of_shr_record (shr_record_of_loc m l) = l).
  { destruct l as [|[| |]]; split; reflexivity. }
  destruct H0 as [H0m H0l].
  destruct n as [|p|p]; cbn [shr].
  - rewrite Z.max_id by lia. rewrite Z.add_0_r, Z.pow_0_r, Z.div_1_r, H0m, H0l.
    auto.
  - rewrite Z.max_r by lia. split; [reflexivity|].
    pose (Inv := fun k a => shr_m a = m / 2 ^ k /\
                            located x (shr_m a) (e + k) (loc_of_shr_record a)).
    assert (HI : Inv (0 + Zpos p) (iter_pos shr_1 p (shr_record_of_loc m l))).
    { apply (iter_pos_invariant shr_1 Inv).
      - intros k a Hk [Hma Hla]. split.
        + destruct a as [ma ra sa]. cbn [shr_m] in *.
          assert (0 <= ma) by (rewrite Hma; apply Z.div_pos; [lia | apply Z.pow_pos_nonneg; lia]).
          rewrite shr_1_fields by assumption. cbn [shr_m].
          rewrite Hma, Z.pow_add_r, Z.pow_1_r by lia.
          apply Z.div_div; [apply Z.pow_nonzero; lia | lia].
        + rewrite Z.add_assoc. apply shr_1_located; [|exact Hla].
          rewrite Hma. apply Z.div_pos; [lia | apply Z.pow_pos_nonneg; lia].
      - lia.
      - split; [rewrite H0m, Z.pow_0_r, Z.div_1_r; reflexivity|].
        rewrite Z.add_0_r, H0m, H0l. exact Hloc. }
    destruct HI as [HIm HIl]. rewrite Z.add_0_l in *. auto.
  - rewrite Z.max_l by lia. rewrite Z.add_0_r, Z.pow_0_r, Z.div_1_r, H0m, H0l.
    auto.
Qed.

(** *** One rounding: [binary_round_aux] *)

Lemma fexp64_eq z : fexp64 z = Z.max (z - 53) (-1074).
Proof. reflexivity. Qed.

Lemma shr_fexp_located x m e l :
  0 <= m -> located x m e l -> e <= fexp64 (Zdigits2 m + e) ->
  let '(mrs, e') := shr_fexp prec emax m e l in
  e' = fexp64 (Zdigits2 m + e) /\ shr_m mrs = m / 2 ^ (e' - e) /\
  located x (shr_m mrs) e' (loc_of_shr_record mrs).
Proof.
  intros Hm Hloc Hsh. unfold shr_fexp. fold (fexp64 (Zdigits2 m + e)).
  pose proof (shr_located x m e l (fexp64 (Zdigits2 m + e) - e) Hm Hloc) as H.
  destruct (shr (shr_record_of_loc m l) e (fexp64 (Zdigits2 m + e) - e)) as [mrs e'].
  destruct H as (He & Hmm & Hl). rewrite Z.max_r in He, Hmm by lia.
  replace (e + (fexp64 (Zdigits2 m + e) - e)) with (fexp64 (Zdigits2 m + e))
    in He by lia.
  subst e'.
  split; [reflexivity|]. split; [|exact Hl].
  exact Hmm.
Qed.

(** The mantissa found by the first shift is canonical. *)
Lemma shifted_digits m e :
  0 <= m -> e <= fexp64 (Zdigits2 m + e) ->
  let e1 := fexp64 (Zdigits2 m + e) in
  let m1 := m / 2 ^ (e1 - e) in
  0 <= m1 /\ -1074 <= e1 /\ Zdigits2 m1 <= 53 /\
  (-1074 < e1 -> Zdigits2 m1 = 53).
Proof.
  intros Hm Hsh e1 m1. subst m1 e1. revert Hsh. rewrite fexp64_eq. intros Hsh.
  set (e1 := Z.max (Zdigits2 m + e - 53) (-1074)) in *.
  assert (H2 : 0 < 2 ^ (e1 - e)) by (apply Z.pow_pos_nonneg; lia).
  split; [apply Z.div_pos; lia|]. split; [lia|].
  destruct (Z_lt_le_dec (e1 - e) (Zdigits2 m)) as [C|C].
  - assert (0 < m) by (destruct m; simpl in *; lia).
    rewrite Zdigits2_div by lia. lia.
  - rewrite Zdigits2_div_small by lia. simpl. lia.
Qed.

Lemma round_nearest_even_cases m l :
  round_nearest_even m l = m \/
  (round_nearest_even m l = m + 1 /\ l <> loc_Exact).
Proof.
  destruct l as [|[| |]]; simpl; auto.
  - destruct (Z.even m); [auto | right; split; [reflexivity | discriminate]].
  - right. split; [reflexivity | discriminate].
Qed.

(** The shape of a rounded result: either zero, or a canonical mantissa
    whose value is one of the two ends of the slot of [x]. *)
Lemma round_aux_shape sx x mx ex lx :
  0 <= mx -> located x mx ex lx -> ex <= fexp64 (Zdigits2 mx + ex) ->
  exists m1 e1 m2,
    (IZR m1 * bpow e1 <= x < IZR (m1 + 1) * bpow e1)%R /\
    0 <= m1 /\ -1074 <= e1 /\ Zdigits2 m1 <= 53 /\
    (-1074 < e1 -> Zdigits2 m1 = 53) /\
    (m2 = m1 \/ (m2 = m1 + 1 /\ x <> (IZR m1 * bpow e1)%R)) /\
    ((m2 = 0 /\ binary_round_aux prec emax sx mx ex lx = S754_zero sx) \/
     (exists m3 e3,
         (IZR (Zpos m3) * bpow e3 = IZR m2 * bpow e1)%R /\
         canonical_mantissa prec emax m3 e3 = true /\
         e1 <= e3 /\
         binary_round_aux prec emax sx mx ex lx =
           if e3 <=? emax - prec then S754_finite sx m3 e3
           else S754_infinity sx)).
Proof.
  intros Hm Hloc Hsh. unfold binary_round_aux.
  pose proof (shr_fexp_located x mx ex lx Hm Hloc Hsh) as H1.
  pose proof (shifted_digits mx ex Hm Hsh) as Hd. cbv zeta in Hd.
  destruct (shr_fexp prec emax mx ex lx) as [mrs1 e1].
  destruct H1 as (He1 & Hm1 & Hl1). rewrite <- He1, <- Hm1 in Hd.
  destruct Hd as (Hm1pos & He1min & Hdig & Hnorm).
  set (m1 := shr_m mrs1) in *. set (l1 := loc_of_shr_record mrs1) in *.
  set (m2 := round_nearest_even m1 l1).
  assert (Hm2 : m2 = m1 \/ (m2 = m1 + 1 /\ x <> (IZR m1 * bpow e1)%R)).
  { destruct (round_nearest_even_cases m1 l1) as [E|[E Hne]]; [left; exact E|].
    right. split; [exact E|]. intros Hx. apply Hne, (proj2 Hl1), Hx. }
  exists m1, e1, m2. destruct Hl1 as [Hslot Hex].
  do 6 (split; [assumption|]).
  (* the second shift *)
  assert (Hm2pos : 0 <= m2) by lia.
  pose proof (shr_located (IZR m2 * bpow e1)%R m2 e1 loc_Exact
                (fexp64 (Zdigits2 m2 + e1) - e1) Hm2pos) as H2.
  unfold shr_fexp. fold (fexp64 (Zdigits2 m2 + e1)).
  destruct (shr (shr_record_of_loc m2 loc_Exact) e1
                (fexp64 (Zdigits2 m2 + e1) - e1)) as [mrs2 e2].
  destruct H2 as (He2 & Hmm2 & _).
  { split; [|tauto]. rewrite plus_IZR. pose proof (bpow_pos e1). nra. }
  destruct (Z.eq_dec m2 0) as [Hz|Hnz].
  - left. split; [exact Hz|]. rewrite Hmm2, Hz, Z.div_0_l; [reflexivity|].
    apply Z.pow_nonzero; lia.
  - right. assert (Hm2lt : 0 < m2) by lia.
    assert (Hm1up : m1 < 2 ^ 53).
    { destruct (Z.eq_dec m1 0) as [->|]; [reflexivity|].
      pose proof (Zdigits2_bounds m1 ltac:(lia)) as [_ Hu].
      assert (2 ^ Zdigits2 m1 <= 2 ^ 53) by (apply Z.pow_le_mono_r; lia). lia. }
    destruct (Z_lt_le_dec m2 (2 ^ 53)) as [Csmall|Cbig].
    + (* no carry: the second shift does nothing *)
      assert (Hd2 : fexp64 (Zdigits2 m2 + e1) = e1).
      { rewrite fexp64_eq.
        pose proof (Zdigits2_bounds m2 Hm2lt) as [Hl2 Hu2].
        assert (Hd2le : Zdigits2 m2 <= 53).
        { destruct (Z_lt_le_dec 53 (Zdigits2 m2)); [|assumption].
          assert (2 ^ 53 <= 2 ^ (Zdigits2 m2 - 1)) by (apply Z.pow_le_mono_r; lia).
          lia. }
        destruct (Z.eq_dec e1 (-1074)) as [->|Hne]; [lia|].
        assert (Hd1 : Zdigits2 m1 = 53) by (apply Hnorm; lia).
        assert (Zdigits2 m2 = 53).
        { apply Zdigits2_unique; [lia|].
          pose proof (Zdigits2_bounds m1 ltac:(destruct m1; simpl in *; lia)) as [Hl1' _].
          rewrite Hd1 in Hl1'. change (53 - 1) with 52. lia. }
        lia. }
      rewrite Hd2, Z.sub_diag in He2, Hmm2. simpl in He2, Hmm2.
      rewrite Z.div_1_r in Hmm2. rewrite Z.add_0_r in He2. subst e2.
      rewrite Hmm2. destruct m2 as [|p2|p2]; try lia.
      exists p2, e1. split; [reflexivity|]. split; [|split; [lia | reflexivity]].
      unfold canonical_mantissa. apply Z.eqb_eq. exact Hd2.
    + (* carry to 2^53: one more shift, exactly *)
      assert (m2 = 2 ^ 53) by lia.
      assert (Hd2 : fexp64 (Zdigits2 m2 + e1) = e1 + 1).
      { rewrite H, fexp64_eq. change (Zdigits2 (2 ^ 53)) with 54. lia. }
      rewrite Hd2 in He2, Hmm2. replace (e1 + 1 - e1) with 1 in * by lia.
      rewrite Z.max_r in He2, Hmm2 by lia. rewrite H in Hmm2.
      change (2 ^ 53 / 2 ^ 1) with (2 ^ 52) in Hmm2. rewrite Hmm2.
      change (2 ^ 52) with (Zpos (2 ^ 52)).
      exists (2 ^ 52)%positive, e2. subst e2.
      split; [|split; [|split; [lia | reflexivity]]].
      * rewrite H, bpow_succ. change (IZR (2 ^ 53)) with (2 * IZR (2 ^ 52))%R.
        change (Zpos (2 ^ 52)) with (2 ^ 52). lra.
      * unfold canonical_mantissa. apply Z.eqb_eq.
        change (Zpos (digits2_pos (2 ^ 52))) with 53.
        change (fexp prec emax (53 + (e1 + 1))) with (fexp64 (53 + (e1 + 1))).
        rewrite fexp64_eq. lia.
Qed.

(** *** A rounded result never crosses a representable number *)

Section Slot.
Variables (M E m1 e1 : Z).
Hypothesis HM : 0 < M < 2 ^ 53.
Hypothesis HE : -1074 <= E.
Hypothesis Hm1 : 0 <= m1.
Hypothesis Hnorm : -1074 < e1 -> Zdigits2 m1 = 53.

Lemma slot_small : E < e1 -> (IZR M * bpow E < IZR m1 * bpow e1)%R.
Proof.
  intros HEe. assert (Hd : Zdigits2 m1 = 53) by (apply Hnorm; lia).
  assert (0 < m1) by (destruct m1; simpl in *; lia).
  pose proof (Zdigits2_bounds m1 H) as [Hl _]. rewrite Hd in Hl.
  change (2 ^ (53 - 1)) with (2 ^ 52) in Hl.
  apply Rlt_le_trans with (IZR (2 ^ 53) * bpow E)%R.
  - pose proof (bpow_pos E).
    destruct HM as [_ HM']. apply IZR_lt in HM'. nra.
  - apply Rle_trans with (IZR (2 ^ 52) * bpow e1)%R.
    + replace e1 with ((e1 - 1) + 1) by lia. rewrite bpow_succ.
      change (IZR (2 ^ 53)) with (2 * IZR (2 ^ 52))%R.
      pose proof (bpow_le E (e1 - 1) ltac:(lia)).
      assert (0 < IZR (2 ^ 52))%R by (apply IZR_lt; reflexivity). nra.
    + pose proof (bpow_pos e1). apply IZR_le in Hl. nra.
Qed.

Lemma slot_below :
  (IZR M * bpow E < IZR (m1 + 1) * bpow e1)%R ->
  (IZR M * bpow E <= IZR m1 * bpow e1)%R.
Proof.
  intros Hlt. destruct (Z_lt_le_dec E e1) as [C|C].
  - apply Rlt_le, slot_small, C.
  - rewrite (F2R_change_exp M E e1 C) in *.
    apply IZR_bpow_lt in Hlt.
    pose proof (bpow_pos e1).
    assert (IZR (M * 2 ^ (E - e1)) <= IZR m1)%R by (apply IZR_le; lia).
    nra.
Qed.

Lemma slot_above :
  (IZR m1 * bpow e1 < IZR M * bpow E)%R ->
  (IZR (m1 + 1) * bpow e1 <= IZR M * bpow E)%R.
Proof.
  intros Hlt. destruct (Z_lt_le_dec E e1) as [C|C].
  - pose proof (slot_small C). lra.
  - rewrite (F2R_change_exp M E e1 C) in *.
    apply IZR_bpow_lt in Hlt.
    pose proof (bpow_pos e1).
    assert (IZR (m1 + 1) <= IZR (M * 2 ^ (E - e1)))%R by (apply IZR_le; lia).
    nra.
Qed.
End Slot.

Lemma representable_pos v : representable v -> (0 < v)%R.
Proof.
  intros (M & E & -> & [HM _] & _). apply IZR_lt in HM.
  pose proof (bpow_pos E). nra.
Qed.

Lemma representable_lt_max v : representable v -> (v < bpow 1024)%R.
Proof.
  intros (M & E & -> & [_ HM] & [_ HE]). apply IZR_lt in HM.
  change (emax - prec) with 971 in HE. change (2 ^ prec) with (2 ^ 53) in HM.
  apply Rlt_le_trans with (IZR (2 ^ 53) * bpow E)%R.
  - pose proof (bpow_pos E). nra.
  - rewrite <- (bpow_IZR 53), <- bpow_add by lia. apply bpow_le. lia.
Qed.

(** The rounding theorem used throughout: when the exact value [x] lies
    between two representable numbers, so does the rounded result, which
    is then a positive canonical float. *)
(** When some representable number bounds the exact value [x] from
    above, rounding does not overflow and stays below that number. *)
Theorem round_upper sx x mx ex lx v2 :
  0 <= mx -> located x mx ex lx -> ex <= fexp64 (Zdigits2 mx + ex) ->
  representable v2 -> (x <= v2)%R ->
  binary_round_aux prec emax sx mx ex lx = S754_zero sx \/
  exists m e,
    binary_round_aux prec emax sx mx ex lx = S754_finite sx m e /\
    bounded prec emax m e = true /\
    (IZR (Zpos m) * bpow e <= v2)%R /\
    forall v1, representable v1 -> (v1 <= x)%R ->
               (v1 <= IZR (Zpos m) * bpow e)%R.
Proof.
  intros Hm Hloc Hsh Hv2 Hhi.
  destruct (round_aux_shape sx x mx ex lx Hm Hloc Hsh)
    as (m1 & e1 & m2 & Hslot & Hm1 & He1 & Hdig & Hnorm & Hm2 & Hres).
  pose proof (representable_lt_max v2 Hv2) as Hv2max.
  destruct Hv2 as (M2 & E2 & Ev2 & HM2 & HE2).
  change (2 ^ prec) with (2 ^ 53) in *. change (emin prec emax) with (-1074) in *.
  assert (Hup : (IZR m2 * bpow e1 <= v2)%R).
  { destruct Hm2 as [->|[-> Hne]]; [lra|].
    rewrite Ev2. apply slot_above; try lia; try assumption.
    rewrite <- Ev2. lra. }
  assert (Hm12 : (IZR m1 * bpow e1 <= IZR m2 * bpow e1)%R).
  { pose proof (bpow_pos e1).
    destruct Hm2 as [->|[-> _]]; [lra|]. rewrite plus_IZR. nra. }
  destruct Hres as [[Hz Hr]|(m3 & e3 & Hval & Hcan & He3 & Hr)]; [left; exact Hr|].
  right. exists m3, e3.
  assert (Hfin : e3 <= emax - prec).
  { change (emax - prec) with 971.
    destruct (Z_lt_le_dec 971 e3) as [C|C]; [exfalso|lia].
    unfold canonical_mantissa in Hcan. apply Z.eqb_eq in Hcan.
    change (fexp prec emax) with fexp64 in Hcan. rewrite fexp64_eq in Hcan.
    assert (Hd3 : Zdigits2 (Zpos m3) = 53) by (simpl; lia).
    pose proof (Zdigits2_bounds (Zpos m3) ltac:(lia)) as [Hl3 _].
    rewrite Hd3 in Hl3. change (2 ^ (53 - 1)) with (2 ^ 52) in Hl3.
    apply IZR_le in Hl3. rewrite <- (bpow_IZR 52) in Hl3 by lia.
    assert (bpow 1024 <= IZR (Zpos m3) * bpow e3)%R.
    { replace 1024 with (52 + 972) by lia. rewrite bpow_add.
      pose proof (bpow_le 972 e3 ltac:(lia)).
      pose proof (bpow_pos 972). pose proof (bpow_pos 52). nra. }
    lra. }
  apply Z.leb_le in Hfin. rewrite Hfin in Hr.
  split; [exact Hr|]. split; [|split].
  - unfold bounded. rewrite Hcan, Hfin. reflexivity.
  - rewrite Hval. exact Hup.
  - intros v1 (M1 & E1 & Ev1 & HM1 & HE1) Hlo.
    change (2 ^ prec) with (2 ^ 53) in *.
    change (emin prec emax) with (-1074) in *.
    rewrite Hval. apply Rle_trans with (IZR m1 * bpow e1)%R; [|exact Hm12].
    rewrite Ev1. apply slot_below; try lia; try assumption.
    rewrite <- Ev1. lra.
Qed.

(** The rounding theorem used throughout: when the exact value [x] lies
    between two representable numbers, so does the rounded result, which
    is then a canonical float. *)
Theorem round_between sx x mx ex lx v1 v2 :
  0 <= mx -> located x mx ex lx -> ex <= fexp64 (Zdigits2 mx + ex) ->
  representable v1 -> representable v2 -> (v1 <= x <= v2)%R ->
  exists m e,
    binary_round_aux prec emax sx mx ex lx = S754_finite sx m e /\
    bounded prec emax m e = true /\
    (v1 <= IZR (Zpos m) * bpow e <= v2)%R.
Proof.
  intros Hm Hloc Hsh Hv1 Hv2 [Hlo Hhi].
  destruct (round_aux_shape sx x mx ex lx Hm Hloc Hsh)
    as (m1 & e1 & m2 & Hslot & Hm1 & He1 & Hdig & Hnorm & Hm2 & Hres).
  destruct (round_upper sx x mx ex lx v2 Hm Hloc Hsh Hv2 Hhi)
    as [Hz|(m & e & Hr & Hb & Hup & Hlow)].
  - exfalso. pose proof (representable_pos v1 Hv1) as Hv1pos.
    destruct Hv1 as (M1 & E1 & Ev1 & HM1 & HE1).
    change (2 ^ prec) with (2 ^ 53) in *.
    change (emin prec emax) with (-1074) in *.
    assert (Hlow : (v1 <= IZR m1 * bpow e1)%R).
    { rewrite Ev1. apply slot_below; try lia; try assumption.
      rewrite <- Ev1. lra. }
    assert (Hm1pos : 0 < m1).
    { apply lt_IZR. pose proof (bpow_pos e1). nra. }
    destruct Hres as [[Hz0 _]|(m3 & e3 & _ & _ & _ & Hr)]; [lia|].
    rewrite Hz in Hr. destruct (e3 <=? emax - prec); discriminate.
  - exists m, e. split; [exact Hr|]. split; [exact Hb|].
    split; [apply Hlow; assumption | exact Hup].
Qed.

(** *** Division of two positive ints *)

Lemma new_location_exact nb k :
  new_location nb k = loc_Exact <-> k = 0.
Proof.
  unfold new_location, new_location_even, new_location_odd.
  destruct (Z.even nb); destruct (Z.eqb_spec k 0); split; intros H;
    solve [reflexivity | assumption | discriminate | contradiction].
Qed.

Lemma Zdigits2_lower q t : 0 < q -> 2 ^ (t - 1) <= q -> t <= Zdigits2 q.
Proof.
  intros Hq Ht. pose proof (Zdigits2_bounds q Hq) as [_ Hu].
  destruct (Z_lt_le_dec (Zdigits2 q) t) as [C|C]; [|lia].
  assert (2 ^ Zdigits2 q <= 2 ^ (t - 1))
    by (apply Z.pow_le_mono_r; [lia | lia]).
  lia.
Qed.

Lemma div_core_located (a b : positive) :
  let '(q, e', l) := SFdiv_core_binary prec emax (Zpos a) 0 (Zpos b) 0 in
  0 <= q /\ located (IZR (Zpos a) / IZR (Zpos b)) q e' l /\
  e' <= fexp64 (Zdigits2 q + e').
Proof.
  unfold SFdiv_core_binary.
  change (fexp prec emax) with fexp64.
  set (d1 := Zdigits2 (Zpos a)). set (d2 := Zdigits2 (Zpos b)).
  rewrite !Z.add_0_r, Z.sub_0_r.
  set (e' := Z.min (fexp64 (d1 - d2)) 0).
  assert (He' : e' <= 0) by (subst e'; lia).
  set (s := 0 - e').
  set (m' := match s with Zpos _ => Z.shiftl (Zpos a) s | Z0 => Zpos a | Zneg _ => 0 end).
  assert (Hm' : m' = Zpos a * 2 ^ s).
  { subst m'. destruct s as [|p|p] eqn:Es; [lia | | lia].
    rewrite Z.shiftl_mul_pow2 by lia. reflexivity. }
  assert (H2s : 0 < 2 ^ s) by (apply Z.pow_pos_nonneg; lia).
  pose proof (Z_div_mod m' (Zpos b) ltac:(lia)) as Hdiv.
  destruct (Z.div_eucl m' (Zpos b)) as [q r]. destruct Hdiv as [Hqr Hr].
  assert (Hq : 0 <= q) by nia.
  split; [exact Hq|].
  assert (Hbp : bpow e' = (/ IZR (2 ^ s))%R).
  { replace e' with (- s) by lia. unfold bpow. rewrite powerRZ_neg'.
    f_equal. apply bpow_IZR. lia. }
  assert (HA : (0 < IZR (Zpos a))%R) by (apply IZR_lt; lia).
  assert (HB : (0 < IZR (Zpos b))%R) by (apply IZR_lt; lia).
  assert (HS : (0 < IZR (2 ^ s))%R) by (apply IZR_lt; lia).
  assert (Hreal : (IZR (Zpos a) * IZR (2 ^ s) = IZR (Zpos b) * IZR q + IZR r)%R).
  { rewrite <- !mult_IZR, <- plus_IZR. f_equal. lia. }
  assert (Hrr : (0 <= IZR r < IZR (Zpos b))%R)
    by (split; [apply IZR_le | apply IZR_lt]; lia).
  assert (Hx : (IZR (Zpos a) / IZR (Zpos b) =
                (IZR q + IZR r / IZR (Zpos b)) * / IZR (2 ^ s))%R).
  { field_simplify_eq; [|split; lra]. rewrite Rmult_comm in Hreal. lra. }
  assert (Hfrac : (0 <= IZR r / IZR (Zpos b) < 1)%R).
  { split.
    - apply Rmult_le_pos; [lra|]. apply Rlt_le, Rinv_0_lt_compat; lra.
    - apply Rmult_lt_reg_r with (IZR (Zpos b)); [lra|].
      unfold Rdiv. rewrite Rmult_assoc, Rinv_l by lra. lra. }
  assert (Hinv : (0 < / IZR (2 ^ s))%R) by (apply Rinv_0_lt_compat; lra).
  split.
  - unfold located. rewrite Hbp, Hx, plus_IZR. split; [split; nra|].
    rewrite new_location_exact. split.
    + intros ->. unfold Rdiv. rewrite Rmult_0_l, Rplus_0_r. reflexivity.
    + intros Heq. apply eq_IZR.
      assert (IZR r / IZR (Zpos b) = 0)%R by nra.
      unfold Rdiv in H. apply Rmult_integral in H. destruct H; [exact H|].
      pose proof (Rinv_0_lt_compat _ HB). lra.
  - (* enough digits for the shift to be a right shift *)
    rewrite fexp64_eq. destruct (Z.eq_dec e' (-1074)) as [->|Hne]; [lia|].
    assert (Hle : e' <= d1 - d2 - 53).
    { subst e'. rewrite fexp64_eq in *. lia. }
    pose proof (Zdigits2_bounds (Zpos a) ltac:(lia)) as [Hla _].
    pose proof (Zdigits2_bounds (Zpos b) ltac:(lia)) as [_ Hub].
    fold d1 in Hla. fold d2 in Hub.
    assert (Hd1 : 0 < d1) by (subst d1; simpl; lia).
    assert (Hd2 : 0 < d2) by (subst d2; simpl; lia).
    assert (Hq52 : 2 ^ (d1 + s - d2 - 1) <= q).
    { destruct (Z_lt_le_dec q (2 ^ (d1 + s - d2 - 1))) as [C|C]; [exfalso|lia].
      assert (Hp : 2 ^ (d1 - 1) * 2 ^ s = 2 ^ (d1 + s - d2 - 1) * 2 ^ d2).
      { rewrite <- !Z.pow_add_r by lia. f_equal. lia. }
      assert (0 < 2 ^ (d1 + s - d2 - 1)) by (apply Z.pow_pos_nonneg; lia).
      nia. }
    assert (0 < q).
    { assert (0 < 2 ^ (d1 + s - d2 - 1)) by (apply Z.pow_pos_nonneg; lia). lia. }
    pose proof (Zdigits2_lower q (d1 + s - d2) H Hq52). lia.
Qed.

Theorem int_truediv_between (a b : Z) v1 v2 :
  0 < a -> 0 < b -> representable v1 -> representable v2 ->
  (v1 <= IZR a / IZR b <= v2)%R ->
  exists f, int_truediv a b = Ok f /\ pos_float f /\ (v1 <= F2R f <= v2)%R.
Proof.
  intros Ha Hb Hv1 Hv2 Hx.
  destruct a as [|a|a]; try lia. destruct b as [|b|b]; try lia.
  unfold int_truediv. simpl Z.eqb. cbn [raw_of_int SFdiv].
  pose proof (div_core_located a b) as H.
  destruct (SFdiv_core_binary prec emax (Zpos a) 0 (Zpos b) 0) as [[q e'] l].
  destruct H as (Hq & Hloc & Hsh).
  destruct (round_between false _ q e' l v1 v2 Hq Hloc Hsh Hv1 Hv2 Hx)
    as (m & e & Hr & Hbd & Hval).
  cbn [xorb]. rewrite Hr. exists (S754_finite false m e).
  split; [reflexivity|]. split; [exists m, e; auto|exact Hval].
Qed.

(** *** Conversion of a positive int *)

Lemma iter_xO m d : Zpos (Pos.iter xO m d) = Zpos m * 2 ^ Zpos d.
Proof.
  induction d as [|d IH] using Pos.peano_ind.
  - simpl. lia.
  - rewrite Pos.iter_succ, Pos2Z.inj_xO, IH, Pos2Z.inj_succ, Z.pow_succ_r by lia.
    lia.
Qed.

Lemma bounded_inv m e :
  bounded prec emax m e = true ->
  0 < Zpos m < 2 ^ 53 /\ -1074 <= e <= 971 /\
  (-1074 < e -> Zdigits2 (Zpos m) = 53).
Proof.
  unfold bounded, canonical_mantissa. intros H.
  apply andb_true_iff in H. destruct H as [Hc He].
  apply Z.eqb_eq in Hc. apply Z.leb_le in He.
  change (fexp prec emax) with fexp64 in Hc. rewrite fexp64_eq in Hc.
  change (emax - prec) with 971 in He.
  pose proof (Zdigits2_bounds (Zpos m) ltac:(lia)) as [_ Hu].
  simpl Zdigits2 in *.
  assert (2 ^ Zpos (digits2_pos m) <= 2 ^ 53) by (apply Z.pow_le_mono_r; lia).
  lia.
Qed.

Lemma pos_float_representable f : pos_float f -> representable (F2R f).
Proof.
  intros (m & e & -> & Hb). apply bounded_inv in Hb.
  exists (Zpos m), e. cbn [F2R cond_Zopp].
  change (2 ^ prec) with (2 ^ 53). change (emin prec emax) with (-1074).
  change (emax - prec) with 971. intuition lia.
Qed.

Lemma int_representable z : 0 < z < 2 ^ 53 -> representable (IZR z).
Proof.
  intros Hz. exists z, 0. unfold bpow. simpl powerRZ.
  change (emin prec emax) with (-1074). change (emax - prec) with 971.
  change (2 ^ prec) with (2 ^ 53). split; [lra|]. lia.
Qed.

Theorem float_of_int_between (z : Z) v1 v2 :
  0 < z -> representable v1 -> representable v2 -> (v1 <= IZR z <= v2)%R ->
  exists f, float_of_int z = Ok f /\ pos_float f /\ (v1 <= F2R f <= v2)%R.
Proof.
  intros Hz Hv1 Hv2 Hx. destruct z as [|p|p]; try lia.
  unfold float_of_int, binary_normalize, binary_round.
  change (fexp prec emax) with fexp64.
  set (ez := fexp64 (Zpos (digits2_pos p) + 0)).
  assert (Hsa : exists mz e0,
             shl_align p 0 ez = (mz, e0) /\
             (IZR (Zpos mz) * bpow e0 = IZR (Zpos p))%R /\
             e0 <= fexp64 (Zdigits2 (Zpos mz) + e0)).
  { unfold shl_align. destruct (ez - 0) as [|d|d] eqn:Ed.
    - exists p, 0. split; [reflexivity|]. split.
      + unfold bpow. simpl. lra.
      + fold ez. simpl Zdigits2. lia.
    - exists p, 0. split; [reflexivity|]. split.
      + unfold bpow. simpl. lra.
      + fold ez. simpl Zdigits2. lia.
    - exists (Pos.iter xO p d), ez. split; [reflexivity|]. split.
      + rewrite iter_xO, mult_IZR, Rmult_assoc, <- bpow_IZR, <- bpow_add by lia.
        replace (Zpos d + ez) with 0 by lia. unfold bpow. simpl. lra.
      + assert (Hdig : Zdigits2 (Zpos (Pos.iter xO p d)) = Zdigits2 (Zpos p) + Zpos d).
        { rewrite iter_xO.
          pose proof (Zdigits2_bounds (Zpos p) ltac:(lia)) as [Hl Hu].
          assert (0 < Zdigits2 (Zpos p)) by (simpl; lia).
          assert (0 < 2 ^ Zpos d) by (apply Z.pow_pos_nonneg; lia).
          apply Zdigits2_unique; [lia|].
          replace (Zdigits2 (Zpos p) + Zpos d - 1)
            with (Zdigits2 (Zpos p) - 1 + Zpos d) by lia.
          rewrite !Z.pow_add_r by lia. nia. }
        rewrite Hdig. simpl Zdigits2.
        replace (Zpos (digits2_pos p) + Zpos d + ez)
          with (Zpos (digits2_pos p) + 0) by lia.
        fold ez. lia. }
  destruct Hsa as (mz & e0 & -> & Hval & Hsh).
  assert (Hloc : located (IZR (Zpos p)) (Zpos mz) e0 loc_Exact).
  { split; [|split; [intros _; symmetry; exact Hval | reflexivity]].
    rewrite plus_IZR, <- Hval. pose proof (bpow_pos e0). nra. }
  destruct (round_between false _ (Zpos mz) e0 loc_Exact v1 v2 ltac:(lia) Hloc Hsh Hv1 Hv2 Hx)
    as (m & e & Hr & Hbd & Hv).
  rewrite Hr. exists (S754_finite false m e).
  split; [reflexivity|]. split; [exists m, e; auto|exact Hv].
Qed.

Corollary float_of_int_exact (z : Z) :
  0 < z < 2 ^ 53 ->
  exists f, float_of_int z = Ok f /\ pos_float f /\ F2R f = IZR z.
Proof.
  intros Hz. pose proof (int_representable z Hz) as Hr.
  destruct (float_of_int_between z (IZR z) (IZR z) ltac:(lia) Hr Hr ltac:(lra))
    as (f & Hf & Hp & Hv).
  exists f. split; [exact Hf|]. split; [exact Hp | lra].
Qed.

(** *** Product of two positive floats *)

Theorem mul_between f1 f2 v1 v2 :
  pos_float f1 -> pos_float f2 -> representable v1 -> representable v2 ->
  (v1 <= F2R f1 * F2R f2 <= v2)%R ->
  pos_float (SFmul prec emax f1 f2) /\
  (v1 <= F2R (SFmul prec emax f1 f2) <= v2)%R.
Proof.
  intros (m1 & e1 & -> & Hb1) (m2 & e2 & -> & Hb2) Hv1 Hv2 Hx.
  cbn [SFmul xorb]. cbn [F2R cond_Zopp] in Hx.
  pose proof (bounded_inv _ _ Hb1) as (Hm1 & He1 & Hn1).
  pose proof (bounded_inv _ _ Hb2) as (Hm2 & He2 & Hn2).
  assert (Hloc : located (IZR (Zpos m1) * bpow e1 * (IZR (Zpos m2) * bpow e2))
                   (Zpos (m1 * m2)) (e1 + e2) loc_Exact).
  { assert (Hv : (IZR (Zpos (m1 * m2)) * bpow (e1 + e2) =
                  IZR (Zpos m1) * bpow e1 * (IZR (Zpos m2) * bpow e2))%R).
    { rewrite Pos2Z.inj_mul, mult_IZR, bpow_add. ring. }
    split; [|split; [intros _; symmetry; exact Hv | reflexivity]].
    rewrite plus_IZR, <- Hv. pose proof (bpow_pos (e1 + e2)). nra. }
  assert (Hsh : e1 + e2 <= fexp64 (Zdigits2 (Zpos (m1 * m2)) + (e1 + e2))).
  { rewrite fexp64_eq.
    destruct (Z.eq_dec e1 (-1074)) as [E1|E1];
      destruct (Z.eq_dec e2 (-1074)) as [E2|E2]; try lia.
    - specialize (Hn2 ltac:(lia)).
      pose proof (Zdigits2_bounds (Zpos m2) ltac:(lia)) as [Hl2 _].
      rewrite Hn2 in Hl2.
      assert (53 <= Zdigits2 (Zpos (m1 * m2))).
      { apply Zdigits2_lower; [lia|]. rewrite Pos2Z.inj_mul. nia. }
      lia.
    - specialize (Hn1 ltac:(lia)).
      pose proof (Zdigits2_bounds (Zpos m1) ltac:(lia)) as [Hl1 _].
      rewrite Hn1 in Hl1.
      assert (53 <= Zdigits2 (Zpos (m1 * m2))).
      { apply Zdigits2_lower; [lia|]. rewrite Pos2Z.inj_mul. nia. }
      lia.
    - specialize (Hn1 ltac:(lia)).
      pose proof (Zdigits2_bounds (Zpos m1) ltac:(lia)) as [Hl1 _].
      rewrite Hn1 in Hl1.
      assert (53 <= Zdigits2 (Zpos (m1 * m2))).
      { apply Zdigits2_lower; [lia|]. rewrite Pos2Z.inj_mul. nia. }
      lia. }
  destruct (round_between false _ _ _ _ v1 v2 (Pos2Z.is_nonneg _) Hloc Hsh Hv1 Hv2 Hx)
    as (m & e & Hr & Hbd & Hv).
  rewrite Hr. split; [exists m, e; auto | exact Hv].
Qed.

(** *** Comparison and minimum of positive floats *)

Lemma SFltb_pos f1 f2 :
  pos_float f1 -> pos_float f2 ->
  (SFltb f1 f2 = true <-> (F2R f1 < F2R f2)%R).
Proof.
  intros (m1 & e1 & -> & Hb1) (m2 & e2 & -> & Hb2).
  pose proof (bounded_inv _ _ Hb1) as (Hm1 & He1 & Hn1).
  pose proof (bounded_inv _ _ Hb2) as (Hm2 & He2 & Hn2).
  unfold SFltb, SFcompare. cbn [F2R cond_Zopp].
  destruct (Z.compare_spec e1 e2) as [E|E|E].
  - subst e2. fold (Pos.compare m1 m2). pose proof (bpow_pos e1).
    destruct (Pos.compare_spec m1 m2) as [C|C|C].
    + subst. split; [discriminate | lra].
    + split; [intros _|reflexivity].
      assert (IZR (Zpos m1) < IZR (Zpos m2))%R by (apply IZR_lt; lia). nra.
    + split; [discriminate|]. intros Hlt. apply IZR_bpow_lt in Hlt. lia.
  - split; [intros _|reflexivity].
    apply slot_small; first [lia | exact Hn2].
  - split; [discriminate|]. intros Hlt.
    assert (IZR (Zpos m2) * bpow e2 < IZR (Zpos m1) * bpow e1)%R
      by (apply slot_small; first [lia | exact Hn1]).
    lra.
Qed.

Lemma min_pos a b :
  pos_float a -> pos_float b ->
  pos_float (min a b) /\ F2R (min a b) = Rmin (F2R a) (F2R b).
Proof.
  intros Ha Hb. unfold min. pose proof (SFltb_pos b a Hb Ha) as H.
  destruct (SFltb b a).
  - split; [exact Hb|]. rewrite Rmin_right; [reflexivity|].
    apply Rlt_le, H. reflexivity.
  - split; [exact Ha|]. rewrite Rmin_left; [reflexivity|].
    destruct (Rle_lt_dec (F2R a) (F2R b)) as [C|C]; [exact C|].
    apply H in C. discriminate.
Qed.

(** *** From a positive float back to an int *)

Lemma bpow_neg_inv s : 0 <= s -> bpow (- s) = (/ IZR (2 ^ s))%R.
Proof.
  intros Hs. unfold bpow. rewrite powerRZ_neg'. f_equal. apply bpow_IZR, Hs.
Qed.

Theorem int_of_float_pos f :
  pos_float f ->
  exists k, int_of_float f = Ok k /\ (IZR k <= F2R f < IZR k + 1)%R.
Proof.
  intros (m & e & -> & Hb). cbn [int_of_float cond_Zopp F2R].
  eexists. split; [reflexivity|].
  destruct (Z_lt_le_dec e 0) as [C|C].
  - rewrite Z.shiftl_div_pow2 by lia.
    replace e with (- (- e)) at 2 3 by lia. rewrite bpow_neg_inv by lia.
    set (s := - e). assert (H2 : 0 < 2 ^ s) by (apply Z.pow_pos_nonneg; lia).
    pose proof (Z.div_mod (Zpos m) (2 ^ s) ltac:(lia)) as Hdm.
    pose proof (Z.mod_pos_bound (Zpos m) (2 ^ s) H2) as Hr.
    assert (HR : (IZR (Zpos m) = IZR (2 ^ s) * IZR (Zpos m / 2 ^ s)
                                 + IZR (Zpos m mod 2 ^ s))%R).
    { rewrite <- mult_IZR, <- plus_IZR. f_equal. exact Hdm. }
    assert (H2R : (0 < IZR (2 ^ s))%R) by (apply IZR_lt; lia).
    assert (HrR : (0 <= IZR (Zpos m mod 2 ^ s) < IZR (2 ^ s))%R)
      by (split; [apply IZR_le | apply IZR_lt]; lia).
    rewrite HR. split.
    + apply Rmult_le_reg_r with (IZR (2 ^ s)); [lra|].
      rewrite Rmult_assoc, Rinv_l by lra. nra.
    + apply Rmult_lt_reg_r with (IZR (2 ^ s)); [lra|].
      rewrite Rmult_assoc, Rinv_l by lra. nra.
  - rewrite Z.shiftl_mul_pow2 by lia. rewrite mult_IZR, <- bpow_IZR by lia. lra.
Qed.

Theorem ceil_pos f :
  pos_float f ->
  exists k, ceil f = Ok k /\ (IZR k - 1 < F2R f <= IZR k)%R.
Proof.
  intros (m & e & -> & Hb). cbn [ceil cond_Zopp F2R].
  eexists. split; [reflexivity|].
  destruct (Z_lt_le_dec e 0) as [C|C].
  - rewrite Z.shiftl_div_pow2 by lia.
    replace e with (- (- e)) at 2 3 by lia. rewrite bpow_neg_inv by lia.
    set (s := - e). assert (H2 : 0 < 2 ^ s) by (apply Z.pow_pos_nonneg; lia).
    pose proof (Z.div_mod (Zneg m) (2 ^ s) ltac:(lia)) as Hdm.
    pose proof (Z.mod_pos_bound (Zneg m) (2 ^ s) H2) as Hr.
    assert (HR : (IZR (Zpos m) = IZR (2 ^ s) * IZR (- (Zneg m / 2 ^ s))
                                 - IZR (Zneg m mod 2 ^ s))%R).
    { rewrite <- mult_IZR, <- minus_IZR. f_equal. lia. }
    assert (H2R : (0 < IZR (2 ^ s))%R) by (apply IZR_lt; lia).
    assert (HrR : (0 <= IZR (Zneg m mod 2 ^ s) < IZR (2 ^ s))%R)
      by (split; [apply IZR_le | apply IZR_lt]; lia).
    rewrite HR. split.
    + apply Rmult_lt_reg_r with (IZR (2 ^ s)); [lra|].
      rewrite Rmult_assoc, Rinv_l by lra. nra.
    + apply Rmult_le_reg_r with (IZR (2 ^ s)); [lra|].
      rewrite Rmult_assoc, Rinv_l by lra. nra.
  - rewrite Z.shiftl_mul_pow2 by lia.
    replace (- (Zneg m * 2 ^ e)) with (Zpos m * 2 ^ e) by lia.
    rewrite mult_IZR, <- bpow_IZR by lia. lra.
Qed.

(** *** Square root of a positive float *)

Lemma sqrt_core_located (m : positive) (e : Z) :
  let '(q, e', l) := SFsqrt_core_binary prec emax (Zpos m) e in
  0 <= q /\ located (R_sqrt.sqrt (IZR (Zpos m) * bpow e)) q e' l /\
  e' <= fexp64 (Zdigits2 q + e').
Proof.
  unfold SFsqrt_core_binary. change (fexp prec emax) with fexp64.
  set (d := Zdigits2 (Zpos m)).
  set (e' := Z.min (fexp64 (Z.div2 (d + e + 1))) (Z.div2 e)).
  assert (He2 : 2 * Z.div2 e <= e).
  { rewrite Z.div2_div. pose proof (Z.mul_div_le e 2 ltac:(lia)). lia. }
  assert (He' : 2 * e' <= e) by (subst e'; lia).
  set (s := e - 2 * e').
  set (m' := match s with Zpos _ => Z.shiftl (Zpos m) s | Z0 => Zpos m | Zneg _ => 0 end).
  assert (Hm' : m' = Zpos m * 2 ^ s).
  { subst m'. destruct s as [|p|p] eqn:Es; [lia | | lia].
    rewrite Z.shiftl_mul_pow2 by lia. reflexivity. }
  assert (H2s : 0 < 2 ^ s) by (apply Z.pow_pos_nonneg; lia).
  pose proof (Z.sqrtrem_spec m' ltac:(nia)) as Hsq.
  destruct (Z.sqrtrem m') as [q r]. destruct Hsq as [Hqr Hr].
  assert (Hq : 0 <= q) by lia. split; [exact Hq|].
  set (X := (IZR (Zpos m) * bpow e)%R).
  assert (HX : X = (IZR m' * (bpow e' * bpow e'))%R).
  { subst X. rewrite Hm', mult_IZR, <- bpow_IZR, <- bpow_add, Rmult_assoc, <- bpow_add by lia.
    f_equal. f_equal. lia. }
  pose proof (bpow_pos e') as HB.
  assert (Hlo : (IZR q * bpow e' <= R_sqrt.sqrt X)%R).
  { rewrite <- (sqrt_square (IZR q * bpow e')) by (apply Rmult_le_pos; [apply IZR_le; lia | lra]).
    apply sqrt_le_1_alt. rewrite HX.
    assert (IZR (q * q) <= IZR m')%R by (apply IZR_le; lia).
    rewrite mult_IZR in H. nra. }
  assert (Hhi : (R_sqrt.sqrt X < IZR (q + 1) * bpow e')%R).
  { rewrite <- (sqrt_square (IZR (q + 1) * bpow e')) by (apply Rmult_le_pos; [apply IZR_le; lia | lra]).
    apply sqrt_lt_1_alt. rewrite HX. split.
    - apply Rmult_le_pos; [apply IZR_le; nia | nra].
    - assert (IZR m' < IZR ((q + 1) * (q + 1)))%R by (apply IZR_lt; lia).
      rewrite mult_IZR in H.
      replace (IZR (q + 1) * bpow e' * (IZR (q + 1) * bpow e'))%R
        with (IZR (q + 1) * IZR (q + 1) * (bpow e' * bpow e'))%R by ring.
      apply Rmult_lt_compat_r; [nra | exact H]. }
  split.
  - split; [split; assumption|].
    assert (HXpos : (0 <= X)%R).
    { rewrite HX. apply Rmult_le_pos; [apply IZR_le; nia | nra]. }
    destruct (Z.eqb_spec r 0) as [Hr0|Hr0].
    + split; [intros _|reflexivity].
      assert (X = (IZR q * bpow e') * (IZR q * bpow e'))%R.
      { rewrite HX. replace m' with (q * q) by lia. rewrite mult_IZR. ring. }
      rewrite H. apply sqrt_square. apply Rmult_le_pos; [apply IZR_le; lia | lra].
    + split; [discriminate|]. intros Heq. exfalso. apply Hr0.
      pose proof (sqrt_sqrt X HXpos) as Hss. rewrite Heq, HX in Hss.
      assert (IZR q * IZR q = IZR m')%R.
      { apply Rmult_eq_reg_r with (bpow e' * bpow e')%R; [rewrite <- Hss; ring | nra]. }
      rewrite <- mult_IZR in H. apply eq_IZR in H. lia.
  - rewrite fexp64_eq. destruct (Z_le_gt_dec e' (-1074)) as [C|C]; [lia|].
    assert (Hh : e' + 53 <= Z.div2 (d + e + 1)).
    { subst e'. rewrite fexp64_eq in *. lia. }
    assert (Hde : 2 * e' + 106 <= d + e + 1).
    { rewrite Z.div2_div in Hh. pose proof (Z.mul_div_le (d + e + 1) 2 ltac:(lia)). lia. }
    pose proof (Zdigits2_bounds (Zpos m) ltac:(lia)) as [Hl _]. fold d in Hl.
    assert (Hd : 0 < d) by (subst d; simpl; lia).
    assert (Hm104 : 2 ^ 104 <= m').
    { rewrite Hm'. apply Z.le_trans with (2 ^ (d - 1) * 2 ^ s); [|nia].
      rewrite <- Z.pow_add_r by lia. apply Z.pow_le_mono_r; lia. }
    assert (Hq52 : 2 ^ 52 <= q).
    { destruct (Z_lt_le_dec q (2 ^ 52)) as [C'|C']; [exfalso|lia].
      change (2 ^ 104) with (2 ^ 52 * 2 ^ 52) in Hm104. nia. }
    pose proof (Zdigits2_lower q 53 ltac:(lia) Hq52). lia.
Qed.

Theorem sqrt_between (z : Z) v1 v2 :
  0 < z < 2 ^ 53 -> representable v1 -> representable v2 ->
  (v1 <= R_sqrt.sqrt (IZR z) <= v2)%R ->
  exists f, Py.sqrt z = Ok f /\ pos_float f /\ (v1 <= F2R f <= v2)%R.
Proof.
  intros Hz Hv1 Hv2 Hx. unfold Py.sqrt.
  destruct (float_of_int_exact z Hz) as (f0 & -> & (m & e & -> & Hb) & Hval).
  cbn [bind SFsqrt]. cbn [F2R cond_Zopp] in Hval. rewrite <- Hval in Hx.
  pose proof (sqrt_core_located m e) as H.
  destruct (SFsqrt_core_binary prec emax (Zpos m) e) as [[q e'] l].
  destruct H as (Hq & Hloc & Hsh).
  destruct (round_between false _ q e' l v1 v2 Hq Hloc Hsh Hv1 Hv2 Hx)
    as (m' & e'' & Hr & Hbd & Hv).
  rewrite Hr. exists (S754_finite false m' e'').
  split; [reflexivity|]. split; [exists m', e''; auto|exact Hv].
Qed.

(** *** Representable numbers inside an interval *)

Lemma dyadic_between (lo hi : R) (j : Z) :
  0 <= j <= 1074 -> (0 <= lo)%R -> (lo + bpow (- j) <= hi)%R ->
  (hi * bpow j < IZR (2 ^ 53))%R ->
  exists v, representable v /\ (lo < v <= hi)%R.
Proof.
  intros Hj Hlo Hgap Hmant.
  set (M := up (lo * bpow j)).
  destruct (archimed (lo * bpow j)) as [Hup1 Hup2]. fold M in Hup1, Hup2.
  pose proof (bpow_pos j) as HBj. pose proof (bpow_pos (- j)) as HBn.
  assert (Hinv : (bpow j * bpow (- j) = 1)%R).
  { rewrite <- bpow_add. replace (j + - j) with 0 by lia. reflexivity. }
  exists (IZR M * bpow (- j))%R. split.
  - exists M, (- j). split; [reflexivity|].
    change (emin prec emax) with (-1074). change (emax - prec) with 971.
    change (2 ^ prec) with (2 ^ 53). split; [|lia]. split.
    + apply lt_IZR. assert (0 <= lo * bpow j)%R by (apply Rmult_le_pos; lra). lra.
    + apply lt_IZR. apply Rle_lt_trans with (hi * bpow j)%R; [|exact Hmant].
      apply Rle_trans with (lo * bpow j + 1)%R; [lra|].
      rewrite <- Hinv. nra.
  - split.
    + apply Rmult_lt_reg_r with (bpow j); [lra|].
      rewrite Rmult_assoc, (Rmult_comm (bpow (- j))), Hinv. lra.
    + apply Rle_trans with (lo + bpow (- j))%R; [|exact Hgap].
      apply Rmult_le_reg_r with (bpow j); [lra|].
      rewrite Rmult_assoc, (Rmult_comm (bpow (- j))), Hinv.
      rewrite Rmult_plus_distr_r, (Rmult_comm (bpow (- j))), Hinv. lra.
Qed.

(** *** Faithful results *)

Lemma faithful_exact x f : faithful x f -> representable x -> F2R f = x.
Proof.
  intros (_ & Hl & Hu) Hx. apply Rle_antisym; [apply Hu | apply Hl];
    first [assumption | lra].
Qed.

Theorem int_truediv_faithful (a b : Z) v1 v2 :
  0 < a -> 0 < b -> representable v1 -> representable v2 ->
  (v1 <= IZR a / IZR b <= v2)%R ->
  exists f, int_truediv a b = Ok f /\ faithful (IZR a / IZR b) f.
Proof.
  intros Ha Hb Hv1 Hv2 Hx.
  destruct (int_truediv_between a b v1 v2 Ha Hb Hv1 Hv2 Hx) as (f & Hf & Hp & _).
  exists f. split; [exact Hf|]. split; [exact Hp|]. split.
  - intros g Hg Hle.
    destruct (int_truediv_between a b g v2 Ha Hb Hg Hv2 ltac:(lra))
      as (f' & Hf' & _ & Hv).
    rewrite Hf in Hf'. injection Hf' as <-. lra.
  - intros G HG Hle.
    destruct (int_truediv_between a b v1 G Ha Hb Hv1 HG ltac:(lra))
      as (f' & Hf' & _ & Hv).
    rewrite Hf in Hf'. injection Hf' as <-. lra.
Qed.

Theorem mul_faithful f1 f2 v1 v2 :
  pos_float f1 -> pos_float f2 -> representable v1 -> representable v2 ->
  (v1 <= F2R f1 * F2R f2 <= v2)%R ->
  faithful (F2R f1 * F2R f2) (SFmul prec emax f1 f2).
Proof.
  intros H1 H2 Hv1 Hv2 Hx.
  destruct (mul_between f1 f2 v1 v2 H1 H2 Hv1 Hv2 Hx) as [Hp _].
  split; [exact Hp|]. split.
  - intros g Hg Hle.
    destruct (mul_between f1 f2 g v2 H1 H2 Hg Hv2 ltac:(lra)) as [_ Hv]. lra.
  - intros G HG Hle.
    destruct (mul_between f1 f2 v1 G H1 H2 Hv1 HG ltac:(lra)) as [_ Hv]. lra.
Qed.

Theorem sqrt_faithful (z : Z) v1 v2 :
  0 < z < 2 ^ 53 -> representable v1 -> representable v2 ->
  (v1 <= R_sqrt.sqrt (IZR z) <= v2)%R ->
  exists f, Py.sqrt z = Ok f /\ faithful (R_sqrt.sqrt (IZR z)) f.
Proof.
  intros Hz Hv1 Hv2 Hx.
  destruct (sqrt_between z v1 v2 Hz Hv1 Hv2 Hx) as (f & Hf & Hp & _).
  exists f. split; [exact Hf|]. split; [exact Hp|]. split.
  - intros g Hg Hle.
    destruct (sqrt_between z g v2 Hz Hg Hv2 ltac:(lra)) as (f' & Hf' & _ & Hv).
    rewrite Hf in Hf'. injection Hf' as <-. lra.
  - intros G HG Hle.
    destruct (sqrt_between z v1 G Hz Hv1 HG ltac:(lra)) as (f' & Hf' & _ & Hv).
    rewrite Hf in Hf'. injection Hf' as <-. lra.
Qed.

Lemma min_faithful x y a b :
  faithful x a -> faithful y b -> faithful (Rmin x y) (min a b).
Proof.
  intros (Ha & Hla & Hua) (Hb & Hlb & Hub).
  destruct (min_pos a b Ha Hb) as [Hp Hv]. split; [exact Hp|].
  rewrite Hv. split.
  - intros g Hg Hle. apply Rmin_glb.
    + apply Hla; [exact Hg|]. pose proof (Rmin_l x y). lra.
    + apply Hlb; [exact Hg|]. pose proof (Rmin_r x y). lra.
  - intros G HG Hle. unfold Rmin in Hle. destruct (Rle_dec x y).
    + apply Rle_trans with (F2R a); [apply Rmin_l | apply Hua; assumption].
    + apply Rle_trans with (F2R b); [apply Rmin_r | apply Hub; assumption].
Qed.

(** *** Powers of two around an integer *)

Lemma pow2_cover c : 1 <= c -> exists j, 0 <= j /\ c <= 2 ^ j < 2 * c.
Proof.
  intros Hc. destruct (Z.eq_dec c 1) as [->|Hne].
  - exists 0. simpl. lia.
  - exists (Z.log2_up c). pose proof (Z.log2_up_spec c ltac:(lia)) as [Hl Hu].
    pose proof (Z.log2_up_nonneg c).
    assert (0 < Z.log2_up c) by (apply Z.log2_up_pos; lia).
    split; [lia|]. split; [exact Hu|].
    replace (Z.log2_up c) with (Z.succ (Z.pred (Z.log2_up c))) by lia.
    rewrite Z.pow_succ_r by lia. lia.
Qed.

Lemma pow2_exp_bound j k : 0 <= j -> 2 ^ j < 2 ^ k -> j < k.
Proof.
  intros Hj H. destruct (Z_lt_le_dec j k) as [C|C]; [exact C|].
  destruct (Z_lt_le_dec k 0) as [Ck|Ck].
  - rewrite (Z.pow_neg_r 2 k) in H by lia.
    assert (0 < 2 ^ j) by (apply Z.pow_pos_nonneg; lia). lia.
  - assert (2 ^ k <= 2 ^ j) by (apply Z.pow_le_mono_r; lia). lia.
Qed.

(** A representable number in [(lo, hi]] when the gap is at least
    [1 / c] and the mantissa has room. *)
Lemma representable_in_gap (lo hi : R) (c : Z) :
  1 <= c <= 2 ^ 1074 -> (0 <= lo)%R -> (lo + / IZR c <= hi)%R ->
  (hi * (2 * IZR c) <= IZR (2 ^ 53))%R ->
  exists v, representable v /\ (lo < v <= hi)%R.
Proof.
  intros Hc Hlo Hgap Hmant.
  destruct (pow2_cover c ltac:(lia)) as (j & Hj & Hcj & Hjc).
  assert (Hj' : j <= 1074).
  { assert (2 ^ j < 2 ^ 1075) by (change (2 ^ 1075) with (2 * 2 ^ 1074); lia).
    pose proof (pow2_exp_bound j 1075 Hj H). lia. }
  assert (HcR : (0 < IZR c)%R) by (apply IZR_lt; lia).
  assert (H2j : bpow j = IZR (2 ^ j)) by (apply bpow_IZR; lia).
  assert (Hle : (IZR c <= bpow j)%R) by (rewrite H2j; apply IZR_le; lia).
  assert (Hlt : (bpow j < 2 * IZR c)%R).
  { rewrite H2j, <- mult_IZR. apply IZR_lt. lia. }
  apply (dyadic_between lo hi j); [lia | exact Hlo | |].
  - apply Rle_trans with (lo + / IZR c)%R; [|exact Hgap].
    apply Rplus_le_compat_l. rewrite bpow_neg_inv by lia. rewrite <- H2j.
    apply Rinv_le_contravar; lra.
  - assert (0 < hi)%R.
    { pose proof (Rinv_0_lt_compat _ HcR). lra. }
    apply Rlt_le_trans with (hi * (2 * IZR c))%R; [|exact Hmant].
    apply Rmult_lt_compat_l; lra.
Qed.

(** *** Division never fails on a bounded numerator *)

Theorem int_truediv_total (a b : Z) :
  0 < a < 2 ^ 53 -> b <> 0 ->
  exists f k, int_truediv a b = Ok f /\ ceil f = Ok k.
Proof.
  intros Ha Hb. destruct a as [|a|a]; try lia.
  assert (Hcore : forall (pb : positive) (sb : bool),
             exists f k,
               match binary_round_aux prec emax (xorb false sb)
                       (fst (fst (SFdiv_core_binary prec emax (Zpos a) 0 (Zpos pb) 0)))
                       (snd (fst (SFdiv_core_binary prec emax (Zpos a) 0 (Zpos pb) 0)))
                       (snd (SFdiv_core_binary prec emax (Zpos a) 0 (Zpos pb) 0))
               with
               | S754_infinity _ => Raise OverflowError
               | r => Ok r
               end = Ok f /\ ceil f = Ok k).
  { intros pb sb. pose proof (div_core_located a pb) as H.
    destruct (SFdiv_core_binary prec emax (Zpos a) 0 (Zpos pb) 0) as [[q e'] l].
    destruct H as (Hq & Hloc & Hsh). cbn [fst snd].
    assert (Hx : (IZR (Zpos a) / IZR (Zpos pb) <= IZR (Zpos a))%R).
    { assert (1 <= IZR (Zpos pb))%R by (apply IZR_le; lia).
      assert (0 < IZR (Zpos a))%R by (apply IZR_lt; lia).
      apply Rmult_le_reg_r with (IZR (Zpos pb)); [lra|].
      unfold Rdiv. rewrite Rmult_assoc, Rinv_l by lra. nra. }
    destruct (round_upper (xorb false sb) _ q e' l (IZR (Zpos a)) Hq Hloc Hsh
                (int_representable _ Ha) Hx) as [Hz|(m & e & Hr & _)].
    - rewrite Hz. eexists. exists 0. split; reflexivity.
    - rewrite Hr. destruct (xorb false sb);
        eexists; eexists; (split; [reflexivity|]); reflexivity. }
  unfold int_truediv. destruct (Z.eqb_spec b 0) as [E|_]; [contradiction|].
  destruct b as [|pb|pb]; try lia; cbn [raw_of_int SFdiv].
  - specialize (Hcore pb false).
    destruct (SFdiv_core_binary prec emax (Zpos a) 0 (Zpos pb) 0) as [[q e'] l].
    exact Hcore.
  - specialize (Hcore pb true).
    destruct (SFdiv_core_binary prec emax (Zpos a) 0 (Zpos pb) 0) as [[q e'] l].
    exact Hcore.
Qed.

End Binary64.

(** * The layout *)

Section Quotient.
Variables (n c : Z).
Hypothesis Hn : 1 <= n < 2 ^ 52.
Hypothesis Hc : 1 <= c <= 2 ^ 1074.

Lemma quotient_facts :
  (0 < IZR c)%R /\ (IZR n / IZR c * IZR c = IZR n)%R /\
  (/ IZR c <= IZR n / IZR c)%R /\ (IZR n / IZR c <= IZR n)%R.
Proof.
  assert (HcR : (1 <= IZR c)%R) by (apply IZR_le; lia).
  assert (HnR : (1 <= IZR n)%R) by (apply IZR_le; lia).
  assert (Hi : (0 < / IZR c <= 1)%R).
  { split; [apply Rinv_0_lt_compat; lra|].
    rewrite <- Rinv_1. apply Rinv_le_contravar; lra. }
  unfold Rdiv. repeat split; try lra.
  - rewrite Rmult_assoc, Rinv_l by lra. lra.
  - nra.
  - nra.
Qed.

Lemma quotient_faithful :
  exists f, Py.int_truediv n c = Ok f /\ Fp.faithful (IZR n / IZR c) f.
Proof.
  destruct quotient_facts as (HcR & Hxc & Hlo & Hhi).
  set (x := (IZR n / IZR c)%R) in *.
  assert (Hn53 : IZR (2 ^ 53) = (2 * IZR (2 ^ 52))%R)
    by (rewrite <- mult_IZR; reflexivity).
  assert (Hn52 : (IZR n < IZR (2 ^ 52))%R) by (apply IZR_lt; lia).
  destruct (Binary64.representable_in_gap 0 x c Hc ltac:(lra) ltac:(lra))
    as (v1 & Hv1 & Hv1x); [nra|].
  apply (Binary64.int_truediv_faithful n c v1 (IZR n)); try lia; try assumption.
  - apply Binary64.int_representable. change (2 ^ 53) with (2 * 2 ^ 52). lia.
  - fold x. lra.
Qed.

(** [math.ceil(n / c)] is the exact ceiling of the quotient. *)
Theorem main_rows_exact : main_rows n c = Ok ((n + c - 1) / c).
Proof.
  destruct quotient_facts as (HcR & Hxc & Hlo & Hhi).
  destruct quotient_faithful as (f & Hf & Hp & Hl & Hu).
  set (x := (IZR n / IZR c)%R) in *.
  unfold main_rows. rewrite Hf. cbn [bind].
  destruct (Binary64.ceil_pos f Hp) as (k & Hk & Hk1 & Hk2). rewrite Hk. f_equal.
  set (K := (n + c - 1) / c).
  assert (HK : c * (K - 1) < n <= c * K).
  { pose proof (Z.div_mod (n + c - 1) c ltac:(lia)).
    pose proof (Z.mod_pos_bound (n + c - 1) c ltac:(lia)). subst K. lia. }
  assert (HK1 : 1 <= K <= n) by nia.
  assert (HKR : (IZR c * (IZR K - 1) < IZR n <= IZR c * IZR K)%R).
  { rewrite <- minus_IZR, <- !mult_IZR. split; [apply IZR_lt | apply IZR_le]; lia. }
  assert (Hn53 : IZR (2 ^ 53) = (2 * IZR (2 ^ 52))%R)
    by (rewrite <- mult_IZR; reflexivity).
  assert (Hn52 : (IZR n < IZR (2 ^ 52))%R) by (apply IZR_lt; lia).
  assert (Hup : (Fp.F2R f <= IZR K)%R).
  { apply Hu; [apply Binary64.int_representable; change (2 ^ 53) with (2 * 2 ^ 52); lia|].
    apply Rmult_le_reg_r with (IZR c); [lra|]. lra. }
  assert (Hlow : (IZR K - 1 < Fp.F2R f)%R).
  { destruct (Z.eq_dec K 1) as [->|HKne].
    - pose proof (Binary64.representable_pos _ (Binary64.pos_float_representable f Hp)). lra.
    - assert (H1K : (1 <= IZR K - 1)%R) by (rewrite <- minus_IZR; apply IZR_le; lia).
      destruct (Binary64.representable_in_gap (IZR K - 1) x c Hc ltac:(lra))
        as (v & Hv & Hvx).
      + apply Rmult_le_reg_r with (IZR c); [lra|].
        rewrite Rmult_plus_distr_r, Rinv_l, Hxc by lra.
        assert (IZR (c * (K - 1) + 1) <= IZR n)%R by (apply IZR_le; lia).
        rewrite plus_IZR, mult_IZR, minus_IZR in H. lra.
      + nra.
      + specialize (Hl v Hv ltac:(lra)). lra. }
  assert (IZR k - 1 < IZR K)%R by lra.
  assert (IZR K - 1 < IZR k)%R by lra.
  rewrite <- minus_IZR in H, H0. apply lt_IZR in H, H0. lia.
Qed.
End Quotient.

Section Root.
Variable n : Z.
Hypothesis Hn : 1 <= n < 2 ^ 50.

Lemma root_facts :
  (1 <= R_sqrt.sqrt (IZR n))%R /\
  (R_sqrt.sqrt (IZR n) * R_sqrt.sqrt (IZR n) = IZR n)%R /\
  (R_sqrt.sqrt (IZR n) <= IZR n)%R.
Proof.
  set (r := R_sqrt.sqrt (IZR n)).
  assert (HnR : (1 <= IZR n)%R) by (apply IZR_le; lia).
  assert (Hrr : (r * r = IZR n)%R) by (apply sqrt_sqrt; lra).
  assert (Hr0 : (0 <= r)%R) by apply sqrt_pos.
  assert (Hr1 : (1 <= r)%R).
  { destruct (Rle_lt_dec 1 r); [assumption | nra]. }
  repeat split; try assumption. nra.
Qed.

(** [math.ceil(math.sqrt(n))] is the exact ceiling of the square root. *)
Theorem ceil_sqrt_exact : main_cols 0 n = Ok (Z.sqrt_up n).
Proof.
  destruct root_facts as (Hr1 & Hrr & Hrn).
  set (r := R_sqrt.sqrt (IZR n)) in *.
  assert (Hn50 : (IZR n < IZR (2 ^ 50))%R) by (apply IZR_lt; lia).
  assert (H53 : IZR (2 ^ 53) = (8 * IZR (2 ^ 50))%R)
    by (rewrite <- mult_IZR; reflexivity).
  assert (Hone : Fp.representable 1) by (apply (Binary64.int_representable 1); lia).
  assert (Hnrep : Fp.representable (IZR n)).
  { apply Binary64.int_representable. change (2 ^ 53) with (8 * 2 ^ 50). lia. }
  destruct (Binary64.sqrt_faithful n 1 (IZR n)) as (f & Hf & Hp & Hl & Hu);
    try assumption.
  { change (2 ^ 53) with (8 * 2 ^ 50). lia. }
  { fold r. lra. }
  fold r in Hl, Hu.
  unfold main_cols, Py.or_else. simpl Z.eqb. cbv iota. rewrite Hf. cbn [bind].
  destruct (Binary64.ceil_pos f Hp) as (k & Hk & Hk1 & Hk2). rewrite Hk. f_equal.
  set (K := Z.sqrt_up n).
  pose proof (Z.sqrt_up_spec n ltac:(lia)) as [HKl HKu]. fold K in HKl, HKu.
  rewrite <- Z.sub_1_r in HKl.
  pose proof (Z.sqrt_up_nonneg n) as HK0. fold K in HK0.
  assert (HK1 : 1 <= K) by nia.
  assert (HKn : K <= n) by nia.
  assert (HKlR : ((IZR K - 1) * (IZR K - 1) < IZR n)%R).
  { rewrite <- minus_IZR, <- mult_IZR. apply IZR_lt. exact HKl. }
  assert (HKuR : (IZR n <= IZR K * IZR K)%R).
  { rewrite <- mult_IZR. apply IZR_le. exact HKu. }
  assert (HK1R : (1 <= IZR K)%R) by (apply IZR_le; lia).
  assert (HrK : (IZR K - 1 < r <= IZR K)%R).
  { split.
    - destruct (Rlt_le_dec (IZR K - 1) r); [assumption | nra].
    - destruct (Rle_lt_dec r (IZR K)); [assumption | nra]. }
  assert (Hup : (Fp.F2R f <= IZR K)%R).
  { apply Hu; [|lra]. apply Binary64.int_representable.
    change (2 ^ 53) with (8 * 2 ^ 50). lia. }
  assert (Hlow : (IZR K - 1 < Fp.F2R f)%R).
  { destruct (Z.eq_dec K 1) as [HK|HKne].
    - rewrite HK. specialize (Hl 1%R Hone Hr1). lra.
    - assert (H1K : (1 <= IZR K - 1)%R) by (rewrite <- minus_IZR; apply IZR_le; lia).
      assert (Hc : 1 <= 2 * K - 1 <= 2 ^ 1074).
      { split; [lia|]. apply Z.le_trans with (2 ^ 51).
        - change (2 ^ 51) with (2 * 2 ^ 50). lia.
        - apply Z.pow_le_mono_r; lia. }
      assert (HcR : IZR (2 * K - 1) = (2 * IZR K - 1)%R)
        by (rewrite minus_IZR, mult_IZR; reflexivity).
      assert (Hinv : (0 < / (2 * IZR K - 1))%R) by (apply Rinv_0_lt_compat; lra).
      assert (Hinv1 : ((2 * IZR K - 1) * / (2 * IZR K - 1) = 1)%R)
        by (apply Rinv_r; lra).
      destruct (Binary64.representable_in_gap (IZR K - 1) r (2 * K - 1) Hc ltac:(lra))
        as (v & Hv & Hvx).
      + rewrite HcR. set (a := (IZR K - 1)%R) in *.
        set (i := (/ (2 * IZR K - 1))%R) in *.
        assert (Hai : ((2 * a + 1) * i = 1)%R) by (subst a; lra).
        assert (Hi1 : (i <= 1)%R) by nra.
        assert (Hsq : ((a + i) * (a + i) <= IZR n)%R).
        { assert (a * a + 1 <= IZR n)%R.
          { subst a. rewrite <- minus_IZR, <- mult_IZR, <- (plus_IZR _ 1).
            apply IZR_le. lia. }
          assert (2 * a * i + i * i <= 1)%R by nra.
          nra. }
        destruct (Rle_lt_dec (a + i) r); [assumption | nra].
      + rewrite HcR. nra.
      + specialize (Hl v Hv ltac:(lra)). lra. }
  assert (IZR k - 1 < IZR K)%R by lra.
  assert (IZR K - 1 < IZR k)%R by lra.
  rewrite <- minus_IZR in H, H0. apply lt_IZR in H, H0. lia.
Qed.
End Root.

(** ** Maximum of the sizes *)

Lemma Py_max_Zmax a b : Py.max a b = Z.max a b.
Proof. unfold Py.max. destruct (Z.gtb_spec b a); lia. Qed.

Lemma fold_max_bounds (l : list Z) (x : Z) :
  (fold_left Py.max l x = x \/ In (fold_left Py.max l x) l) /\
  x <= fold_left Py.max l x /\
  forall y, In y l -> y <= fold_left Py.max l x.
Proof.
  revert x. induction l as [|a l IH]; intros x; cbn [fold_left].
  - split; [left; reflexivity|]. split; [lia|]. intros y [].
  - destruct (IH (Py.max x a)) as (Hin & Hle & Hall).
    rewrite Py_max_Zmax in *. split; [|split].
    + destruct Hin as [E|Hin]; [|right; right; exact Hin].
      rewrite E. destruct (Z.max_spec x a) as [[_ ->]|[_ ->]];
        [right; left; reflexivity | left; reflexivity].
    + lia.
    + intros y [<-|Hy]; [lia | apply Hall, Hy].
Qed.

Lemma max_of_spec (l : list Z) :
  l <> [] ->
  exists m, Py.max_of l = Ok m /\ In m l /\ forall y, In y l -> y <= m.
Proof.
  destruct l as [|x t]; [contradiction|]. intros _.
  exists (fold_left Py.max t x). split; [reflexivity|].
  destruct (fold_max_bounds t x) as (Hin & Hle & Hall). split.
  - destruct Hin as [->|Hin]; [left; reflexivity | right; exact Hin].
  - intros y [<-|Hy]; [exact Hle | apply Hall, Hy].
Qed.

(** ** Columns and rows *)

Lemma main_cols_total (c n : Z) :
  1 <= n < 2 ^ 50 ->
  main_cols c n = Ok (if c =? 0 then Z.sqrt_up n else c).
Proof.
  intros Hn. destruct (Z.eqb_spec c 0) as [->|Hc].
  - apply ceil_sqrt_exact, Hn.
  - unfold main_cols, Py.or_else. destruct (Z.eqb_spec c 0); [contradiction|].
    reflexivity.
Qed.

Lemma sqrt_up_range (n : Z) :
  1 <= n -> 1 <= Z.sqrt_up n <= n /\
            (Z.sqrt_up n - 1) * (Z.sqrt_up n - 1) < n <= Z.sqrt_up n * Z.sqrt_up n.
Proof.
  intros Hn. pose proof (Z.sqrt_up_spec n ltac:(lia)) as [Hl Hu].
  rewrite <- Z.sub_1_r in Hl. pose proof (Z.sqrt_up_nonneg n). 
  split; [|split; assumption]. nia.
Qed.

Lemma main_rows_total (n c : Z) :
  1 <= n < 2 ^ 50 -> c <> 0 -> exists rows, main_rows n c = Ok rows.
Proof.
  intros Hn Hc.
  destruct (Binary64.int_truediv_total n c) as (f & k & Hf & Hk); [|exact Hc|].
  - split; [lia|]. apply Z.lt_trans with (2 ^ 50); [lia | reflexivity].
  - exists k. unfold main_rows. rewrite Hf. exact Hk.
Qed.

(** The layout is computed for every non-empty list of sizes, and these
    are its fields. *)
Lemma main_layout_returns (args : argparse.Namespace) (sizes : list (Z * Z)) :
  sizes <> [] ->
  Z.of_nat (List.length sizes) < 2 ^ 50 ->
  exists max_w max_h c r,
    Py.max_of (map fst sizes) = Ok max_w /\
    Py.max_of (map snd sizes) = Ok max_h /\
    main_cols (argparse.cols args) (Z.of_nat (List.length sizes)) = Ok c /\
    c <> 0 /\
    main_rows (Z.of_nat (List.length sizes)) c = Ok r /\
    let cw := if argparse.cell_width args =? 0 then max_w
              else argparse.cell_width args in
    let ch := if argparse.cell_height args =? 0 then max_h
              else argparse.cell_height args in
    main_layout args sizes =
      Ok {| cell_w := cw; cell_h := ch; cols := c; rows := r;
            pad := argparse.padding args;
            grid_w := c * cw + (c - 1) * argparse.padding args;
            grid_h := r * ch + (r - 1) * argparse.padding args |}.
Proof.
  intros Hne Hlen. set (n := Z.of_nat (List.length sizes)) in *.
  assert (Hn : 1 <= n < 2 ^ 50).
  { subst n. destruct sizes; [contradiction|]. cbn [List.length] in *. lia. }
  assert (Hne1 : map fst sizes <> []) by (destruct sizes; [contradiction | discriminate]).
  assert (Hne2 : map snd sizes <> []) by (destruct sizes; [contradiction | discriminate]).
  destruct (max_of_spec _ Hne1) as (mw & Hmw & _).
  destruct (max_of_spec _ Hne2) as (mh & Hmh & _).
  set (c := if argparse.cols args =? 0 then Z.sqrt_up n else argparse.cols args).
  assert (Hc : c <> 0).
  { subst c. destruct (Z.eqb_spec (argparse.cols args) 0); [|assumption].
    pose proof (sqrt_up_range n ltac:(lia)). lia. }
  destruct (main_rows_total n c Hn Hc) as (r & Hr).
  exists mw, mh, c, r. split; [exact Hmw|]. split; [exact Hmh|].
  split; [apply main_cols_total, Hn|]. split; [exact Hc|]. split; [exact Hr|].
  cbv zeta. unfold main_layout. fold n. rewrite Hmw, Hmh. cbn [bind].
  unfold Py.or_else at 1 2. cbn [bind].
  rewrite (main_cols_total _ n Hn). cbn [bind]. fold c. rewrite Hr. cbn [bind].
  destruct (argparse.cell_width args =? 0), (argparse.cell_height args =? 0);
    reflexivity.
Qed.

(** C1, as the code has it. For every non-empty list of image sizes
    (fewer than 2^50 of them)
    and every command line, the layout is computed and the canvas is
    columns * cell_w + (columns - 1) * padding wide and
    rows * cell_h + (rows - 1) * padding high: padding lies between the
    cells only. The rows are [math.ceil(n / columns)], which is the exact
    ceiling of n / columns for a column count from 1 to 2^1074. *)
Theorem canvas_dimensions (args : argparse.Namespace) (sizes : list (Z * Z)) :
  sizes <> [] ->
  Z.of_nat (List.length sizes) < 2 ^ 50 ->
  exists L,
    main_layout args sizes = Ok L /\
    pad L = argparse.padding args /\
    grid_w L = cols L * cell_w L + (cols L - 1) * pad L /\
    grid_h L = rows L * cell_h L + (rows L - 1) * pad L /\
    main_rows (Z.of_nat (List.length sizes)) (cols L) = Ok (rows L) /\
    (1 <= cols L <= 2 ^ 1074 ->
     rows L = Spec.rows (Z.of_nat (List.length sizes)) (cols L)).
Proof.
  intros Hne Hlen.
  destruct (main_layout_returns args sizes Hne Hlen)
    as (mw & mh & c & r & _ & _ & _ & _ & Hr & HL).
  cbv zeta in HL. eexists. split; [exact HL|].
  cbn [pad grid_w grid_h cols rows cell_w cell_h].
  repeat (split; [reflexivity|]). split; [exact Hr|].
  intros Hrange. unfold Spec.rows.
  assert (Hn52 : 1 <= Z.of_nat (List.length sizes) < 2 ^ 52).
  { split; [destruct sizes; [contradiction | cbn [List.length]; lia]|].
    apply Z.lt_trans with (2 ^ 50); [lia | reflexivity]. }
  pose proof (main_rows_exact _ c Hn52 Hrange) as He.
  rewrite Hr in He. injection He as ->. reflexivity.
Qed.

Lemma canvas_dimensions_witness :
  exists L,
    main_layout Sample.args0 Sample.sizes4 = Ok L /\
    pad L = 10 /\
    grid_w L = cols L * cell_w L + (cols L - 1) * pad L /\
    grid_h L = rows L * cell_h L + (rows L - 1) * pad L /\
    main_rows 4 (cols L) = Ok (rows L) /\
    (1 <= cols L <= 2 ^ 1074 -> rows L = Spec.rows 4 (cols L)).
Proof.
  apply (canvas_dimensions Sample.args0 Sample.sizes4).
  - discriminate.
  - reflexivity.
Defined.

(** C1 as the specification words it fails for a column count beyond
    2^1074: with [--cols 2^1080 --padding -640] and one 640 x 480 image
    the binary64 quotient 1 / 2^1080 is 0.0, no row is planned, and the
    run returns with a canvas 640 high where the ceiling of n / columns,
    1, gives 480. *)
Lemma canvas_height_off_on_underflow :
  (exists L,
      main_layout Cases.huge_cols [(640, 480)] = Ok L /\
      rows L = 0 /\ Spec.rows 1 (cols L) = 1 /\
      grid_w L = 640 /\ grid_h L = 640 /\
      Spec.rows 1 (cols L) * cell_h L + (Spec.rows 1 (cols L) - 1) * pad L = 480) /\
  fst (main Cases.huge_cols Cases.single) = Returned /\
  nth_error (snd (main Cases.huge_cols Cases.single)) 0 =
    Some (NewGrid (640, 640)) /\
  ~ (forall args sizes,
        sizes <> [] ->
        exists L,
          main_layout args sizes = Ok L /\
          grid_w L = cols L * cell_w L + (cols L - 1) * pad L /\
          grid_h L =
            Spec.rows (Z.of_nat (List.length sizes)) (cols L) * cell_h L +
            (Spec.rows (Z.of_nat (List.length sizes)) (cols L) - 1) * pad L).
Proof.
  assert (E : main_layout Cases.huge_cols [(640, 480)] =
              Ok {| cell_w := 640; cell_h := 480; cols := 2 ^ 1080; rows := 0;
                    pad := -640; grid_w := 640; grid_h := 640 |})
    by (vm_compute; reflexivity).
  split; [|split; [|split]].
  - eexists. split; [exact E|]. cbn [rows cols grid_w grid_h cell_h pad].
    repeat split; vm_compute; reflexivity.
  - vm_compute. reflexivity.
  - vm_compute. reflexivity.
  - intros H. destruct (H Cases.huge_cols [(640, 480)]) as (L & HL & _ & Hh);
      [discriminate|].
    rewrite E in HL. injection HL as <-. vm_compute in Hh. discriminate.
Qed.

(** C3, as the code has it. The column count is the caller's [cols]
    whenever it is not 0, negative values included, and the exact
    ceiling of the square root of n when it is 0 (for fewer than 2^50
    images); with [cols >= 0] the result is at least 1. *)
Theorem columns_choice (c n : Z) :
  1 <= n < 2 ^ 50 ->
  exists k,
    main_cols c n = Ok k /\
    (c <> 0 -> k = c) /\
    (c = 0 -> k = Z.sqrt_up n /\ (k - 1) * (k - 1) < n <= k * k) /\
    (0 <= c -> 1 <= k /\ k = Spec.columns c n).
Proof.
  intros Hn. rewrite (main_cols_total c n Hn).
  pose proof (sqrt_up_range n ltac:(lia)) as (Hr & Hs).
  eexists. split; [reflexivity|]. unfold Spec.columns.
  destruct (Z.eqb_spec c 0) as [->|Hc].
  - split; [intros H; contradiction|]. split; [intros _; split; [reflexivity | exact Hs]|].
    intros _. simpl. lia.
  - split; [reflexivity|]. split; [intros H; contradiction|].
    intros H0. destruct (Z.ltb_spec 0 c); lia.
Qed.

Lemma columns_choice_witness :
  exists k,
    main_cols 0 5 = Ok k /\
    (0 <> 0 -> k = 0) /\
    (0 = 0 -> k = Z.sqrt_up 5 /\ (k - 1) * (k - 1) < 5 <= k * k) /\
    (0 <= 0 -> 1 <= k /\ k = Spec.columns 0 5).
Proof. apply (columns_choice 0 5). split; [lia | reflexivity]. Defined.

(** C3 as the specification words it fails: [--cols -1] is not treated as
    auto, it is used as it is, so the column count is neither the
    specification's nor at least 1. *)
Lemma columns_negative_not_auto :
  main_cols (-1) 1 = Ok (-1) /\ Spec.columns (-1) 1 = 1 /\
  ~ (forall cols n, 1 <= n ->
       exists k, main_cols cols n = Ok k /\ k = Spec.columns cols n /\ 1 <= k).
Proof.
  split; [reflexivity|]. split; [reflexivity|].
  intros H. destruct (H (-1) 1 ltac:(lia)) as (k & Hk & _ & Hk1).
  vm_compute in Hk. injection Hk as <-. lia.
Qed.

(** C4, as the code has it. For 1 <= n < 2^52 images and a column count
    from 1 to 2^1074, the row count is the exact ceiling of n / columns,
    the least number of rows that holds all the images. *)
Theorem rows_cover (n c : Z) :
  1 <= n < 2 ^ 52 -> 1 <= c <= 2 ^ 1074 ->
  exists rows,
    main_rows n c = Ok rows /\ rows = Spec.rows n c /\
    c * rows >= n /\ c * (rows - 1) < n.
Proof.
  intros Hn Hc. exists ((n + c - 1) / c).
  split; [apply main_rows_exact; assumption|]. split; [reflexivity|].
  pose proof (Z.div_mod (n + c - 1) c ltac:(lia)).
  pose proof (Z.mod_pos_bound (n + c - 1) c ltac:(lia)). lia.
Qed.

Lemma rows_cover_witness :
  exists rows,
    main_rows 7 3 = Ok rows /\ rows = Spec.rows 7 3 /\
    3 * rows >= 7 /\ 3 * (rows - 1) < 7.
Proof.
  apply (rows_cover 7 3).
  - split; [lia | reflexivity].
  - split; [lia | discriminate].
Defined.

(** C4 as the specification words it fails for a huge column count: the
    binary64 quotient 1 / 2^1080 is 0.0, so no row is planned. *)
Lemma rows_cover_fails_on_underflow :
  main_rows 1 (2 ^ 1080) = Ok 0 /\
  ~ (forall n columns, 1 <= n -> 1 <= columns ->
       exists rows, main_rows n columns = Ok rows /\
                    columns * rows >= n /\ columns * (rows - 1) < n).
Proof.
  assert (E : main_rows 1 (2 ^ 1080) = Ok 0) by (vm_compute; reflexivity).
  split; [exact E|].
  intros H. destruct (H 1 (2 ^ 1080)) as (rows & Hrows & Hge & _);
    [lia | vm_compute; discriminate |].
  rewrite E in Hrows. injection Hrows as <-. lia.
Qed.

(** Beyond the ranges above the binary64 results are off: the quotient
    (2^53 + 1) / 1 rounds to 2^53, and the square root of
    (2^26 + 1)^2 + 1 rounds to 2^26 + 1. *)
Example rows_inexact_beyond_2_53 :
  main_rows (2 ^ 53 + 1) 1 = Ok (2 ^ 53).
Proof. vm_compute. reflexivity. Qed.

Example cols_inexact_beyond_2_52 :
  main_cols 0 ((2 ^ 26 + 1) * (2 ^ 26 + 1) + 1) = Ok (2 ^ 26 + 1) /\
  Z.sqrt_up ((2 ^ 26 + 1) * (2 ^ 26 + 1) + 1) = 2 ^ 26 + 2.
Proof. split; vm_compute; reflexivity. Qed.

(** * Fitting an image into a cell *)

(** The truncated product [int(src * scale)]: it stays below any bound
    that representable numbers witness from above, and it reaches every
    integer that a representable scale below the exact one reaches. *)
Lemma product_window (src : Z) (s : R) (sc : Py.float) :
  1 <= src < 2 ^ 53 -> Fp.faithful s sc ->
  (exists G F, Fp.representable G /\ Fp.representable F /\ (s <= G)%R /\
               (IZR src * G <= F)%R) ->
  exists p k, Py.int_mul_float src sc = Ok p /\ Py.int_of_float p = Ok k /\
              (IZR k <= Fp.F2R p < IZR k + 1)%R /\ 0 <= k /\
              (forall A g, A < 2 ^ 53 -> Fp.representable g ->
                           (IZR A <= IZR src * g)%R -> (g <= s)%R -> A <= k) /\
              (forall B G F, Fp.representable G -> Fp.representable F ->
                             (s <= G)%R -> (IZR src * G <= F)%R ->
                             (F < IZR B + 1)%R -> k <= B).
Proof.
  intros Hsrc (Hsc & Hl & Hu) (G0 & F0 & HG0 & HF0 & HsG0 & HGF0).
  destruct (Binary64.float_of_int_exact src ltac:(lia)) as (fs & Hfs & Hpfs & Hvfs).
  unfold Py.int_mul_float. rewrite Hfs. cbn [bind].
  assert (Hsrc1 : (1 <= IZR src)%R) by (apply IZR_le; lia).
  pose proof (Binary64.pos_float_representable sc Hsc) as Hscr.
  pose proof (Binary64.representable_pos _ Hscr) as Hscpos.
  assert (Hprod : forall G F, Fp.representable G -> (s <= G)%R ->
                              (IZR src * G <= F)%R ->
                              (Fp.F2R sc <= Fp.F2R fs * Fp.F2R sc <= F)%R).
  { intros G F HG HsG HGF.
    assert (Fp.F2R sc <= G)%R by (apply Hu; assumption).
    rewrite Hvfs. split; nra. }
  destruct (Binary64.mul_faithful fs sc _ F0 Hpfs Hsc Hscr HF0
              (Hprod G0 F0 HG0 HsG0 HGF0)) as (Hp & Hpl & Hpu).
  set (p := SFmul Py.prec Py.emax fs sc) in *.
  destruct (Binary64.int_of_float_pos p Hp) as (k & Hk & Hk1 & Hk2).
  exists p, k. split; [reflexivity|]. split; [exact Hk|].
  split; [split; assumption|].
  pose proof (Binary64.representable_pos _ (Binary64.pos_float_representable p Hp))
    as Hppos.
  split; [|split].
  - assert (-1 < IZR k)%R by lra. apply lt_IZR in H. lia.
  - intros A g HA Hg HAg Hgs.
    destruct (Z_lt_le_dec A 1) as [C|C].
    { assert (-1 < IZR k)%R by lra. apply lt_IZR in H. lia. }
    assert (Hgsc : (g <= Fp.F2R sc)%R) by (apply Hl; assumption).
    assert (HAp : (IZR A <= Fp.F2R p)%R).
    { apply Hpl; [apply Binary64.int_representable; lia|]. rewrite Hvfs. nra. }
    assert (IZR A - 1 < IZR k)%R by lra.
    rewrite <- minus_IZR in H. apply lt_IZR in H. lia.
  - intros B G F HG HF HsG HGF HFB.
    assert (Fp.F2R p <= F)%R.
    { apply Hpu; [assumption|]. apply (Hprod G F HG HsG HGF). }
    assert (IZR k < IZR B + 1)%R by lra.
    rewrite <- plus_IZR in H0. apply lt_IZR in H0. lia.
Qed.

(** One dimension of the fit. With the exact scale [N / D] and
    [src * N / D <= cell], the truncated binary64 product never exceeds
    the cell and is at least [src] when the scale is at least 1. When
    [src * N] is below 2^50 it is the floor of [src * N / D] or, when
    binary64 falls short of an integral product, one less. *)
Lemma scaled_product (src N D cell : Z) (sc : Py.float) :
  1 <= src < 2 ^ 31 -> 1 <= N < 2 ^ 31 -> 1 <= D < 2 ^ 31 ->
  1 <= cell < 2 ^ 31 -> src * N <= cell * D ->
  Fp.faithful (IZR N / IZR D) sc ->
  exists p k, Py.int_mul_float src sc = Ok p /\ Py.int_of_float p = Ok k /\
              (IZR k <= Fp.F2R p < IZR k + 1)%R /\
              0 <= k <= cell /\
              (D <= N -> src <= k) /\
              (src * N < 2 ^ 50 ->
               (src * N + D - 1) / D - 1 <= k <= src * N / D).
Proof.
  intros Hsrc HN HD Hcell Hfit Hsc.
  set (P := src * N) in *.
  assert (H31 : 2 ^ 31 < 2 ^ 53) by reflexivity.
  assert (HsrcR : (1 <= IZR src)%R) by (apply IZR_le; lia).
  assert (HNR : (1 <= IZR N)%R) by (apply IZR_le; lia).
  assert (HDR : (1 <= IZR D)%R) by (apply IZR_le; lia).
  assert (HcellR : (1 <= IZR cell < IZR (2 ^ 31))%R)
    by (split; [apply IZR_le | apply IZR_lt]; lia).
  assert (HsrcU : (IZR src < IZR (2 ^ 31))%R) by (apply IZR_lt; lia).
  assert (HDU : (IZR D < IZR (2 ^ 31))%R) by (apply IZR_lt; lia).
  assert (HPR : (IZR src * IZR N = IZR P)%R) by (subst P; rewrite mult_IZR; reflexivity).
  assert (H31R : IZR (2 ^ 53) = (IZR (2 ^ 22) * IZR (2 ^ 31))%R)
    by (rewrite <- mult_IZR; reflexivity).
  assert (H22R : (IZR (2 ^ 22) = 4194304)%R) by reflexivity.
  set (s := (IZR N / IZR D)%R) in *.
  assert (HsD : (s * IZR D = IZR N)%R).
  { subst s. unfold Rdiv. rewrite Rmult_assoc, Rinv_l by lra. lra. }
  set (X := (IZR src * s)%R).
  assert (HXD : (X * IZR D = IZR P)%R) by (subst X; nra).
  assert (Hspos : (0 < s)%R) by nra.
  assert (HXpos : (0 < X)%R) by (subst X; nra).
  assert (HXcell : (X <= IZR cell)%R).
  { apply Rmult_le_reg_r with (IZR D); [lra|]. rewrite HXD.
    rewrite <- mult_IZR. apply IZR_le. exact Hfit. }
  assert (HiD : (0 < / IZR D <= 1)%R).
  { split; [apply Rinv_0_lt_compat; lra|].
    rewrite <- Rinv_1. apply Rinv_le_contravar; lra. }
  assert (HiD1 : (IZR D * / IZR D = 1)%R) by (apply Rinv_r; lra).
  assert (His : (0 < / IZR src)%R) by (apply Rinv_0_lt_compat; lra).
  assert (His1 : (IZR src * / IZR src = 1)%R) by (apply Rinv_r; lra).
  assert (Hpow : forall k, 0 <= k <= 64 -> 2 ^ k <= 2 ^ 1074)
    by (intros; apply Z.pow_le_mono_r; lia).
  (* a representable scale above s whose product stays below F, for a
     representable F that is at least 1 / (4 D') above X *)
  assert (Habove : forall F D', 
             1 <= D' < 2 ^ 31 -> Fp.representable F ->
             (X + / 4 * / IZR D' <= F)%R -> (F * IZR D' <= IZR (2 ^ 50))%R ->
             exists G, Fp.representable G /\ (s <= G)%R /\ (IZR src * G <= F)%R).
  { intros F D' HD' HF HXF HFD.
    assert (HD'R : (1 <= IZR D' < IZR (2 ^ 31))%R)
      by (split; [apply IZR_le | apply IZR_lt]; lia).
    assert (HiD' : (0 < / IZR D')%R) by (apply Rinv_0_lt_compat; lra).
    assert (HiD'1 : (IZR D' * / IZR D' = 1)%R) by (apply Rinv_r; lra).
    assert (Hc' : 1 <= 4 * (D' * src) <= 2 ^ 1074).
    { split; [nia|]. apply Z.le_trans with (2 ^ 64); [|apply Hpow; lia].
      change (2 ^ 64) with (4 * (2 ^ 31 * 2 ^ 31)). nia. }
    destruct (Binary64.representable_in_gap s (F * / IZR src) (4 * (D' * src)) Hc')
      as (G & HG & HGl & HGu).
    - lra.
    - rewrite !mult_IZR, !Rinv_mult.
      apply Rmult_le_reg_r with (IZR src); [lra|].
      rewrite Rmult_plus_distr_r.
      replace (F * / IZR src * IZR src)%R with (F * (IZR src * / IZR src))%R by ring.
      replace (/ 4 * (/ IZR D' * / IZR src) * IZR src)%R
        with (/ 4 * / IZR D' * (IZR src * / IZR src))%R by ring.
      rewrite His1. subst X. lra.
    - rewrite !mult_IZR.
      replace (F * / IZR src * (2 * (4 * (IZR D' * IZR src))))%R
        with (8 * (F * IZR D') * (IZR src * / IZR src))%R by ring.
      rewrite His1.
      replace (IZR (2 ^ 53)) with (8 * IZR (2 ^ 50))%R
        by (rewrite <- mult_IZR; reflexivity).
      lra.
    - exists G. split; [exact HG|]. split; [lra|].
      apply Rmult_le_reg_r with (/ IZR src)%R; [lra|].
      replace (IZR src * G * / IZR src)%R with (G * (IZR src * / IZR src))%R by ring.
      rewrite His1. lra. }
  (* the cell plus one half bounds every product *)
  assert (Hhalf : Fp.representable (IZR cell + / 2)).
  { exists (2 * cell + 1), (-1). split; [|split].
    - rewrite plus_IZR, mult_IZR. unfold Fp.bpow. simpl powerRZ. lra.
    - change (2 ^ Py.prec) with (2 ^ 53). lia.
    - change (emin Py.prec Py.emax) with (-1074).
      change (Py.emax - Py.prec) with 971. lia. }
  destruct (Habove (IZR cell + / 2)%R 1 ltac:(lia) Hhalf) as (G0 & HG0 & HsG0 & HGF0).
  { rewrite Rinv_1. lra. }
  { replace (IZR (2 ^ 50)) with (IZR (2 ^ 19) * IZR (2 ^ 31))%R
      by (rewrite <- mult_IZR; reflexivity).
    assert (IZR (2 ^ 19) = 524288)%R by reflexivity. nra. }
  destruct (product_window src s sc ltac:(lia) Hsc)
    as (p & k & Hp & Hk & Hkp & Hk0 & Hreach & Hstay).
  { exists G0, (IZR cell + / 2)%R. auto. }
  exists p, k. split; [exact Hp|]. split; [exact Hk|]. split; [exact Hkp|].
  split; [split; [exact Hk0|]|split].
  - apply (Hstay cell G0 (IZR cell + / 2)%R); try assumption. lra.
  - intros HDN. apply (Hreach src 1%R).
    + lia.
    + apply (Binary64.int_representable 1). split; [lia | reflexivity].
    + lra.
    + apply Rmult_le_reg_r with (IZR D); [lra|]. rewrite HsD.
      apply IZR_le in HDN. lra.
  - intros HP.
    set (kf := P / D). set (kc := (P + D - 1) / D).
    assert (Hkf : D * kf <= P < D * (kf + 1)).
    { pose proof (Z.div_mod P D ltac:(lia)).
      pose proof (Z.mod_pos_bound P D ltac:(lia)). subst kf. lia. }
    assert (Hkc : D * (kc - 1) < P <= D * kc).
    { pose proof (Z.div_mod (P + D - 1) D ltac:(lia)).
      pose proof (Z.mod_pos_bound (P + D - 1) D ltac:(lia)). subst kc. lia. }
    assert (HP1 : 1 <= P) by (subst P; nia).
    assert (Hkfle : kf <= P) by nia.
    assert (Hkcle : kc <= P) by nia.
    assert (H50 : 2 ^ 53 = 8 * 2 ^ 50) by reflexivity.
    assert (HP50 : (IZR P <= IZR (2 ^ 50) - 1)%R).
    { rewrite <- minus_IZR. apply IZR_le. lia. }
    assert (H53R : IZR (2 ^ 53) = (8 * IZR (2 ^ 50))%R)
      by (rewrite <- mult_IZR; reflexivity).
    split.
    + (* a representable scale that still reaches kc - 1 *)
      destruct (Z_lt_le_dec (kc - 1) 1) as [C|C]; [lia|].
      assert (HA1 : (1 <= IZR (kc - 1))%R) by (apply IZR_le; lia).
      assert (Hc : 1 <= D * src <= 2 ^ 1074).
      { split; [nia|]. apply Z.le_trans with (2 ^ 62); [|apply Hpow; lia].
        change (2 ^ 62) with (2 ^ 31 * 2 ^ 31). nia. }
      destruct (Binary64.representable_in_gap
                  (IZR (kc - 1) * / IZR src) s (D * src) Hc)
        as (g & Hg & Hgl & Hgu).
      * apply Rmult_le_pos; lra.
      * rewrite mult_IZR, Rinv_mult.
        apply Rmult_le_reg_r with (IZR D * IZR src)%R; [nra|].
        rewrite Rmult_plus_distr_r.
        replace (IZR (kc - 1) * / IZR src * (IZR D * IZR src))%R
          with (IZR D * IZR (kc - 1) * (IZR src * / IZR src))%R by ring.
        replace (/ IZR D * / IZR src * (IZR D * IZR src))%R
          with ((IZR D * / IZR D) * (IZR src * / IZR src))%R by ring.
        rewrite His1, HiD1.
        replace (s * (IZR D * IZR src))%R with (IZR src * (s * IZR D))%R by ring.
        rewrite HsD, HPR.
        assert (IZR (D * (kc - 1) + 1) <= IZR P)%R by (apply IZR_le; lia).
        rewrite plus_IZR, mult_IZR in H. lra.
      * rewrite mult_IZR.
        replace (s * (2 * (IZR D * IZR src)))%R
          with (2 * (IZR src * (s * IZR D)))%R by ring.
        rewrite HsD, HPR, H53R. lra.
      * apply (Hreach (kc - 1) g); try assumption; [rewrite H50; lia|].
        apply Rmult_le_reg_r with (/ IZR src)%R; [lra|].
        replace (IZR src * g * / IZR src)%R with (g * (IZR src * / IZR src))%R by ring.
        rewrite His1. lra.
    + (* representable bounds from above that stay below kf + 1 *)
      assert (HX1 : (X + / IZR D <= IZR kf + 1)%R).
      { apply Rmult_le_reg_r with (IZR D); [lra|].
        rewrite Rmult_plus_distr_r, HXD, Rinv_l by lra.
        assert (IZR (P + 1) <= IZR (D * (kf + 1)))%R by (apply IZR_le; lia).
        rewrite plus_IZR, mult_IZR, plus_IZR in H. lra. }
      assert (Hc4 : 1 <= 4 * D <= 2 ^ 1074).
      { split; [lia|]. apply Z.le_trans with (2 ^ 33); [|apply Hpow; lia].
        change (2 ^ 33) with (4 * 2 ^ 31). lia. }
      assert (Hi4 : (/ IZR (4 * D) = / 4 * / IZR D)%R).
      { rewrite mult_IZR, Rinv_mult. reflexivity. }
      destruct (Binary64.representable_in_gap
                  (X + / 4 * / IZR D) (X + / 2 * / IZR D) (4 * D) Hc4)
        as (F & HF & HFl & HFu).
      * nra.
      * rewrite Hi4. lra.
      * rewrite mult_IZR.
        replace ((X + / 2 * / IZR D) * (2 * (4 * IZR D)))%R
          with (8 * (X * IZR D) + 4 * (IZR D * / IZR D))%R by (field; lra).
        rewrite HXD, HiD1, H53R. lra.
      * destruct (Habove F D ltac:(lia) HF ltac:(lra)) as (G & HG & HsG & HGF).
        { apply Rle_trans with ((X + / 2 * / IZR D) * IZR D)%R; [nra|].
          rewrite Rmult_plus_distr_r, HXD.
          replace (/ 2 * / IZR D * IZR D)%R with (/ 2 * (IZR D * / IZR D))%R by ring.
          rewrite HiD1. lra. }
        apply (Hstay kf G F); try assumption. nra.
Qed.

Lemma Rmin_fraction (w h sw sh : Z) :
  1 <= sw -> 1 <= sh ->
  Rmin (IZR w / IZR sw) (IZR h / IZR sh) =
  (IZR (fst (Spec.scale w h sw sh)) / IZR (snd (Spec.scale w h sw sh)))%R.
Proof.
  intros Hsw Hsh. unfold Spec.scale.
  assert (HswR : (1 <= IZR sw)%R) by (apply IZR_le; lia).
  assert (HshR : (1 <= IZR sh)%R) by (apply IZR_le; lia).
  assert (Hcross : (IZR w / IZR sw <= IZR h / IZR sh)%R <-> w * sh <= h * sw).
  { assert (Heq : (IZR w / IZR sw - IZR h / IZR sh =
                   (IZR (w * sh) - IZR (h * sw)) * (/ IZR sw * / IZR sh))%R).
    { rewrite !mult_IZR. field. lra. }
    assert (Hpos : (0 < / IZR sw * / IZR sh)%R).
    { apply Rmult_lt_0_compat; apply Rinv_0_lt_compat; lra. }
    split.
    - intros H. apply le_IZR. nra.
    - intros H. apply IZR_le in H. nra. }
  destruct (Z.leb_spec (w * sh) (h * sw)) as [C|C]; cbn [fst snd].
  - apply Rmin_left, Hcross, C.
  - apply Rmin_right. apply Rlt_le, Rnot_le_lt. intros H. apply Hcross in H. lia.
Qed.

(** What [load_and_fit] computes for a decodable image of size
    (sw, sh) and a cell of size (w, h), all Pillow sizes from 1 to
    below 2^31. The scale is the smaller of the two binary64 quotients;
    each new dimension is the truncated binary64 product, at least 1 and
    never beyond the cell, and at least the source dimension when the
    exact scale N / D is at least 1. Where src * N is below 2^50 the
    truncated product is the floor of src * N / D or, when binary64
    falls short of an integral product, one less. *)
Theorem load_and_fit_window (path : DirEntry) (sw sh w h : Z) :
  image path = Some (sw, sh) ->
  1 <= sw < 2 ^ 31 -> 1 <= sh < 2 ^ 31 -> 1 <= w < 2 ^ 31 -> 1 <= h < 2 ^ 31 ->
  exists a b pw ph kw kh,
    Py.int_truediv w sw = Ok a /\ Py.int_truediv h sh = Ok b /\
    Py.int_mul_float sw (Py.min a b) = Ok pw /\
    Py.int_mul_float sh (Py.min a b) = Ok ph /\
    (IZR kw <= Fp.F2R pw < IZR kw + 1)%R /\
    (IZR kh <= Fp.F2R ph < IZR kh + 1)%R /\
    load_and_fit path w h =
      Ok {| canvas_size := (w, h);
            new_size := (Z.max 1 kw, Z.max 1 kh);
            offset := ((w - Z.max 1 kw) / 2, (h - Z.max 1 kh) / 2) |} /\
    let N := fst (Spec.scale w h sw sh) in
    let D := snd (Spec.scale w h sw sh) in
    (0 <= kw <= w /\ (D <= N -> sw <= kw) /\
     (sw * N < 2 ^ 50 -> (sw * N + D - 1) / D - 1 <= kw <= sw * N / D)) /\
    (0 <= kh <= h /\ (D <= N -> sh <= kh) /\
     (sh * N < 2 ^ 50 -> (sh * N + D - 1) / D - 1 <= kh <= sh * N / D)).
Proof.
  intros Him Hsw Hsh Hw Hh.
  assert (H52 : 2 ^ 31 < 2 ^ 52) by reflexivity.
  assert (H1074 : 2 ^ 31 <= 2 ^ 1074) by (apply Z.pow_le_mono_r; lia).
  destruct (quotient_faithful w sw ltac:(lia) ltac:(lia)) as (a & Ha & Hfa).
  destruct (quotient_faithful h sh ltac:(lia) ltac:(lia)) as (b & Hb & Hfb).
  pose proof (Binary64.min_faithful _ _ a b Hfa Hfb) as Hsc.
  rewrite (Rmin_fraction w h sw sh) in Hsc by lia.
  set (N := fst (Spec.scale w h sw sh)) in *.
  set (D := snd (Spec.scale w h sw sh)) in *.
  assert (HND : 1 <= N < 2 ^ 31 /\ 1 <= D < 2 ^ 31 /\
                sw * N <= w * D /\ sh * N <= h * D).
  { subst N D. unfold Spec.scale.
    destruct (Z.leb_spec (w * sh) (h * sw)); cbn [fst snd]; lia. }
  destruct HND as (HN & HD & HNw & HNh).
  destruct (scaled_product sw N D w (Py.min a b) Hsw HN HD Hw HNw Hsc)
    as (pw & kw & Hpw & Hkw & Hfw & Hbw & Hupw & Hwinw).
  destruct (scaled_product sh N D h (Py.min a b) Hsh HN HD Hh HNh Hsc)
    as (ph & kh & Hph & Hkh & Hfh & Hbh & Huph & Hwinh).
  exists a, b, pw, ph, kw, kh.
  do 6 (split; [assumption|]). split; [|split; repeat split; assumption || lia].
  unfold load_and_fit. rewrite Him, Ha, Hb. cbn [bind].
  rewrite Hpw. cbn [bind]. rewrite Hkw. cbn [bind].
  rewrite Hph. cbn [bind]. rewrite Hkh. cbn [bind].
  rewrite !Py_max_Zmax.
  unfold Image_resize, Image_new, INT_MAX. cbn [fst snd].
  destruct (Z.ltb_spec (2 ^ 31 - 1) (Z.max 1 kw)); [lia|].
  destruct (Z.ltb_spec (2 ^ 31 - 1) (Z.max 1 kh)); [lia|].
  destruct (Z.ltb_spec (Z.max 1 kw) 1); [lia|].
  destruct (Z.ltb_spec (Z.max 1 kh) 1); [lia|].
  destruct (Z.ltb_spec w 0); [lia|]. destruct (Z.ltb_spec h 0); [lia|].
  destruct (Z.ltb_spec (2 ^ 31 - 1) w); [lia|].
  destruct (Z.ltb_spec (2 ^ 31 - 1) h); [lia|].
  cbn [orb bind]. reflexivity.
Qed.

(** The floor and the ceiling of [P / D] differ exactly when [D] does not
    divide [P]. *)
Lemma ceil_floor_cases (P D : Z) :
  1 <= D -> 0 <= P ->
  ((P + D - 1) / D = P / D /\ P mod D = 0) \/
  ((P + D - 1) / D = P / D + 1 /\ P mod D <> 0).
Proof.
  intros HD HP.
  pose proof (Z.div_mod P D ltac:(lia)) as H1.
  pose proof (Z.mod_pos_bound P D ltac:(lia)) as H2.
  destruct (Z.eq_dec (P mod D) 0) as [E|E].
  - left. split; [|exact E].
    symmetry. apply Z.div_unique with (D - 1); lia.
  - right. split; [|exact E].
    symmetry. apply Z.div_unique with (P mod D - 1); lia.
Qed.

(** C2, as the code has it. For an image of size (sw, sh) and a cell of
    size (w, h), all from 1 to below 2^31, the new width is
    max(1, floor(sw * scale)) and the new height max(1, floor(sh * scale)):
    the binary64 products are truncated, not rounded to nearest, and
    scale is the smaller of the binary64 quotients w / sw and h / sh.
    Against the exact scale N / D, and where src * N is below 2^50, this
    is the floor of src * N / D, or one less, which can only happen when
    that product is an integer. *)
Theorem new_size_truncates (path : DirEntry) (sw sh w h : Z) :
  image path = Some (sw, sh) ->
  1 <= sw < 2 ^ 31 -> 1 <= sh < 2 ^ 31 -> 1 <= w < 2 ^ 31 -> 1 <= h < 2 ^ 31 ->
  exists a b pw ph kw kh c,
    Py.int_truediv w sw = Ok a /\ Py.int_truediv h sh = Ok b /\
    Py.int_mul_float sw (Py.min a b) = Ok pw /\
    Py.int_mul_float sh (Py.min a b) = Ok ph /\
    (IZR kw <= Fp.F2R pw < IZR kw + 1)%R /\
    (IZR kh <= Fp.F2R ph < IZR kh + 1)%R /\
    load_and_fit path w h = Ok c /\
    new_size c = (Z.max 1 kw, Z.max 1 kh) /\
    let N := fst (Spec.scale w h sw sh) in
    let D := snd (Spec.scale w h sw sh) in
    (sw * N < 2 ^ 50 ->
     kw = sw * N / D \/ (kw = sw * N / D - 1 /\ (sw * N) mod D = 0)) /\
    (sh * N < 2 ^ 50 ->
     kh = sh * N / D \/ (kh = sh * N / D - 1 /\ (sh * N) mod D = 0)).
Proof.
  intros Him Hsw Hsh Hw Hh.
  destruct (load_and_fit_window path sw sh w h Him Hsw Hsh Hw Hh)
    as (a & b & pw & ph & kw & kh & Ha & Hb & Hpw & Hph & Hfw & Hfh & Hc & Hwin).
  cbv zeta in Hwin. destruct Hwin as ((_ & _ & Hkw) & (_ & _ & Hkh)).
  exists a, b, pw, ph, kw, kh. eexists.
  do 6 (split; [eassumption|]). split; [exact Hc|]. split; [reflexivity|].
  cbv zeta.
  set (N := fst (Spec.scale w h sw sh)) in *.
  set (D := snd (Spec.scale w h sw sh)) in *.
  assert (HND : 1 <= N /\ 1 <= D).
  { subst N D. unfold Spec.scale. destruct (w * sh <=? h * sw); cbn [fst snd]; lia. }
  split.
  - intros HP. specialize (Hkw HP).
    destruct (ceil_floor_cases (sw * N) D ltac:(lia) ltac:(nia))
      as [[E Em]|[E Em]]; rewrite E in Hkw; lia.
  - intros HP. specialize (Hkh HP).
    destruct (ceil_floor_cases (sh * N) D ltac:(lia) ltac:(nia))
      as [[E Em]|[E Em]]; rewrite E in Hkh; lia.
Qed.

Lemma new_size_truncates_witness :
  exists a b pw ph kw kh c,
    Py.int_truediv 2 8 = Ok a /\ Py.int_truediv 2 7 = Ok b /\
    Py.int_mul_float 8 (Py.min a b) = Ok pw /\
    Py.int_mul_float 7 (Py.min a b) = Ok ph /\
    (IZR kw <= Fp.F2R pw < IZR kw + 1)%R /\
    (IZR kh <= Fp.F2R ph < IZR kh + 1)%R /\
    load_and_fit Sample.wide 2 2 = Ok c /\
    new_size c = (Z.max 1 kw, Z.max 1 kh) /\
    let N := fst (Spec.scale 2 2 8 7) in
    let D := snd (Spec.scale 2 2 8 7) in
    (8 * N < 2 ^ 50 ->
     kw = 8 * N / D \/ (kw = 8 * N / D - 1 /\ (8 * N) mod D = 0)) /\
    (7 * N < 2 ^ 50 ->
     kh = 7 * N / D \/ (kh = 7 * N / D - 1 /\ (7 * N) mod D = 0)).
Proof.
  apply (new_size_truncates Sample.wide 8 7 2 2); try reflexivity;
    split; try lia; reflexivity.
Defined.

(** C2 as the specification words it fails: an 8 x 7 image in a 2 x 2
    cell has scale 0.25 and height 7 * 0.25 = 1.75, which the code
    truncates to 1 where rounding to nearest gives 2 (1.75 is not a tie,
    so the rule for halves does not matter). *)
Lemma new_size_not_rounded :
  load_and_fit Sample.wide 2 2 =
    Ok {| canvas_size := (2, 2); new_size := (2, 1); offset := (0, 0) |} /\
  Spec.new_size 2 2 8 7 = (2, 2) /\
  ~ (forall path sw sh w h c,
       image path = Some (sw, sh) ->
       1 <= sw -> 1 <= sh -> 1 <= w -> 1 <= h ->
       load_and_fit path w h = Ok c ->
       new_size c = Spec.new_size w h sw sh).
Proof.
  assert (E : load_and_fit Sample.wide 2 2 =
              Ok {| canvas_size := (2, 2); new_size := (2, 1); offset := (0, 0) |})
    by (vm_compute; reflexivity).
  split; [exact E|]. split; [reflexivity|].
  intros H.
  specialize (H Sample.wide 8 7 2 2 _ eq_refl ltac:(lia) ltac:(lia) ltac:(lia)
                ltac:(lia) E).
  vm_compute in H. discriminate.
Qed.



(** Every successful [load_and_fit] went through all of its steps. *)
Lemma load_and_fit_inv (path : DirEntry) (cell_w cell_h : Z) (c : Cell) :
  load_and_fit path cell_w cell_h = Ok c ->
  exists width height a b pw iw ph ih,
    image path = Some (width, height) /\
    Py.int_truediv cell_w width = Ok a /\
    Py.int_truediv cell_h height = Ok b /\
    Py.int_mul_float width (Py.min a b) = Ok pw /\
    Py.int_of_float pw = Ok iw /\
    Py.int_mul_float height (Py.min a b) = Ok ph /\
    Py.int_of_float ph = Ok ih /\
    Image_resize (Z.max 1 iw, Z.max 1 ih) = Ok tt /\
    Image_new (cell_w, cell_h) = Ok tt /\
    c = {| canvas_size := (cell_w, cell_h);
           new_size := (Z.max 1 iw, Z.max 1 ih);
           offset := ((cell_w - Z.max 1 iw) / 2, (cell_h - Z.max 1 ih) / 2) |}.
Proof.
  unfold load_and_fit. intros H.
  destruct (image path) as [[width height]|]; [|discriminate].
  destruct (Py.int_truediv cell_w width) as [a|] eqn:Ha; [|discriminate].
  destruct (Py.int_truediv cell_h height) as [b|] eqn:Hb; [|discriminate].
  cbn [bind] in H.
  destruct (Py.int_mul_float width (Py.min a b)) as [pw|] eqn:Hpw; [|discriminate].
  cbn [bind] in H.
  destruct (Py.int_of_float pw) as [iw|] eqn:Hiw; [|discriminate].
  cbn [bind] in H.
  destruct (Py.int_mul_float height (Py.min a b)) as [ph|] eqn:Hph; [|discriminate].
  cbn [bind] in H.
  destruct (Py.int_of_float ph) as [ih|] eqn:Hih; [|discriminate].
  cbn [bind] in H. rewrite !Py_max_Zmax in H.
  destruct (Image_resize (Z.max 1 iw, Z.max 1 ih)) as [[]|] eqn:Hrs; [|discriminate].
  cbn [bind] in H.
  destruct (Image_new (cell_w, cell_h)) as [[]|] eqn:Hnew; [|discriminate].
  cbn [bind] in H. injection H as <-.
  exists width, height, a, b, pw, iw, ph, ih. repeat split; try reflexivity; assumption.
Qed.

(** C6. Whenever [load_and_fit] yields a cell of size (w, h) with an
    image resized to (new_w, new_h), the image is pasted at
    ((w - new_w) // 2, (h - new_h) // 2): floor division, so the left and
    top margins are the smaller ones when a pixel is left over. *)
Theorem offset_is_floor_centred (path : DirEntry) (w h : Z) (c : Cell) :
  load_and_fit path w h = Ok c ->
  canvas_size c = (w, h) /\
  offset c = ((w - fst (new_size c)) / 2, (h - snd (new_size c)) / 2) /\
  (let left := fst (offset c) in
   let right := w - fst (new_size c) - left in
   left <= right <= left + 1) /\
  (let top := snd (offset c) in
   let bottom := h - snd (new_size c) - top in
   top <= bottom <= top + 1).
Proof.
  intros H.
  destruct (load_and_fit_inv _ _ _ _ H)
    as (width & height & a & b & pw & iw & ph & ih & _ & _ & _ & _ & _ & _ & _ & _ & _ & ->).
  cbn [canvas_size offset new_size fst snd]. cbv zeta.
  split; [reflexivity|]. split; [reflexivity|].
  pose proof (Z.div_mod (w - Z.max 1 iw) 2 ltac:(lia)).
  pose proof (Z.mod_pos_bound (w - Z.max 1 iw) 2 ltac:(lia)).
  pose proof (Z.div_mod (h - Z.max 1 ih) 2 ltac:(lia)).
  pose proof (Z.mod_pos_bound (h - Z.max 1 ih) 2 ltac:(lia)).
  lia.
Qed.

Lemma offset_is_floor_centred_witness :
  canvas_size {| canvas_size := (9, 8); new_size := (9, 7); offset := (0, 0) |} = (9, 8) /\
  offset {| canvas_size := (9, 8); new_size := (9, 7); offset := (0, 0) |} =
    ((9 - 9) / 2, (8 - 7) / 2) /\
  (0 <= 9 - 9 - 0 <= 0 + 1) /\ (0 <= 8 - 7 - 0 <= 0 + 1).
Proof.
  apply (offset_is_floor_centred Sample.wide 9 8
           {| canvas_size := (9, 8); new_size := (9, 7); offset := (0, 0) |}).
  vm_compute. reflexivity.
Defined.



(** * The grid *)

(** What the paste loop appends: one [Paste] per image, in order, each at
    the row-major position of its index; it stops early only on an
    exception. *)
Lemma paste_loop_spec (L : GridLayout) (images : list DirEntry) :
  forall (idx : Z) (trace tr : list event) (failure : option exn),
    paste_loop L idx images trace = (tr, failure) ->
    exists pasted,
      tr = (trace ++ pasted)%list /\
      (List.length pasted <= List.length images)%nat /\
      (failure = None -> List.length pasted = List.length images) /\
      forall i ev,
        nth_error pasted i = Some ev ->
        exists img_path cell,
          nth_error images i = Some img_path /\
          load_and_fit img_path (cell_w L) (cell_h L) = Ok cell /\
          ev = Paste (name img_path) cell
                 ((idx + Z.of_nat i) mod cols L * (cell_w L + pad L),
                  (idx + Z.of_nat i) / cols L * (cell_h L + pad L)).
Proof.
  induction images as [|p rest IH]; intros idx trace tr failure H; cbn [paste_loop] in H.
  - injection H as <- <-. exists []. rewrite app_nil_r.
    split; [reflexivity|]. split; [reflexivity|]. split; [reflexivity|].
    intros [|i] ev Hev; discriminate.
  - assert (Hstop : forall e, (trace, Some e) = (tr, failure) ->
               exists pasted,
                 tr = (trace ++ pasted)%list /\
                 (List.length pasted <= List.length (p :: rest))%nat /\
                 (failure = None -> List.length pasted = List.length (p :: rest)) /\
                 forall i ev,
                   nth_error pasted i = Some ev ->
                   exists img_path cell,
                     nth_error (p :: rest) i = Some img_path /\
                     load_and_fit img_path (cell_w L) (cell_h L) = Ok cell /\
                     ev = Paste (name img_path) cell
                            ((idx + Z.of_nat i) mod cols L * (cell_w L + pad L),
                             (idx + Z.of_nat i) / cols L * (cell_h L + pad L))).
    { intros e He. injection He as <- <-. exists []. rewrite app_nil_r.
      split; [reflexivity|]. split; [cbn; lia|]. split; [discriminate|].
      intros [|i] ev Hev; discriminate. }
    unfold Py.floordiv, Py.modulo in H.
    destruct (Z.eqb_spec (cols L) 0) as [Hz|Hnz]; [eapply Hstop; exact H|].
    destruct (load_and_fit p (cell_w L) (cell_h L)) as [cell|e] eqn:Hcell;
      [|eapply Hstop; exact H].
    destruct (IH _ _ _ _ H) as (pasted & Htr & Hlen & Hall & Hnth).
    exists (Paste (name p) cell
              (idx mod cols L * (cell_w L + pad L), idx / cols L * (cell_h L + pad L))
            :: pasted).
    split; [rewrite Htr, <- app_assoc; reflexivity|].
    split; [cbn; lia|]. split; [intros Hf; cbn; rewrite (Hall Hf); reflexivity|].
    intros [|i] ev Hev.
    + injection Hev as <-. exists p, cell. cbn [nth_error].
      rewrite Z.add_0_r. auto.
    + cbn [nth_error] in Hev. destruct (Hnth i ev Hev) as (q & c & Hq & Hc & ->).
      exists q, c. cbn [nth_error]. split; [exact Hq|]. split; [exact Hc|].
      replace (idx + 1 + Z.of_nat i) with (idx + Z.of_nat (S i)) by lia. reflexivity.
Qed.

(** C7. In a run that returns, the canvas is created, then one cell is
    pasted per image of the enumerated sequence, in order, then the
    canvas is saved. The image of 0-based index i is pasted at
    x = (i mod columns) * (cell_w + padding),
    y = (i div columns) * (cell_h + padding): row by row, the first image
    at the top-left (0, 0); the cell pasted is the one [load_and_fit]
    renders for that image. *)
Theorem cells_row_major (args : argparse.Namespace) (w : World)
        (trace : list event) :
  main args w = (Returned, trace) ->
  exists sizes L pasted,
    read_sizes (iter_images (iterdir w)) = Ok sizes /\
    main_layout args sizes = Ok L /\
    trace = (NewGrid (grid_w L, grid_h L) :: pasted ++
             [Save (argparse.output args);
              Stdout ("Wrote " ++ argparse.output args)%string])%list /\
    List.length pasted = List.length (iter_images (iterdir w)) /\
    (forall i img_path,
        nth_error (iter_images (iterdir w)) i = Some img_path ->
        exists cell,
          load_and_fit img_path (cell_w L) (cell_h L) = Ok cell /\
          nth_error pasted i =
            Some (Paste (name img_path) cell
                    (Z.of_nat i mod cols L * (cell_w L + pad L),
                     Z.of_nat i / cols L * (cell_h L + pad L)))) /\
    (forall img_path,
        nth_error (iter_images (iterdir w)) 0 = Some img_path ->
        exists cell, nth_error pasted 0 = Some (Paste (name img_path) cell (0, 0))).
Proof.
  unfold main. intros H.
  destruct (is_dir w); cbn [negb] in H; [|discriminate].
  set (images := iter_images (iterdir w)) in *.
  destruct images as [|p0 rest] eqn:Eimg; [discriminate|]. rewrite <- Eimg in *.
  destruct (read_sizes images) as [sizes|] eqn:Hsizes; [|discriminate].
  destruct (main_layout args sizes) as [L|] eqn:HL; [|discriminate].
  destruct (Image_new (grid_w L, grid_h L)) as [u|]; [|discriminate].
  destruct (paste_loop L 0 images [NewGrid (grid_w L, grid_h L)])
    as [tr failure] eqn:Hloop.
  destruct failure as [e|]; [discriminate|].
  destruct (writable w); [|discriminate]. injection H as <-.
  destruct (paste_loop_spec L images 0 _ _ _ Hloop) as (pasted & -> & _ & Hall & Hnth).
  specialize (Hall eq_refl).
  exists sizes, L, pasted. split; [first [reflexivity | exact Hsizes]|].
  split; [first [reflexivity | exact HL]|].
  split; [rewrite <- app_assoc; reflexivity|]. split; [exact Hall|].
  assert (Hpos : forall i img_path,
             nth_error images i = Some img_path ->
             exists cell,
               load_and_fit img_path (cell_w L) (cell_h L) = Ok cell /\
               nth_error pasted i =
                 Some (Paste (name img_path) cell
                         (Z.of_nat i mod cols L * (cell_w L + pad L),
                          Z.of_nat i / cols L * (cell_h L + pad L)))).
  { intros i q Hq.
    assert (Hi : (i < List.length pasted)%nat).
    { rewrite Hall. apply nth_error_Some. rewrite Hq. discriminate. }
    destruct (nth_error pasted i) as [ev|] eqn:Hev;
      [|apply nth_error_None in Hev; lia].
    destruct (Hnth i ev Hev) as (q' & cell & Hq' & Hcell & ->).
    rewrite Hq in Hq'. injection Hq' as <-.
    exists cell. split; [exact Hcell | reflexivity]. }
  split; [exact Hpos|].
  intros q Hq. destruct (Hpos 0%nat q Hq) as (cell & _ & Hc).
  exists cell. cbn [Z.of_nat] in Hc. rewrite Zmod_0_l, Zdiv_0_l in Hc. exact Hc.
Qed.

(** C9. When no image is found in an existing folder, the run ends with
    [SystemExit("No images found in the folder.")], a non-zero status,
    before any canvas is created: nothing is pasted, saved or printed. *)
Theorem no_images_no_output (args : argparse.Namespace) (w : World) :
  is_dir w = true ->
  iter_images (iterdir w) = [] ->
  main args w = (SystemExit "No images found in the folder.", []) /\
  exit_status (fst (main args w)) <> 0 /\
  forall ev, ~ In ev (snd (main args w)).
Proof.
  intros Hdir Hnone. unfold main. rewrite Hdir, Hnone. cbn [negb fst snd exit_status].
  split; [reflexivity|]. split; [discriminate|]. intros ev [].
Qed.

Lemma no_images_no_output_witness :
  main Sample.args0 Sample.empty_folder =
    (SystemExit "No images found in the folder.", []) /\
  exit_status (fst (main Sample.args0 Sample.empty_folder)) <> 0 /\
  forall ev, ~ In ev (snd (main Sample.args0 Sample.empty_folder)).
Proof.
  apply (no_images_no_output Sample.args0 Sample.empty_folder); reflexivity.
Defined.

Lemma cells_row_major_witness :
  exists sizes L pasted,
    read_sizes (iter_images (iterdir Sample.photos)) = Ok sizes /\
    main_layout Sample.args0 sizes = Ok L /\
    Sample.photos_trace =
      (NewGrid (grid_w L, grid_h L) :: pasted ++
       [Save (argparse.output Sample.args0);
        Stdout ("Wrote " ++ argparse.output Sample.args0)%string])%list /\
    List.length pasted = List.length (iter_images (iterdir Sample.photos)) /\
    (forall i img_path,
        nth_error (iter_images (iterdir Sample.photos)) i = Some img_path ->
        exists cell,
          load_and_fit img_path (cell_w L) (cell_h L) = Ok cell /\
          nth_error pasted i =
            Some (Paste (name img_path) cell
                    (Z.of_nat i mod cols L * (cell_w L + pad L),
                     Z.of_nat i / cols L * (cell_h L + pad L)))) /\
    (forall img_path,
        nth_error (iter_images (iterdir Sample.photos)) 0 = Some img_path ->
        exists cell, nth_error pasted 0 = Some (Paste (name img_path) cell (0, 0))).
Proof.
  apply (cells_row_major Sample.args0 Sample.photos Sample.photos_trace).
  vm_compute. reflexivity.
Defined.

(** * The file enumerator *)

(** ** The order on names *)

Lemma ascii_compare_N (a b : ascii) :
  Ascii.compare a b = N.compare (N_of_ascii a) (N_of_ascii b).
Proof. reflexivity. Qed.

Lemma string_compare_trans_le (s1 : string) :
  forall s2 s3,
    String.compare s1 s2 <> Gt -> String.compare s2 s3 <> Gt ->
    String.compare s1 s3 <> Gt.
Proof.
  induction s1 as [|c1 s1 IH]; intros [|c2 s2] [|c3 s3] H12 H23;
    cbn [String.compare] in *; try congruence.
  rewrite !ascii_compare_N in *.
  destruct (N.compare_spec (N_of_ascii c1) (N_of_ascii c2)) as [E12|L12|G12];
    destruct (N.compare_spec (N_of_ascii c2) (N_of_ascii c3)) as [E23|L23|G23];
    try congruence.
  - rewrite E12, E23, N.compare_refl. apply (IH s2 s3); assumption.
  - rewrite E12. apply N.compare_lt_iff in L23. rewrite L23. discriminate.
  - rewrite <- E23. apply N.compare_lt_iff in L12. rewrite L12. discriminate.
  - assert (L13 : (N_of_ascii c1 < N_of_ascii c3)%N) by lia.
    apply N.compare_lt_iff in L13. rewrite L13. discriminate.
Qed.

Lemma leb_not_Gt (s t : string) :
  String.leb s t = true <-> String.compare s t <> Gt.
Proof.
  unfold String.leb. destruct (String.compare s t); split; congruence.
Qed.

Lemma name_le_trans (a b c : DirEntry) :
  name_le a b -> name_le b c -> name_le a c.
Proof.
  unfold name_le. rewrite !leb_not_Gt. apply string_compare_trans_le.
Qed.

Lemma name_le_total (a b : DirEntry) : name_le a b \/ name_le b a.
Proof. apply String.leb_total. Qed.

(** ** Sorting *)

Lemma insert_perm (x : DirEntry) (l : list DirEntry) :
  Permutation (insert x l) (x :: l).
Proof.
  induction l as [|y t IH]; cbn [insert]; [reflexivity|].
  destruct (String.leb (name x) (name y)); [reflexivity|].
  rewrite IH. apply perm_swap.
Qed.

Lemma sorted_perm (l : list DirEntry) : Permutation (sorted l) l.
Proof.
  induction l as [|x t IH]; cbn [sorted]; [reflexivity|].
  rewrite insert_perm, IH. reflexivity.
Qed.

Lemma insert_sorted (x : DirEntry) (l : list DirEntry) :
  StronglySorted name_le l -> StronglySorted name_le (insert x l).
Proof.
  induction 1 as [|y t Ht IH Hy]; cbn [insert].
  - constructor; constructor.
  - destruct (String.leb (name x) (name y)) eqn:E.
    + constructor; [constructor; assumption|].
      constructor; [exact E|].
      eapply Forall_impl; [|exact Hy]. intros z Hz.
      eapply name_le_trans; [exact E | exact Hz].
    + constructor; [exact IH|].
      assert (Hyx : name_le y x).
      { destruct (name_le_total x y) as [H|H]; [unfold name_le in H; congruence | exact H]. }
      eapply Permutation_Forall; [symmetry; apply insert_perm|].
      constructor; assumption.
Qed.

Lemma sorted_sorted (l : list DirEntry) : StronglySorted name_le (sorted l).
Proof.
  induction l as [|x t IH]; cbn [sorted]; [constructor | apply insert_sorted, IH].
Qed.

Lemma filter_sorted (f : DirEntry -> bool) (l : list DirEntry) :
  StronglySorted name_le l -> StronglySorted name_le (filter f l).
Proof.
  induction 1 as [|y t Ht IH Hy]; cbn [filter]; [constructor|].
  destruct (f y); [|exact IH].
  constructor; [exact IH|].
  apply Forall_forall. intros z Hz. apply filter_In in Hz.
  rewrite Forall_forall in Hy. apply Hy, Hz.
Qed.

(** Two sorted lists with the same entries, no two of which share a
    name, are the same list. *)
Lemma sorted_unique (l1 : list DirEntry) :
  forall l2,
    StronglySorted name_le l1 -> StronglySorted name_le l2 ->
    Permutation l1 l2 -> NoDup (map name l1) -> l1 = l2.
Proof.
  induction l1 as [|a t1 IH]; intros l2 H1 H2 Hp Hnd.
  - apply Permutation_nil in Hp. subst. reflexivity.
  - destruct l2 as [|b t2]; [apply Permutation_sym, Permutation_nil in Hp; discriminate|].
    inversion H1 as [|? ? Ht1 Ha]; subst. inversion H2 as [|? ? Ht2 Hb]; subst.
    rewrite Forall_forall in Ha, Hb.
    assert (Hab : a = b).
    { assert (Hina : In a (b :: t2)) by (eapply Permutation_in; [exact Hp | left; reflexivity]).
      assert (Hinb : In b (a :: t1))
        by (eapply Permutation_in; [symmetry; exact Hp | left; reflexivity]).
      destruct Hina as [E|Hina]; [symmetry; exact E|].
      destruct Hinb as [E|Hinb]; [exact E|].
      pose proof (Ha b Hinb) as Hle1. pose proof (Hb a Hina) as Hle2.
      assert (Hn : name a = name b) by (apply String.leb_antisym; assumption).
      exfalso. cbn [map] in Hnd. inversion Hnd as [|? ? Hnotin _]; subst.
      apply Hnotin. rewrite Hn. apply in_map, Hinb. }
    subst b. f_equal. apply IH; try assumption.
    + eapply Permutation_cons_inv. exact Hp.
    + cbn [map] in Hnd. inversion Hnd; assumption.
Qed.

(** ** Suffixes *)

Lemma in_exts_spec (s : string) :
  in_exts s = true <->
  exists ext, In ext Spec.extensions /\ s = String "." ext.
Proof.
  unfold in_exts, IMAGE_EXTS, Spec.extensions. rewrite existsb_exists. split.
  - intros (x & Hin & Heq). apply String.eqb_eq in Heq. subst x.
    cbn [In] in Hin.
    repeat (destruct Hin as [<-|Hin];
            [eexists; split; [|reflexivity]; cbn [In]; tauto|]).
    contradiction.
  - intros (ext & Hin & ->). exists (String "." ext).
    split; [|apply String.eqb_refl]. cbn [In] in *.
    repeat (destruct Hin as [<-|Hin]; [tauto|]). contradiction.
Qed.

Lemma lower_char_dot (c : ascii) :
  Ascii.eqb (lower_char c) "." = Ascii.eqb c ".".
Proof. destruct c as [[] [] [] [] [] [] [] []]; reflexivity. Qed.

Lemma from_last_dot_lower (s : string) :
  from_last_dot (lower s) = None <-> from_last_dot s = None.
Proof.
  induction s as [|c t IH]; cbn [lower from_last_dot]; [tauto|].
  rewrite lower_char_dot.
  destruct (from_last_dot (lower t)), (from_last_dot t), (Ascii.eqb c ".");
    split; intros H; try discriminate; try reflexivity;
    try (apply IH in H; discriminate);
    try (destruct IH as [IH1 IH2]; first [specialize (IH1 eq_refl) | specialize (IH2 eq_refl)];
         discriminate).
Qed.

Lemma from_last_dot_app (pre e : string) :
  from_last_dot e = None ->
  from_last_dot (pre ++ String "." e) = Some (String "." e).
Proof.
  intros He. induction pre as [|c pre IH]; cbn [append from_last_dot].
  - rewrite He. reflexivity.
  - rewrite IH. reflexivity.
Qed.

Lemma from_last_dot_Some (s : string) :
  forall r, from_last_dot s = Some r ->
  exists pre e, s = pre ++ r /\ r = String "." e /\ from_last_dot e = None.
Proof.
  induction s as [|c t IH]; cbn [from_last_dot]; intros r H; [discriminate|].
  destruct (from_last_dot t) as [r'|] eqn:Et.
  - injection H as <-. destruct (IH r' eq_refl) as (pre & e & -> & -> & He).
    exists (String c pre), e. split; [reflexivity|]. split; [reflexivity | exact He].
  - destruct (Ascii.eqb_spec c ".") as [->|]; [|discriminate].
    injection H as <-. exists "", t. split; [reflexivity|]. split; [reflexivity | exact Et].
Qed.

(** ** Extensions, whatever their case *)

Lemma capital_lower (a b : ascii) :
  lower_char b = b ->
  (Ascii.eqb a b || Ascii.eqb a (Spec.capital b)) = true ->
  lower_char a = b.
Proof.
  destruct b as [[] [] [] [] [] [] [] []]; intros Hb H;
    try (vm_compute in Hb; discriminate Hb);
    apply orb_true_iff in H; destruct H as [H|H];
    apply Ascii.eqb_eq in H; subst a; reflexivity.
Qed.

Lemma lower_capital (a : ascii) :
  (Ascii.eqb a (lower_char a) || Ascii.eqb a (Spec.capital (lower_char a))) = true.
Proof. destruct a as [[] [] [] [] [] [] [] []]; reflexivity. Qed.

Lemma same_ignoring_case_lower (ext : string) :
  forall word, lower word = word ->
               (Spec.same_ignoring_case ext word = true <-> lower ext = word).
Proof.
  induction ext as [|a ext IH]; intros [|b word] Hw;
    cbn [Spec.same_ignoring_case lower]; try (split; congruence).
  cbn [lower] in Hw. injection Hw as Hb Hw.
  rewrite andb_true_iff. split.
  - intros (Hc & Hs). f_equal; [apply capital_lower; assumption | apply IH; assumption].
  - intros H. injection H as Ha Hs. split.
    + rewrite <- Ha. apply lower_capital.
    + apply IH; assumption.
Qed.

Lemma extensions_lower (word : string) :
  In word Spec.extensions ->
  lower word = word /\ from_last_dot word = None /\ word <> "".
Proof.
  unfold Spec.extensions. cbn [In]. intros H.
  repeat (destruct H as [<-|H];
          [split; [reflexivity|]; split; [reflexivity | discriminate]|]).
  contradiction.
Qed.

Lemma recognized_iff (ext : string) :
  Spec.recognized ext = true <->
  exists word, In word Spec.extensions /\ lower ext = word.
Proof.
  unfold Spec.recognized. rewrite existsb_exists. split.
  - intros (word & Hin & Hs). exists word. split; [exact Hin|].
    apply same_ignoring_case_lower; [apply extensions_lower, Hin | exact Hs].
  - intros (word & Hin & Hl). exists word. split; [exact Hin|].
    apply same_ignoring_case_lower; [apply extensions_lower, Hin | exact Hl].
Qed.

(** The test of [iter_images] in the specification's words: a regular
    file named stem, dot, extension, with an extension of the recognized
    set whatever its case. *)
Lemma is_image_recognized (entry : DirEntry) :
  is_image entry = true <->
  is_file entry = true /\
  exists stem ext,
    name entry = stem ++ String "." ext /\ stem <> "" /\
    Spec.recognized ext = true.
Proof.
  unfold is_image. rewrite andb_true_iff, in_exts_spec. split.
  - intros (Hf & word & Hin & Hs). split; [exact Hf|].
    unfold suffix in Hs. destruct (name entry) as [|c t] eqn:En; [discriminate|].
    destruct (from_last_dot t) as [r|] eqn:Et; [|discriminate].
    destruct (1 <? String.length r)%nat; [|discriminate].
    destruct (from_last_dot_Some t r Et) as (pre & e & -> & -> & He).
    exists (String c pre), e. split; [reflexivity|]. split; [discriminate|].
    apply recognized_iff. exists word. split; [exact Hin|].
    cbn [lower] in Hs. injection Hs as Hs. exact Hs.
  - intros (Hf & stem & ext & Hn & Hstem & Hrec). split; [exact Hf|].
    apply recognized_iff in Hrec. destruct Hrec as (word & Hin & Hl).
    destruct (extensions_lower word Hin) as (_ & Hnodot & Hne).
    exists word. split; [exact Hin|].
    rewrite <- Hl in Hnodot.
    apply (proj1 (from_last_dot_lower ext)) in Hnodot.
    destruct stem as [|c pre]; [contradiction|].
    rewrite Hn. cbn [append]. unfold suffix.
    rewrite (from_last_dot_app pre ext Hnodot).
    destruct ext as [|d ext']; [exfalso; apply Hne; rewrite <- Hl; reflexivity|].
    cbn [String.length Nat.ltb Nat.leb]. cbn [lower]. cbn [lower] in Hl.
    rewrite Hl. reflexivity.
Qed.

(** C8. The enumerator yields exactly the entries of the folder that are
    regular files named stem, dot, extension, where the extension is one
    of jpg, jpeg, png, bmp, gif, tif, tiff, webp whatever the case of
    its letters; each as often as the folder lists it; sorted by name.
    The result does not depend on the order in which the file system
    lists a folder (whose names are distinct), so it is the same on
    every run over an unchanged folder. *)
Theorem iter_images_spec (folder : list DirEntry) :
  (forall entry,
      In entry (iter_images folder) <->
      In entry folder /\ is_file entry = true /\
      exists stem ext,
        name entry = stem ++ String "." ext /\ stem <> "" /\
        Spec.recognized ext = true) /\
  Permutation (iter_images folder) (filter is_image folder) /\
  StronglySorted name_le (iter_images folder) /\
  (forall listing,
      Permutation folder listing -> NoDup (map name folder) ->
      iter_images listing = iter_images folder).
Proof.
  unfold iter_images. split; [|split; [|split]].
  - intros entry. rewrite filter_In, is_image_recognized. split.
    + intros (Hin & Hrest). split; [|exact Hrest].
      eapply Permutation_in; [apply sorted_perm | exact Hin].
    + intros (Hin & Hrest). split; [|exact Hrest].
      eapply Permutation_in; [symmetry; apply sorted_perm | exact Hin].
  - clear. pose proof (sorted_perm folder) as Hp.
    induction Hp as [|x l l' Hp IH|x y l|l l' l'' Hp1 IH1 Hp2 IH2]; cbn [filter].
    + reflexivity.
    + destruct (is_image x); [constructor|]; exact IH.
    + destruct (is_image x), (is_image y); try reflexivity. apply perm_swap.
    + etransitivity; eassumption.
  - apply filter_sorted, sorted_sorted.
  - intros listing Hp Hnd. f_equal.
    apply sorted_unique.
    + apply sorted_sorted.
    + apply sorted_sorted.
    + rewrite !sorted_perm. symmetry. exact Hp.
    + eapply Permutation_NoDup; [|exact Hnd].
      apply Permutation_map. symmetry. rewrite sorted_perm. symmetry. exact Hp.
Qed.

(** In the sample folder [a.JPG] is listed, capitals and all; the text
    file and the directory named like an image are not; and the
    shuffled listing gives the same list. *)
Lemma iter_images_spec_witness :
  In (Sample.picture "a.JPG" (640, 480)) (iter_images (iterdir Sample.photos)) /\
  ~ In {| name := "notes.txt"; is_file := true; image := None |}
       (iter_images (iterdir Sample.photos)) /\
  ~ In {| name := "sub.png"; is_file := false; image := None |}
       (iter_images (iterdir Sample.photos)) /\
  iter_images Sample.photos_shuffled = iter_images (iterdir Sample.photos).
Proof.
  pose proof (iter_images_spec (iterdir Sample.photos))
    as (Hmem & _ & _ & Horder).
  split; [|split; [|split]].
  - apply Hmem. split; [vm_compute; tauto|]. split; [reflexivity|].
    exists "a", "JPG". split; [reflexivity|]. split; [discriminate | reflexivity].
  - intros H. apply Hmem in H. destruct H as (_ & _ & stem & ext & Hn & _ & Hr).
    apply recognized_iff in Hr. destruct Hr as (word & Hin & Hl).
    cbn [name] in Hn.
    assert (Hs : suffix "notes.txt" = String "." ext).
    { rewrite Hn. destruct (extensions_lower word Hin) as (_ & Hnodot & Hne).
      rewrite <- Hl in Hnodot. apply (proj1 (from_last_dot_lower ext)) in Hnodot.
      destruct stem as [|c pre]; [destruct ext; discriminate Hn|].
      cbn [append]. unfold suffix. rewrite (from_last_dot_app pre ext Hnodot).
      destruct ext; [exfalso; apply Hne; rewrite <- Hl; reflexivity | reflexivity]. }
    vm_compute in Hs. injection Hs as <-. vm_compute in Hl. subst word.
    vm_compute in Hin. intuition discriminate.
  - intros H. apply Hmem in H. destruct H as (_ & Hf & _). discriminate Hf.
  - apply Horder.
    + rewrite <- (sorted_perm (iterdir Sample.photos)).
      rewrite <- (sorted_perm Sample.photos_shuffled).
      vm_compute. reflexivity.
    + vm_compute. repeat constructor; cbn; intuition discriminate.
Defined.

(** ** What [suffix] and [lower] give on sample names *)

Example suffix_upper : lower (suffix "a.JPG") = ".jpg"%string.
Proof. reflexivity. Qed.

Example suffix_last_dot : suffix "y.tar.gif" = ".gif"%string.
Proof. reflexivity. Qed.

Example suffix_hidden : suffix ".png" = ""%string.
Proof. reflexivity. Qed.

Example suffix_trailing_dot : suffix "x." = ""%string.
Proof. reflexivity. Qed.

Example suffix_none : suffix "README" = ""%string.
Proof. reflexivity. Qed.

(** * Further properties of the enumerator *)

(** ** The shape of the names that are listed *)

Lemma lower_dotted (e : string) : lower (String "." e) = String "." (lower e).
Proof. reflexivity. Qed.

Lemma in_exts_In (s : string) : in_exts s = true <-> In s IMAGE_EXTS.
Proof.
  unfold in_exts. rewrite existsb_exists. split.
  - intros (x & Hin & Heq). apply String.eqb_eq in Heq. subst x. exact Hin.
  - intros Hin. exists s. split; [exact Hin | apply String.eqb_refl].
Qed.

(** The members of [IMAGE_EXTS] have a single dot, the leading one, and
    something after it. *)
Lemma IMAGE_EXTS_shape (e : string) :
  In (String "." e) IMAGE_EXTS -> from_last_dot e = None /\ e <> "".
Proof.
  unfold IMAGE_EXTS. cbn [In]. intros H.
  repeat (destruct H as [H|H];
          [injection H as <-; split; [reflexivity | discriminate]|]).
  contradiction.
Qed.

(** X1. An entry is listed exactly when it is a regular file whose name is a
    non-empty stem, a dot and an extension that, lowercased, is in
    [IMAGE_EXTS]. So neither a name that is a bare extension ([.png]) nor
    one without a stem before the last dot is ever listed. *)
Theorem listed_iff_stem_dot_ext (entry : DirEntry) :
  is_image entry = true <->
  is_file entry = true /\
  exists stem ext,
    name entry = stem ++ String "." ext /\ stem <> "" /\
    In (String "." (lower ext)) IMAGE_EXTS.
Proof.
  unfold is_image. rewrite andb_true_iff, in_exts_In. split.
  - intros (Hf & Hin). split; [exact Hf|].
    unfold suffix in Hin. destruct (name entry) as [|c t] eqn:En;
      [cbn in Hin; intuition discriminate|].
    destruct (from_last_dot t) as [r|] eqn:Et;
      [|cbn in Hin; intuition discriminate].
    destruct (1 <? String.length r)%nat; [|cbn in Hin; intuition discriminate].
    destruct (from_last_dot_Some t r Et) as (pre & e & -> & -> & He).
    exists (String c pre), e. split; [reflexivity|]. split; [discriminate|].
    exact Hin.
  - intros (Hf & stem & ext & Hn & Hstem & Hin). split; [exact Hf|].
    destruct (IMAGE_EXTS_shape _ Hin) as (Hnodot & Hne).
    apply (proj1 (from_last_dot_lower ext)) in Hnodot.
    destruct stem as [|c pre]; [contradiction|].
    rewrite Hn. cbn [append]. unfold suffix.
    rewrite (from_last_dot_app pre ext Hnodot).
    destruct ext as [|d ext']; [exfalso; apply Hne; reflexivity|].
    cbn [String.length Nat.ltb Nat.leb]. exact Hin.
Qed.

(** ** Sorting and filtering commute *)

Lemma insert_below (x : DirEntry) (l : list DirEntry) :
  Forall (name_le x) l -> insert x l = x :: l.
Proof.
  intros H. destruct l as [|y t]; [reflexivity|].
  cbn [insert]. inversion H as [|? ? Hy _]; subst.
  unfold name_le in Hy. rewrite Hy. reflexivity.
Qed.

Lemma filter_insert (f : DirEntry -> bool) (x : DirEntry) (l : list DirEntry) :
  StronglySorted name_le l ->
  filter f (insert x l) = if f x then insert x (filter f l) else filter f l.
Proof.
  induction 1 as [|y t Ht IH Hy]; cbn [insert filter].
  - destruct (f x); reflexivity.
  - destruct (String.leb (name x) (name y)) eqn:E; cbn [filter].
    + destruct (f x) eqn:Fx; [|reflexivity].
      destruct (f y) eqn:Fy.
      * cbn [insert]. rewrite E. reflexivity.
      * symmetry. f_equal. apply insert_below.
        apply Forall_forall. intros z Hz. apply filter_In in Hz.
        rewrite Forall_forall in Hy.
        eapply name_le_trans; [exact E | apply Hy, Hz].
    + rewrite IH. destruct (f y) eqn:Fy; [|reflexivity].
      destruct (f x); [|reflexivity]. cbn [insert]. rewrite E. reflexivity.
Qed.

Lemma filter_sorted_commute (f : DirEntry -> bool) (l : list DirEntry) :
  filter f (sorted l) = sorted (filter f l).
Proof.
  induction l as [|x t IH]; [reflexivity|].
  cbn [sorted filter]. rewrite filter_insert by apply sorted_sorted.
  rewrite IH. destruct (f x); reflexivity.
Qed.

(** X2. Sorting the folder and keeping the images is the same as keeping the
    images and sorting them: the entries that are not images have no
    influence on what is listed, wherever the folder lists them. *)
Theorem others_do_not_matter (l1 others l2 : list DirEntry) :
  (forall e, In e others -> is_image e = false) ->
  iter_images (l1 ++ others ++ l2) = iter_images (l1 ++ l2) /\
  iter_images (l1 ++ l2) = sorted (filter is_image (l1 ++ l2)).
Proof.
  intros Hjunk. unfold iter_images. rewrite !filter_sorted_commute.
  split; [|reflexivity]. f_equal. rewrite !filter_app. f_equal.
  assert (E : filter is_image others = []).
  { induction others as [|o t IH]; [reflexivity|]. cbn [filter].
    rewrite (Hjunk o (or_introl eq_refl)). apply IH.
    intros e He. apply Hjunk. right. exact He. }
  rewrite E. reflexivity.
Qed.

Lemma others_do_not_matter_witness :
  iter_images ([Sample.picture "b.png" (800, 600)] ++
               [{| name := "notes.txt"; is_file := true; image := None |};
                {| name := "sub.png"; is_file := false; image := None |}] ++
               [Sample.picture "a.JPG" (640, 480)]) =
  iter_images ([Sample.picture "b.png" (800, 600)] ++
               [Sample.picture "a.JPG" (640, 480)]) /\
  iter_images ([Sample.picture "b.png" (800, 600)] ++
               [Sample.picture "a.JPG" (640, 480)]) =
  sorted (filter is_image ([Sample.picture "b.png" (800, 600)] ++
                           [Sample.picture "a.JPG" (640, 480)])).
Proof.
  apply (others_do_not_matter
           [Sample.picture "b.png" (800, 600)]
           [{| name := "notes.txt"; is_file := true; image := None |};
            {| name := "sub.png"; is_file := false; image := None |}]
           [Sample.picture "a.JPG" (640, 480)]).
  intros e [<-|[<-|[]]]; reflexivity.
Defined.

(** X3. Listing twice changes nothing: what [iter_images] yields is already
    sorted and holds images only. *)
Theorem iter_images_idempotent (folder : list DirEntry) :
  iter_images (iter_images folder) = iter_images folder.
Proof.
  unfold iter_images. rewrite !filter_sorted_commute.
  assert (Hfix : forall l, StronglySorted name_le l -> sorted l = l).
  { induction 1 as [|y t Ht IH Hy]; [reflexivity|].
    cbn [sorted]. rewrite IH. apply insert_below, Hy. }
  assert (Hff : forall l, filter is_image (filter is_image l) = filter is_image l).
  { induction l as [|x t IH]; [reflexivity|]. cbn [filter].
    destruct (is_image x) eqn:E; [cbn [filter]; rewrite E, IH|]; auto. }
  rewrite Hff. apply Hfix, sorted_sorted.
Qed.

(** ** The run does not depend on the order of the listing *)

Lemma iter_images_perm (folder listing : list DirEntry) :
  Permutation folder listing -> NoDup (map name folder) ->
  iter_images listing = iter_images folder.
Proof.
  intros Hp Hnd. unfold iter_images. f_equal. apply sorted_unique.
  - apply sorted_sorted.
  - apply sorted_sorted.
  - rewrite !sorted_perm. symmetry. exact Hp.
  - eapply Permutation_NoDup; [|exact Hnd].
    apply Permutation_map. symmetry. rewrite sorted_perm. symmetry. exact Hp.
Qed.

(** X4. Whatever order the file system lists the folder in (its names being
    distinct), the run is the same: same outcome, same canvas, same
    cells at the same places. *)
Theorem main_listing_order (args : argparse.Namespace) (w : World)
        (listing : list DirEntry) :
  Permutation (iterdir w) listing -> NoDup (map name (iterdir w)) ->
  main args {| is_dir := is_dir w; iterdir := listing; writable := writable w |} =
  main args w.
Proof.
  intros Hp Hnd. unfold main. cbn [is_dir iterdir writable].
  rewrite (iter_images_perm (iterdir w) listing Hp Hnd). reflexivity.
Qed.

Lemma main_listing_order_witness :
  main Sample.args0
       {| is_dir := is_dir Sample.photos; iterdir := Sample.photos_shuffled;
          writable := writable Sample.photos |} =
  main Sample.args0 Sample.photos.
Proof.
  apply (main_listing_order Sample.args0 Sample.photos Sample.photos_shuffled).
  - rewrite <- (sorted_perm (iterdir Sample.photos)).
    rewrite <- (sorted_perm Sample.photos_shuffled).
    vm_compute. reflexivity.
  - vm_compute. repeat constructor; cbn; intuition discriminate.
Defined.

(** * Further properties of the fit *)

(** ** Scale one *)

(** X5. An image that fits the cell and touches it in one dimension has
    scale exactly 1.0 and keeps its size; it is centred in the other
    dimension. *)
Theorem touching_image_unscaled (path : DirEntry) (sw sh w h : Z) :
  image path = Some (sw, sh) ->
  1 <= sw <= w -> 1 <= sh <= h -> w < 2 ^ 31 -> h < 2 ^ 31 ->
  w = sw \/ h = sh ->
  load_and_fit path w h =
    Ok {| canvas_size := (w, h); new_size := (sw, sh);
          offset := ((w - sw) / 2, (h - sh) / 2) |}.
Proof.
  intros Him Hsw Hsh Hw Hh Htouch.
  assert (H52 : 2 ^ 31 < 2 ^ 52) by reflexivity.
  assert (H1074 : 2 ^ 31 <= 2 ^ 1074) by (apply Z.pow_le_mono_r; lia).
  destruct (quotient_faithful w sw ltac:(lia) ltac:(lia)) as (a & Ha & Hfa).
  destruct (quotient_faithful h sh ltac:(lia) ltac:(lia)) as (b & Hb & Hfb).
  pose proof (Binary64.min_faithful _ _ a b Hfa Hfb) as Hsc.
  assert (Hone : Rmin (IZR w / IZR sw) (IZR h / IZR sh) = (IZR 1 / IZR 1)%R).
  { assert (HswR : (1 <= IZR sw)%R) by (apply IZR_le; lia).
    assert (HshR : (1 <= IZR sh)%R) by (apply IZR_le; lia).
    assert (HwR : (IZR sw <= IZR w)%R) by (apply IZR_le; lia).
    assert (HhR : (IZR sh <= IZR h)%R) by (apply IZR_le; lia).
    assert (Hqw : (1 <= IZR w / IZR sw)%R).
    { apply Rmult_le_reg_r with (IZR sw); [lra|].
      unfold Rdiv. rewrite Rmult_assoc, Rinv_l by lra. lra. }
    assert (Hqh : (1 <= IZR h / IZR sh)%R).
    { apply Rmult_le_reg_r with (IZR sh); [lra|].
      unfold Rdiv. rewrite Rmult_assoc, Rinv_l by lra. lra. }
    replace (IZR 1 / IZR 1)%R with 1%R by (unfold Rdiv; rewrite Rinv_1; ring).
    destruct Htouch as [->| ->].
    - replace (IZR sw / IZR sw)%R with 1%R by (field; lra).
      apply Rmin_left. exact Hqh.
    - replace (IZR sh / IZR sh)%R with 1%R by (field; lra).
      apply Rmin_right. exact Hqw. }
  rewrite Hone in Hsc.
  destruct (scaled_product sw 1 1 sw (Py.min a b)) as (pw & kw & Hpw & Hkw & _ & Hbw & Hupw & _);
    try lia; try exact Hsc.
  destruct (scaled_product sh 1 1 sh (Py.min a b)) as (ph & kh & Hph & Hkh & _ & Hbh & Huph & _);
    try lia; try exact Hsc.
  assert (Ekw : kw = sw) by (specialize (Hupw ltac:(lia)); lia).
  assert (Ekh : kh = sh) by (specialize (Huph ltac:(lia)); lia).
  subst kw kh.
  unfold load_and_fit. rewrite Him, Ha, Hb. cbn [bind].
  rewrite Hpw. cbn [bind]. rewrite Hkw. cbn [bind].
  rewrite Hph. cbn [bind]. rewrite Hkh. cbn [bind].
  rewrite !Py_max_Zmax. rewrite !Z.max_r by lia.
  unfold Image_resize, Image_new, INT_MAX. cbn [fst snd].
  destruct (Z.ltb_spec (2 ^ 31 - 1) sw); [lia|].
  destruct (Z.ltb_spec (2 ^ 31 - 1) sh); [lia|].
  destruct (Z.ltb_spec sw 1); [lia|].
  destruct (Z.ltb_spec sh 1); [lia|].
  destruct (Z.ltb_spec w 0); [lia|]. destruct (Z.ltb_spec h 0); [lia|].
  destruct (Z.ltb_spec (2 ^ 31 - 1) w); [lia|].
  destruct (Z.ltb_spec (2 ^ 31 - 1) h); [lia|].
  cbn [orb bind]. reflexivity.
Qed.

Lemma touching_image_unscaled_witness :
  load_and_fit Sample.wide 8 10 =
    Ok {| canvas_size := (8, 10); new_size := (8, 7);
          offset := ((8 - 8) / 2, (10 - 7) / 2) |}.
Proof.
  apply (touching_image_unscaled Sample.wide 8 7 8 10); try reflexivity; try lia.
Defined.

(** ** The limiting dimension *)

Lemma exact_quotient_window (P D q k : Z) :
  1 <= D -> 1 <= q -> P = D * q ->
  (P + D - 1) / D - 1 <= k <= P / D ->
  q - 1 <= Z.max 1 k <= q.
Proof.
  intros HD Hq -> Hk.
  assert (E1 : D * q / D = q) by (rewrite Z.mul_comm; apply Z.div_mul; lia).
  assert (E2 : (D * q + D - 1) / D = q).
  { symmetry. apply Z.div_unique with (D - 1); lia. }
  rewrite E1, E2 in Hk. lia.
Qed.

(** X6. In the dimension that limits the scale the resized image fills the
    cell, or falls one pixel short of it when the binary64 product
    [src * (cell / src)] lands just below [cell]. *)
Theorem limiting_side_fills_cell (path : DirEntry) (sw sh w h : Z) :
  image path = Some (sw, sh) ->
  1 <= sw < 2 ^ 31 -> 1 <= sh < 2 ^ 31 -> 1 <= w < 2 ^ 31 -> 1 <= h < 2 ^ 31 ->
  Z.max sw sh * Z.max w h < 2 ^ 50 ->
  exists c,
    load_and_fit path w h = Ok c /\
    (w * sh <= h * sw -> w - 1 <= fst (new_size c) <= w) /\
    (h * sw <= w * sh -> h - 1 <= snd (new_size c) <= h).
Proof.
  intros Him Hsw Hsh Hw Hh Hmax.
  destruct (load_and_fit_window path sw sh w h Him Hsw Hsh Hw Hh)
    as (a & b & pw & ph & kw & kh & _ & _ & _ & _ & _ & _ & Hc & Hwin).
  cbv zeta in Hwin. destruct Hwin as ((_ & _ & Hkw) & (_ & _ & Hkh)).
  eexists. split; [exact Hc|]. cbn [new_size fst snd].
  assert (HsN : forall src N, 1 <= src <= Z.max sw sh -> 1 <= N <= Z.max w h ->
                              src * N < 2 ^ 50).
  { intros src N Hs HN. apply Z.le_lt_trans with (Z.max sw sh * Z.max w h);
      [apply Z.mul_le_mono_nonneg; lia | exact Hmax]. }
  unfold Spec.scale in Hkw, Hkh.
  destruct (Z.leb_spec (w * sh) (h * sw)) as [C|C]; cbn [fst snd] in Hkw, Hkh.
  - split.
    + intros _. apply (exact_quotient_window (sw * w) sw w kw); try lia.
      apply Hkw, HsN; lia.
    + intros C'. assert (E : w * sh = h * sw) by lia.
      apply (exact_quotient_window (sh * w) sw h kh); try lia.
      apply Hkh, HsN; lia.
  - split; [intros C'; lia|].
    intros _. apply (exact_quotient_window (sh * h) sh h kh); try lia.
    apply Hkh, HsN; lia.
Qed.

Lemma limiting_side_fills_cell_witness :
  exists c,
    load_and_fit Sample.wide 2 2 = Ok c /\
    (2 * 7 <= 2 * 8 -> 2 - 1 <= fst (new_size c) <= 2) /\
    (2 * 8 <= 2 * 7 -> 2 - 1 <= snd (new_size c) <= 2).
Proof.
  apply (limiting_side_fills_cell Sample.wide 8 7 2 2); try reflexivity;
    split; try lia; reflexivity.
Defined.

(** The pixel is lost in practice: 2 / 49 rounds down, 49 times that is
    1.9999999999999998, and a 49 x 49 image in a 2 x 2 cell becomes
    1 x 1. *)
Example fit_one_pixel_short :
  load_and_fit (Sample.picture "tile.png" (49, 49)) 2 2 =
    Ok {| canvas_size := (2, 2); new_size := (1, 1); offset := (0, 0) |}.
Proof. vm_compute. reflexivity. Qed.

(** ** The image inside its cell *)

(** X7. The resized image lies inside the cell canvas it is pasted on: its
    offset is not negative and it ends at or before the far edge. *)
Theorem image_inside_cell (path : DirEntry) (sw sh w h : Z) :
  image path = Some (sw, sh) ->
  1 <= sw < 2 ^ 31 -> 1 <= sh < 2 ^ 31 -> 1 <= w < 2 ^ 31 -> 1 <= h < 2 ^ 31 ->
  exists c,
    load_and_fit path w h = Ok c /\
    0 <= fst (offset c) /\ fst (offset c) + fst (new_size c) <= w /\
    0 <= snd (offset c) /\ snd (offset c) + snd (new_size c) <= h.
Proof.
  intros Him Hsw Hsh Hw Hh.
  destruct (load_and_fit_window path sw sh w h Him Hsw Hsh Hw Hh)
    as (a & b & pw & ph & kw & kh & _ & _ & _ & _ & _ & _ & Hc & Hwin).
  cbv zeta in Hwin. destruct Hwin as ((Hbw & _) & (Hbh & _)).
  eexists. split; [exact Hc|]. cbn [offset new_size fst snd].
  pose proof (Z.div_mod (w - Z.max 1 kw) 2 ltac:(lia)).
  pose proof (Z.mod_pos_bound (w - Z.max 1 kw) 2 ltac:(lia)).
  pose proof (Z.div_mod (h - Z.max 1 kh) 2 ltac:(lia)).
  pose proof (Z.mod_pos_bound (h - Z.max 1 kh) 2 ltac:(lia)).
  lia.
Qed.

Lemma image_inside_cell_witness :
  exists c,
    load_and_fit Sample.wide 9 8 = Ok c /\
    0 <= fst (offset c) /\ fst (offset c) + fst (new_size c) <= 9 /\
    0 <= snd (offset c) /\ snd (offset c) + snd (new_size c) <= 8.
Proof.
  apply (image_inside_cell Sample.wide 8 7 9 8); try reflexivity;
    split; try lia; reflexivity.
Defined.

(** ** Errors *)

Lemma Image_new_Ok (size : Z * Z) :
  Image_new size = Ok tt ->
  0 <= fst size <= INT_MAX /\ 0 <= snd size <= INT_MAX.
Proof.
  unfold Image_new.
  destruct (Z.ltb_spec (fst size) 0), (Z.ltb_spec (snd size) 0);
    cbn [orb]; try discriminate.
  destruct (Z.ltb_spec INT_MAX (fst size)), (Z.ltb_spec INT_MAX (snd size));
    cbn [orb]; try discriminate.
  intros _. lia.
Qed.

Lemma Image_resize_Ok (size : Z * Z) :
  Image_resize size = Ok tt ->
  1 <= fst size <= INT_MAX /\ 1 <= snd size <= INT_MAX.
Proof.
  unfold Image_resize.
  destruct (Z.ltb_spec INT_MAX (fst size)), (Z.ltb_spec INT_MAX (snd size));
    cbn [orb]; try discriminate.
  destruct (Z.ltb_spec (fst size) 1), (Z.ltb_spec (snd size) 1);
    cbn [orb]; try discriminate.
  intros _. lia.
Qed.

Lemma int_truediv_Ok (a b : Z) (f : Py.float) :
  Py.int_truediv a b = Ok f -> b <> 0.
Proof.
  unfold Py.int_truediv. destruct (Z.eqb_spec b 0); [discriminate | auto].
Qed.

(** X8. What a successful [load_and_fit] implies, whatever the arguments:
    the cell size is a valid Pillow size, the image has no zero
    dimension, and the resized image has at least one pixel each way.
    A negative or oversized cell and an empty image never give a cell. *)
Theorem load_and_fit_Ok_sizes (path : DirEntry) (w h : Z) (c : Cell) :
  load_and_fit path w h = Ok c ->
  0 <= w <= INT_MAX /\ 0 <= h <= INT_MAX /\
  canvas_size c = (w, h) /\
  1 <= fst (new_size c) <= INT_MAX /\ 1 <= snd (new_size c) <= INT_MAX /\
  exists sw sh, image path = Some (sw, sh) /\ sw <> 0 /\ sh <> 0.
Proof.
  intros H.
  destruct (load_and_fit_inv _ _ _ _ H)
    as (sw & sh & a & b & pw & iw & ph & ih & Him & Ha & Hb & _ & _ & _ & _ &
        Hrs & Hnew & ->).
  apply Image_new_Ok in Hnew. apply Image_resize_Ok in Hrs.
  cbn [fst snd canvas_size new_size] in *.
  repeat (split; [first [reflexivity | lia]|]).
  exists sw, sh. split; [exact Him|].
  split; [exact (int_truediv_Ok _ _ _ Ha) | exact (int_truediv_Ok _ _ _ Hb)].
Qed.

Lemma load_and_fit_Ok_sizes_witness :
  0 <= 2 <= INT_MAX /\ 0 <= 2 <= INT_MAX /\
  canvas_size {| canvas_size := (2, 2); new_size := (2, 1); offset := (0, 0) |} = (2, 2) /\
  1 <= 2 <= INT_MAX /\ 1 <= 1 <= INT_MAX /\
  exists sw sh, image Sample.wide = Some (sw, sh) /\ sw <> 0 /\ sh <> 0.
Proof.
  apply (load_and_fit_Ok_sizes Sample.wide 2 2
           {| canvas_size := (2, 2); new_size := (2, 1); offset := (0, 0) |}).
  vm_compute. reflexivity.
Defined.

(** * Further properties of the run *)

(** ** The auto grid is nearly square *)

(** X10. With the column count left to auto, the grid has as many rows as
    columns or one row less, and fewer than one row of cells stays
    empty. *)
Theorem auto_grid_near_square (n : Z) :
  1 <= n < 2 ^ 50 ->
  exists c r,
    main_cols 0 n = Ok c /\ main_rows n c = Ok r /\
    c - 1 <= r <= c /\ n <= c * r < n + c.
Proof.
  intros Hn.
  pose proof (sqrt_up_range n ltac:(lia)) as (Hc & Hsq).
  set (c := Z.sqrt_up n) in *.
  assert (Hc74 : 1 <= c <= 2 ^ 1074).
  { split; [lia|]. apply Z.le_trans with (2 ^ 50); [lia|].
    apply Z.pow_le_mono_r; lia. }
  assert (Hn52 : 1 <= n < 2 ^ 52).
  { split; [lia|]. apply Z.lt_trans with (2 ^ 50); [lia | reflexivity]. }
  exists c, ((n + c - 1) / c).
  split; [apply ceil_sqrt_exact, Hn|].
  split; [apply main_rows_exact; assumption|].
  pose proof (Z.div_mod (n + c - 1) c ltac:(lia)) as Hd.
  pose proof (Z.mod_pos_bound (n + c - 1) c ltac:(lia)) as Hm.
  set (r := (n + c - 1) / c) in *.
  assert (Hcr : n <= c * r < n + c) by lia.
  split; [|exact Hcr]. split; nia.
Qed.

Lemma auto_grid_near_square_witness :
  exists c r,
    main_cols 0 7 = Ok c /\ main_rows 7 c = Ok r /\
    c - 1 <= r <= c /\ 7 <= c * r < 7 + c.
Proof. apply (auto_grid_near_square 7). split; [lia | reflexivity]. Defined.

(** ** Rows against columns *)

(** X11. Adding columns never adds rows; one column gives one row per image
    and, from as many columns as images on, a single row is left. *)
Theorem rows_shrink_with_columns (n c1 c2 : Z) :
  1 <= n < 2 ^ 52 -> 1 <= c1 <= c2 -> c2 <= 2 ^ 1074 ->
  exists r1 r2,
    main_rows n c1 = Ok r1 /\ main_rows n c2 = Ok r2 /\
    1 <= r2 <= r1 /\ r1 <= n /\
    (c1 = 1 -> r1 = n) /\ (n <= c2 -> r2 = 1).
Proof.
  intros Hn Hc Hc2.
  exists ((n + c1 - 1) / c1), ((n + c2 - 1) / c2).
  split; [apply main_rows_exact; lia|].
  split; [apply main_rows_exact; lia|].
  pose proof (Z.div_mod (n + c1 - 1) c1 ltac:(lia)) as D1.
  pose proof (Z.mod_pos_bound (n + c1 - 1) c1 ltac:(lia)) as M1.
  pose proof (Z.div_mod (n + c2 - 1) c2 ltac:(lia)) as D2.
  pose proof (Z.mod_pos_bound (n + c2 - 1) c2 ltac:(lia)) as M2.
  set (r1 := (n + c1 - 1) / c1) in *. set (r2 := (n + c2 - 1) / c2) in *.
  assert (H1 : c1 * (r1 - 1) < n <= c1 * r1) by lia.
  assert (H2 : c2 * (r2 - 1) < n <= c2 * r2) by lia.
  assert (Hr2 : 1 <= r2) by nia.
  assert (Hr1 : 1 <= r1) by nia.
  split; [split; [exact Hr2 | nia]|]. split; [nia|].
  split; [intros ->; lia | intros Hle; nia].
Qed.

Lemma rows_shrink_with_columns_witness :
  exists r1 r2,
    main_rows 7 2 = Ok r1 /\ main_rows 7 3 = Ok r2 /\
    1 <= r2 <= r1 /\ r1 <= 7 /\
    (2 = 1 -> r1 = 7) /\ (7 <= 3 -> r2 = 1).
Proof.
  apply (rows_shrink_with_columns 7 2 3).
  - split; [lia | reflexivity].
  - lia.
  - discriminate.
Defined.

(** ** The steps of [main] *)

Lemma read_sizes_Ok (images : list DirEntry) :
  forall sizes, read_sizes images = Ok sizes -> map image images = map Some sizes.
Proof.
  induction images as [|p rest IH]; cbn [read_sizes]; intros sizes H.
  - injection H as <-. reflexivity.
  - destruct (image p) as [size|] eqn:Ep; [|discriminate].
    destruct (read_sizes rest) as [ss|]; [|discriminate].
    cbn [bind] in H. injection H as <-. cbn [map]. rewrite Ep, (IH ss eq_refl).
    reflexivity.
Qed.

Lemma read_sizes_fails (images : list DirEntry) (p : DirEntry) :
  In p images -> image p = None ->
  read_sizes images = Raise UnidentifiedImageError.
Proof.
  induction images as [|q rest IH]; intros Hin Hp; [contradiction|].
  cbn [read_sizes]. destruct (image q) as [size|] eqn:Eq; [|reflexivity].
  destruct Hin as [->|Hin]; [congruence|].
  rewrite (IH Hin Hp). reflexivity.
Qed.

Lemma read_sizes_total (images : list DirEntry) :
  (forall p, In p images -> image p <> None) ->
  exists sizes, read_sizes images = Ok sizes.
Proof.
  induction images as [|q rest IH]; intros H; [exists []; reflexivity|].
  cbn [read_sizes]. destruct (image q) as [size|] eqn:Eq.
  - destruct IH as (ss & ->); [intros p Hp; apply H; right; exact Hp|].
    exists (size :: ss). reflexivity.
  - exfalso. apply (H q); [left; reflexivity | exact Eq].
Qed.

(** Every size read belongs to one of the images, and the other way
    round. *)
Lemma sizes_of_images (images : list DirEntry) (sizes : list (Z * Z)) :
  map image images = map Some sizes ->
  List.length sizes = List.length images /\
  (forall s, In s sizes -> exists p, In p images /\ image p = Some s) /\
  (forall p, In p images -> exists s, In s sizes /\ image p = Some s).
Proof.
  intros H. split; [|split].
  - rewrite <- (length_map Some sizes), <- H. apply length_map.
  - intros s Hs. apply (in_map Some) in Hs. rewrite <- H in Hs.
    apply in_map_iff in Hs. destruct Hs as (p & Hp & Hin). exists p. auto.
  - intros p Hp. apply (in_map image) in Hp. rewrite H in Hp.
    apply in_map_iff in Hp. destruct Hp as (s & Hs & Hin). exists s. auto.
Qed.

Lemma paste_loop_None (L : GridLayout) (images : list DirEntry) :
  forall idx trace tr,
    paste_loop L idx images trace = (tr, None) ->
    images <> [] ->
    cols L <> 0 /\
    forall p, In p images ->
              exists c, load_and_fit p (cell_w L) (cell_h L) = Ok c.
Proof.
  induction images as [|p rest IH]; intros idx trace tr H Hne; [contradiction|].
  cbn [paste_loop] in H. unfold Py.floordiv, Py.modulo in H.
  destruct (Z.eqb_spec (cols L) 0) as [|Hc]; [discriminate|].
  destruct (load_and_fit p (cell_w L) (cell_h L)) as [cell|] eqn:Hcell;
    [|discriminate].
  split; [exact Hc|]. intros q [<-|Hq]; [exists cell; exact Hcell|].
  destruct rest as [|p' rest']; [contradiction|].
  destruct (IH _ _ _ H ltac:(discriminate)) as (_ & Hall). apply Hall, Hq.
Qed.

(** The loop adds pastes only. *)
Lemma paste_loop_pastes (L : GridLayout) (images : list DirEntry)
      (idx : Z) (trace tr : list event) (failure : option exn) :
  paste_loop L idx images trace = (tr, failure) ->
  exists pasted,
    tr = (trace ++ pasted)%list /\
    forall ev, In ev pasted -> exists nm cell xy, ev = Paste nm cell xy.
Proof.
  intros H. destruct (paste_loop_spec L images idx trace tr failure H)
    as (pasted & -> & _ & _ & Hnth).
  exists pasted. split; [reflexivity|]. intros ev Hev.
  apply In_nth_error in Hev. destruct Hev as (i & Hi).
  destruct (Hnth i ev Hi) as (q & cell & _ & _ & ->). eauto.
Qed.

Lemma main_layout_inv (args : argparse.Namespace) (sizes : list (Z * Z))
      (L : GridLayout) :
  main_layout args sizes = Ok L ->
  exists max_w max_h,
    Py.max_of (map fst sizes) = Ok max_w /\
    Py.max_of (map snd sizes) = Ok max_h /\
    cell_w L = (if argparse.cell_width args =? 0 then max_w
                else argparse.cell_width args) /\
    cell_h L = (if argparse.cell_height args =? 0 then max_h
                else argparse.cell_height args) /\
    main_cols (argparse.cols args) (Z.of_nat (List.length sizes)) = Ok (cols L) /\
    main_rows (Z.of_nat (List.length sizes)) (cols L) = Ok (rows L) /\
    pad L = argparse.padding args /\
    grid_w L = cols L * cell_w L + (cols L - 1) * pad L /\
    grid_h L = rows L * cell_h L + (rows L - 1) * pad L.
Proof.
  unfold main_layout. intros H.
  destruct (Py.max_of (map fst sizes)) as [mw|]; [|discriminate].
  destruct (Py.max_of (map snd sizes)) as [mh|]; [|discriminate].
  cbn [bind] in H. unfold Py.or_else at 1 2 in H.
  destruct (main_cols (argparse.cols args) (Z.of_nat (List.length sizes)))
    as [c|] eqn:Hc.
  2:{ destruct (argparse.cell_width args =? 0), (argparse.cell_height args =? 0);
        discriminate. }
  destruct (main_rows (Z.of_nat (List.length sizes)) c) as [r|] eqn:Hr.
  2:{ destruct (argparse.cell_width args =? 0), (argparse.cell_height args =? 0);
        cbn [bind] in H; rewrite Hr in H; discriminate. }
  exists mw, mh.
  destruct (argparse.cell_width args =? 0), (argparse.cell_height args =? 0);
    cbn [bind] in H; rewrite Hr in H; cbn [bind] in H; injection H as <-;
    cbn [cell_w cell_h cols rows pad grid_w grid_h]; repeat split; assumption.
Qed.

(** What a run that returns went through. *)
Lemma main_returned_inv (args : argparse.Namespace) (w : World)
      (trace : list event) :
  main args w = (Returned, trace) ->
  exists sizes L pasted,
    is_dir w = true /\ writable w = true /\
    iter_images (iterdir w) <> [] /\
    read_sizes (iter_images (iterdir w)) = Ok sizes /\
    main_layout args sizes = Ok L /\
    Image_new (grid_w L, grid_h L) = Ok tt /\
    paste_loop L 0 (iter_images (iterdir w)) [NewGrid (grid_w L, grid_h L)] =
      (NewGrid (grid_w L, grid_h L) :: pasted, None) /\
    trace = (NewGrid (grid_w L, grid_h L) :: pasted ++
             [Save (argparse.output args);
              Stdout ("Wrote " ++ argparse.output args)%string])%list.
Proof.
  unfold main. intros H.
  destruct (is_dir w); cbn [negb] in H; [|discriminate].
  set (images := iter_images (iterdir w)) in *.
  destruct images as [|p0 rest] eqn:Eimg; [discriminate|]. rewrite <- Eimg in *.
  destruct (read_sizes images) as [sizes|] eqn:Hsizes; [|discriminate].
  destruct (main_layout args sizes) as [L|] eqn:HL; [|discriminate].
  destruct (Image_new (grid_w L, grid_h L)) as [[]|] eqn:Hnew; [|discriminate].
  destruct (paste_loop L 0 images [NewGrid (grid_w L, grid_h L)])
    as [tr failure] eqn:Hloop.
  destruct failure as [e|]; [discriminate|].
  destruct (writable w); [|discriminate]. injection H as <-.
  destruct (paste_loop_pastes L images 0 _ _ _ Hloop) as (pasted & -> & _).
  exists sizes, L, pasted.
  split; [reflexivity|]. split; [reflexivity|].
  split; [rewrite Eimg; discriminate|].
  split; [first [reflexivity | exact Hsizes]|].
  split; [first [reflexivity | exact HL]|].
  split; [first [reflexivity | exact Hnew]|].
  split; [exact Hloop|]. reflexivity.
Qed.

(** ** Failures *)

(** X12. The run ends with [SystemExit] exactly when the folder is not a
    directory or holds no image, and then it has done nothing. *)
Theorem system_exit_iff (args : argparse.Namespace) (w : World) :
  ((exists msg, fst (main args w) = SystemExit msg) <->
   is_dir w = false \/ iter_images (iterdir w) = []) /\
  ((exists msg, fst (main args w) = SystemExit msg) -> snd (main args w) = []).
Proof.
  unfold main.
  destruct (is_dir w); cbn [negb].
  2:{ split; [split; [intros _; left; reflexivity | intros _; eexists; reflexivity]|].
      intros _. reflexivity. }
  destruct (iter_images (iterdir w)) as [|p0 rest] eqn:Eimg.
  { split; [split; [intros _; right; reflexivity | intros _; eexists; reflexivity]|].
    intros _. reflexivity. }
  assert (Hno : forall (o : outcome) (tr : list event),
             (forall msg, o <> SystemExit msg) ->
             (((exists msg, fst (o, tr) = SystemExit msg) <->
               true = false \/ p0 :: rest = []) /\
              ((exists msg, fst (o, tr) = SystemExit msg) -> snd (o, tr) = []))).
  { intros o tr Ho. cbn [fst snd]. split; [split|].
    - intros (msg & Hm). exfalso. exact (Ho msg Hm).
    - intros [H|H]; discriminate.
    - intros (msg & Hm). exfalso. exact (Ho msg Hm). }
  destruct (read_sizes (p0 :: rest)) as [sizes|]; [|apply Hno; discriminate].
  destruct (main_layout args sizes) as [L|]; [|apply Hno; discriminate].
  destruct (Image_new (grid_w L, grid_h L)); [|apply Hno; discriminate].
  destruct (paste_loop L 0 (p0 :: rest) [NewGrid (grid_w L, grid_h L)])
    as [tr [e|]]; [apply Hno; discriminate|].
  destruct (writable w); apply Hno; discriminate.
Qed.

(** X13. If [Image.open] refuses one of the files that passed the filter,
    the run ends with an exception while the sizes are read: no canvas
    is created and nothing is pasted, whatever the other files are. *)
Theorem unopenable_file_aborts (args : argparse.Namespace) (w : World)
        (p : DirEntry) :
  is_dir w = true ->
  In p (iter_images (iterdir w)) -> image p = None ->
  exists e, main args w = (Uncaught e, []).
Proof.
  intros Hdir Hin Hp. exists UnidentifiedImageError.
  unfold main. rewrite Hdir. cbn [negb].
  pose proof (read_sizes_fails _ p Hin Hp) as Hfail.
  destruct (iter_images (iterdir w)) as [|p0 rest]; [contradiction|].
  rewrite Hfail. reflexivity.
Qed.

Lemma unopenable_file_aborts_witness :
  exists e, main Sample.args0 Cases.one_broken = (Uncaught e, []).
Proof.
  apply (unopenable_file_aborts Sample.args0 Cases.one_broken
           {| name := "c.png"; is_file := true; image := None |}).
  - reflexivity.
  - vm_compute. tauto.
  - reflexivity.
Defined.

(** When the save fails all five cells of the sample folder have been
    pasted already. *)
Example read_only_run :
  fst (main Sample.args0 Cases.read_only) = Uncaught OSError /\
  List.length (snd (main Sample.args0 Cases.read_only)) = 6%nat.
Proof. vm_compute. split; reflexivity. Qed.

(** ** Sizes in a run that returns *)

(** A run that returns, taken apart: every step succeeded, and the
    sizes it used are valid ones. *)
Lemma returned_run_geometry (args : argparse.Namespace) (w : World)
      (trace : list event) :
  main args w = (Returned, trace) ->
  exists sizes L pasted,
    iter_images (iterdir w) <> [] /\
    read_sizes (iter_images (iterdir w)) = Ok sizes /\
    List.length sizes = List.length (iter_images (iterdir w)) /\
    main_layout args sizes = Ok L /\
    paste_loop L 0 (iter_images (iterdir w)) [NewGrid (grid_w L, grid_h L)] =
      (NewGrid (grid_w L, grid_h L) :: pasted, None) /\
    trace = (NewGrid (grid_w L, grid_h L) :: pasted ++
             [Save (argparse.output args);
              Stdout ("Wrote " ++ argparse.output args)%string])%list /\
    1 <= cell_w L <= INT_MAX /\ 1 <= cell_h L <= INT_MAX /\
    0 <= grid_w L <= INT_MAX /\ 0 <= grid_h L <= INT_MAX /\
    cols L <> 0.
Proof.
  intros H.
  destruct (main_returned_inv args w trace H)
    as (sizes & L & pasted & _ & _ & Hne & Hsizes & HL & Hnew & Hloop & Htrace).
  exists sizes, L, pasted.
  destruct (paste_loop_None L _ _ _ _ Hloop Hne) as (Hc & Hall).
  apply Image_new_Ok in Hnew. cbn [fst snd] in Hnew.
  destruct (sizes_of_images _ _ (read_sizes_Ok _ _ Hsizes)) as (Hlen & Hsi & His).
  destruct (main_layout_inv args sizes L HL)
    as (mw & mh & Hmw & Hmh & Hcw & Hch & _).
  assert (Hcell : forall p, In p (iter_images (iterdir w)) ->
             0 <= cell_w L <= INT_MAX /\ 0 <= cell_h L <= INT_MAX /\
             exists sw sh, image p = Some (sw, sh) /\ sw <> 0 /\ sh <> 0).
  { intros p Hp. destruct (Hall p Hp) as (c & Hcell).
    destruct (load_and_fit_inv _ _ _ _ Hcell)
      as (sw & sh & a & b & pw & iw & ph & ih & Him & Ha & Hb & _ & _ & _ & _ &
          _ & Hn & _).
    apply Image_new_Ok in Hn. cbn [fst snd] in Hn.
    split; [tauto|]. split; [tauto|]. exists sw, sh. split; [exact Him|].
    split; [exact (int_truediv_Ok _ _ _ Ha) | exact (int_truediv_Ok _ _ _ Hb)]. }
  assert (Hsizes_ne : sizes <> []).
  { intros ->. cbn in Hlen. destruct (iter_images (iterdir w)); [contradiction|].
    discriminate. }
  assert (Hne1 : map fst sizes <> []) by (destruct sizes; [contradiction | discriminate]).
  assert (Hne2 : map snd sizes <> []) by (destruct sizes; [contradiction | discriminate]).
  destruct (max_of_spec _ Hne1) as (mw' & Hmw' & Hinw & _).
  destruct (max_of_spec _ Hne2) as (mh' & Hmh' & Hinh & _).
  rewrite Hmw in Hmw'. injection Hmw' as <-.
  rewrite Hmh in Hmh'. injection Hmh' as <-.
  assert (Hany : exists p, In p (iter_images (iterdir w))).
  { destruct (iter_images (iterdir w)) as [|p0 ?]; [contradiction|].
    exists p0. left. reflexivity. }
  destruct Hany as (p0 & Hp0). destruct (Hcell p0 Hp0) as (Hw0 & Hh0 & _).
  assert (Hw1 : cell_w L <> 0).
  { intros Hz. rewrite Hz in Hcw.
    destruct (Z.eqb_spec (argparse.cell_width args) 0) as [_|Hn0]; [|congruence].
    apply in_map_iff in Hinw. destruct Hinw as ((sw, sh) & Hfst & Hs).
    cbn [fst] in Hfst. destruct (Hsi _ Hs) as (p & Hp & Him).
    destruct (Hcell p Hp) as (_ & _ & sw' & sh' & Him' & Hsw' & _).
    rewrite Him in Him'. injection Him' as <- <-. congruence. }
  assert (Hh1 : cell_h L <> 0).
  { intros Hz. rewrite Hz in Hch.
    destruct (Z.eqb_spec (argparse.cell_height args) 0) as [_|Hn0]; [|congruence].
    apply in_map_iff in Hinh. destruct Hinh as ((sw, sh) & Hsnd & Hs).
    cbn [snd] in Hsnd. destruct (Hsi _ Hs) as (p & Hp & Him).
    destruct (Hcell p Hp) as (_ & _ & sw' & sh' & Him' & _ & Hsh').
    rewrite Him in Him'. injection Him' as <- <-. congruence. }
  split; [exact Hne|]. split; [exact Hsizes|]. split; [exact Hlen|].
  split; [exact HL|]. split; [exact Hloop|]. split; [exact Htrace|].
  repeat split; try lia; try tauto.
Qed.

(** X15. Whatever the command line, a run that returns has used cells of at
    least one pixel each way, a canvas Pillow accepts and a column count
    other than zero: no zero, negative or oversized cell or canvas ever
    reaches the output file. *)
Theorem returned_run_sizes (args : argparse.Namespace) (w : World)
        (trace : list event) :
  main args w = (Returned, trace) ->
  exists sizes L,
    read_sizes (iter_images (iterdir w)) = Ok sizes /\
    main_layout args sizes = Ok L /\
    1 <= cell_w L <= INT_MAX /\ 1 <= cell_h L <= INT_MAX /\
    0 <= grid_w L <= INT_MAX /\ 0 <= grid_h L <= INT_MAX /\
    cols L <> 0.
Proof.
  intros H.
  destruct (returned_run_geometry args w trace H)
    as (sizes & L & pasted & _ & Hsizes & _ & HL & _ & _ & Hrest).
  exists sizes, L. split; [exact Hsizes|]. split; [exact HL|]. exact Hrest.
Qed.

Lemma returned_run_sizes_witness :
  exists sizes L,
    read_sizes (iter_images (iterdir Sample.photos)) = Ok sizes /\
    main_layout Sample.args0 sizes = Ok L /\
    1 <= cell_w L <= INT_MAX /\ 1 <= cell_h L <= INT_MAX /\
    0 <= grid_w L <= INT_MAX /\ 0 <= grid_h L <= INT_MAX /\
    cols L <> 0.
Proof.
  apply (returned_run_sizes Sample.args0 Sample.photos Sample.photos_trace).
  vm_compute. reflexivity.
Defined.


(** ** Where the cells are *)

(** The pastes of a run that returns with a column count and a padding
    that are not negative: each is the cell of an index [j] below the
    number of images, at row [j / cols] and column [j mod cols], and the
    rows planned hold all the images. *)
Lemma returned_pastes (args : argparse.Namespace) (w : World)
      (trace : list event) :
  main args w = (Returned, trace) ->
  0 <= argparse.cols args -> 0 <= argparse.padding args ->
  Z.of_nat (List.length (iter_images (iterdir w))) < 2 ^ 50 ->
  exists L n,
    1 <= cols L /\ 1 <= cell_w L /\ 1 <= cell_h L /\
    pad L = argparse.padding args /\
    n <= cols L * rows L /\
    grid_w L = cols L * cell_w L + (cols L - 1) * pad L /\
    grid_h L = rows L * cell_h L + (rows L - 1) * pad L /\
    nth_error trace 0 = Some (NewGrid (grid_w L, grid_h L)) /\
    forall i nm cell x y,
      nth_error trace i = Some (Paste nm cell (x, y)) ->
      exists j, 0 <= j < n /\ i = S (Z.to_nat j) /\
                canvas_size cell = (cell_w L, cell_h L) /\
                x = j mod cols L * (cell_w L + pad L) /\
                y = j / cols L * (cell_h L + pad L).
Proof.
  intros H Hcols Hpad Hn50.
  destruct (returned_run_geometry args w trace H)
    as (sizes & L & pasted & Hne & Hsizes & Hlen & HL & Hloop & Htrace &
        Hcw & Hch & Hgw & Hgh & Hc0).
  destruct (main_layout_inv args sizes L HL)
    as (mw & mh & _ & _ & _ & _ & Hmc & Hmr & Hp & Egw & Egh).
  rewrite Hlen in Hmc, Hmr.
  set (n := Z.of_nat (List.length (iter_images (iterdir w)))) in *.
  assert (Hn : 1 <= n < 2 ^ 50).
  { split; [|exact Hn50]. subst n.
    destruct (iter_images (iterdir w)); [contradiction | cbn [List.length]; lia]. }
  rewrite (main_cols_total _ n Hn) in Hmc. injection Hmc as Hmc.
  pose proof (sqrt_up_range n ltac:(lia)) as (Hsq & _).
  assert (Hc1 : 1 <= cols L).
  { rewrite <- Hmc. destruct (Z.eqb_spec (argparse.cols args) 0); lia. }
  assert (Hc31 : cols L <= INT_MAX).
  { rewrite Hp in Egw. nia. }
  assert (Hc74 : 1 <= cols L <= 2 ^ 1074).
  { split; [exact Hc1|]. apply Z.le_trans with (2 ^ 31); [unfold INT_MAX in Hc31; lia|].
    apply Z.pow_le_mono_r; lia. }
  assert (Hn52 : 1 <= n < 2 ^ 52).
  { split; [lia|]. apply Z.lt_trans with (2 ^ 50); [lia | reflexivity]. }
  rewrite (main_rows_exact n (cols L) Hn52 Hc74) in Hmr. injection Hmr as Hmr.
  assert (Hrows : n <= cols L * rows L).
  { rewrite <- Hmr.
    pose proof (Z.div_mod (n + cols L - 1) (cols L) ltac:(lia)).
    pose proof (Z.mod_pos_bound (n + cols L - 1) (cols L) ltac:(lia)). lia. }
  exists L, n.
  split; [exact Hc1|]. split; [lia|]. split; [lia|]. split; [exact Hp|].
  split; [exact Hrows|]. split; [exact Egw|]. split; [exact Egh|].
  split; [rewrite Htrace; reflexivity|].
  intros i nm cell x y Hi.
  destruct (paste_loop_spec L _ 0 _ _ _ Hloop) as (pasted' & Happ & _ & Hall & Hnth).
  cbn [app] in Happ. injection Happ as <-.
  specialize (Hall eq_refl).
  rewrite Htrace in Hi. destruct i as [|j']; [discriminate|].
  cbn [nth_error] in Hi.
  destruct (Nat.lt_ge_cases j' (List.length pasted)) as [Hlt|Hge].
  - rewrite nth_error_app1 in Hi by exact Hlt.
    destruct (Hnth j' _ Hi) as (q & c & Hq & Hfit & Hev).
    injection Hev as -> -> -> ->.
    exists (Z.of_nat j'). split.
    { subst n. rewrite <- Hall. lia. }
    split; [rewrite Nat2Z.id; reflexivity|]. split; [|split; reflexivity].
    destruct (load_and_fit_inv _ _ _ _ Hfit)
      as (? & ? & ? & ? & ? & ? & ? & ? & _ & _ & _ & _ & _ & _ & _ & _ & _ & ->).
    reflexivity.
  - rewrite nth_error_app2 in Hi by exact Hge.
    destruct (j' - List.length pasted)%nat as [|[|[|k]]]; discriminate.
Qed.

(** X16. In a run that returns (column count and padding not negative), every
    cell is pasted inside the canvas: no cell is cut off at an edge. *)
Theorem cells_inside_canvas (args : argparse.Namespace) (w : World)
        (trace : list event) :
  main args w = (Returned, trace) ->
  0 <= argparse.cols args -> 0 <= argparse.padding args ->
  Z.of_nat (List.length (iter_images (iterdir w))) < 2 ^ 50 ->
  exists gw gh,
    nth_error trace 0 = Some (NewGrid (gw, gh)) /\
    forall i nm cell x y,
      nth_error trace i = Some (Paste nm cell (x, y)) ->
      0 <= x /\ x + fst (canvas_size cell) <= gw /\
      0 <= y /\ y + snd (canvas_size cell) <= gh.
Proof.
  intros H Hcols Hpad Hn50.
  destruct (returned_pastes args w trace H Hcols Hpad Hn50)
    as (L & n & Hc & Hcw & Hch & Hp & Hrows & Egw & Egh & H0 & Hpaste).
  exists (grid_w L), (grid_h L). split; [exact H0|].
  intros i nm cell x y Hi.
  destruct (Hpaste i nm cell x y Hi) as (j & Hj & _ & -> & -> & ->).
  cbn [fst snd]. rewrite Egw, Egh.
  pose proof (Z.mod_pos_bound j (cols L) ltac:(lia)) as Hm.
  assert (Hd : 0 <= j / cols L < rows L).
  { split; [apply Z.div_pos; lia|]. apply Z.div_lt_upper_bound; lia. }
  rewrite Hp in *.
  set (m := j mod cols L) in *. set (d := j / cols L) in *.
  repeat split; nia.
Qed.

Lemma cells_inside_canvas_witness :
  exists gw gh,
    nth_error Sample.photos_trace 0 = Some (NewGrid (gw, gh)) /\
    forall i nm cell x y,
      nth_error Sample.photos_trace i = Some (Paste nm cell (x, y)) ->
      0 <= x /\ x + fst (canvas_size cell) <= gw /\
      0 <= y /\ y + snd (canvas_size cell) <= gh.
Proof.
  apply (cells_inside_canvas Sample.args0 Sample.photos Sample.photos_trace).
  - vm_compute. reflexivity.
  - vm_compute. discriminate.
  - vm_compute. discriminate.
  - vm_compute. reflexivity.
Defined.

(** X17. In such a run no two cells overlap: two different cells are apart
    by at least the padding, side by side or one above the other. *)
Theorem cells_do_not_overlap (args : argparse.Namespace) (w : World)
        (trace : list event) :
  main args w = (Returned, trace) ->
  0 <= argparse.cols args -> 0 <= argparse.padding args ->
  Z.of_nat (List.length (iter_images (iterdir w))) < 2 ^ 50 ->
  forall i1 i2 nm1 c1 x1 y1 nm2 c2 x2 y2,
    i1 <> i2 ->
    nth_error trace i1 = Some (Paste nm1 c1 (x1, y1)) ->
    nth_error trace i2 = Some (Paste nm2 c2 (x2, y2)) ->
    x1 + fst (canvas_size c1) + argparse.padding args <= x2 \/
    x2 + fst (canvas_size c2) + argparse.padding args <= x1 \/
    y1 + snd (canvas_size c1) + argparse.padding args <= y2 \/
    y2 + snd (canvas_size c2) + argparse.padding args <= y1.
Proof.
  intros H Hcols Hpad Hn50.
  destruct (returned_pastes args w trace H Hcols Hpad Hn50)
    as (L & n & Hc & Hcw & Hch & Hp & Hrows & Egw & Egh & H0 & Hpaste).
  intros i1 i2 nm1 c1 x1 y1 nm2 c2 x2 y2 Hne H1 H2.
  destruct (Hpaste _ _ _ _ _ H1) as (j1 & Hj1 & Ei1 & -> & -> & ->).
  destruct (Hpaste _ _ _ _ _ H2) as (j2 & Hj2 & Ei2 & -> & -> & ->).
  cbn [fst snd]. rewrite Hp in *.
  assert (Hj : j1 <> j2) by (intros ->; congruence).
  pose proof (Z.div_mod j1 (cols L) ltac:(lia)) as D1.
  pose proof (Z.div_mod j2 (cols L) ltac:(lia)) as D2.
  pose proof (Z.mod_pos_bound j1 (cols L) ltac:(lia)) as M1.
  pose proof (Z.mod_pos_bound j2 (cols L) ltac:(lia)) as M2.
  set (m1 := j1 mod cols L) in *. set (d1 := j1 / cols L) in *.
  set (m2 := j2 mod cols L) in *. set (d2 := j2 / cols L) in *.
  destruct (Z.lt_trichotomy m1 m2) as [Hm|[Hm|Hm]].
  - left. nia.
  - destruct (Z.lt_trichotomy d1 d2) as [Hd|[Hd|Hd]].
    + right. right. left. nia.
    + exfalso. apply Hj. rewrite D1, D2, Hm, Hd. reflexivity.
    + right. right. right. nia.
  - right. left. nia.
Qed.

Lemma cells_do_not_overlap_witness :
  0 + 800 + argparse.padding Sample.args0 <= 810 \/
  810 + 800 + argparse.padding Sample.args0 <= 0 \/
  0 + 900 + argparse.padding Sample.args0 <= 0 \/
  0 + 900 + argparse.padding Sample.args0 <= 0.
Proof.
  apply (cells_do_not_overlap Sample.args0 Sample.photos Sample.photos_trace
           ltac:(vm_compute; reflexivity) ltac:(vm_compute; discriminate)
           ltac:(vm_compute; discriminate) ltac:(vm_compute; reflexivity)
           1%nat 2%nat
           "a.JPG" {| canvas_size := (800, 900); new_size := (800, 600);
                      offset := (0, 150) |} 0 0
           "b.png" {| canvas_size := (800, 900); new_size := (800, 600);
                      offset := (0, 150) |} 810 0);
    [discriminate | reflexivity | reflexivity].
Defined.

(** With a negative padding the cells do overlap: the second cell of
    the sample folder starts 10 pixels inside the first. *)
Example negative_padding_overlaps :
  fst (main Cases.tight Sample.photos) = Returned /\
  exists nm1 c1 nm2 c2,
    nth_error (snd (main Cases.tight Sample.photos)) 1 = Some (Paste nm1 c1 (0, 0)) /\
    nth_error (snd (main Cases.tight Sample.photos)) 2 = Some (Paste nm2 c2 (790, 0)) /\
    fst (canvas_size c1) = 800.
Proof. vm_compute. split; [reflexivity|]. do 4 eexists. repeat split. Qed.

(** ** A canvas beyond Pillow's limit *)

(** X18. For a folder whose images all open, a [#rrggbb] background and a
    command line without negative numbers, the layout is computed and
    the canvas has at least one pixel each way; when a side of it is
    beyond INT_MAX the run stops with OverflowError at the creation of
    the canvas: nothing is pasted or saved. *)
Theorem oversize_canvas_overflows (args : argparse.Namespace) (w : World) :
  is_dir w = true ->
  iter_images (iterdir w) <> [] ->
  Z.of_nat (List.length (iter_images (iterdir w))) < 2 ^ 50 ->
  (forall p, In p (iter_images (iterdir w)) ->
             exists sw sh, image p = Some (sw, sh) /\ 1 <= sw /\ 1 <= sh) ->
  0 <= argparse.cols args < 2 ^ 31 -> 0 <= argparse.padding args ->
  0 <= argparse.cell_width args -> 0 <= argparse.cell_height args ->
  ImageColor.is_hex (argparse.bg args) = true ->
  exists sizes L,
    read_sizes (iter_images (iterdir w)) = Ok sizes /\
    main_layout args sizes = Ok L /\
    1 <= grid_w L /\ 1 <= grid_h L /\
    (INT_MAX < grid_w L \/ INT_MAX < grid_h L ->
     main args w = (Uncaught OverflowError, [])).
Proof.
  intros Hdir Hne Hn50 Himgs Hcols Hpad Hacw Hach _.
  set (images := iter_images (iterdir w)) in *.
  destruct (read_sizes_total images) as (sizes & Hsizes).
  { intros p Hp. destruct (Himgs p Hp) as (sw & sh & -> & _). discriminate. }
  destruct (sizes_of_images _ _ (read_sizes_Ok _ _ Hsizes)) as (Hlen & Hsi & His).
  assert (Hsne : sizes <> []).
  { intros ->. cbn in Hlen. destruct images; [contradiction | discriminate]. }
  assert (Hrange : forall s, In s sizes -> 1 <= fst s /\ 1 <= snd s).
  { intros s Hs. destruct (Hsi s Hs) as (p & Hp & Him).
    destruct (Himgs p Hp) as (sw & sh & Him' & Hsw & Hsh).
    rewrite Him in Him'. injection Him' as ->. cbn [fst snd]. tauto. }
  destruct (main_layout_returns args sizes Hsne ltac:(rewrite Hlen; exact Hn50))
    as (mw & mh & c & r & Hmw & Hmh & Hc & Hc0 & Hr & HL).
  cbv zeta in HL. rewrite Hlen in Hc, Hr.
  set (n := Z.of_nat (List.length images)) in *.
  assert (Hn : 1 <= n < 2 ^ 50).
  { split; [|exact Hn50]. subst n.
    destruct images; [contradiction | cbn [List.length]; lia]. }
  assert (Hne1 : map fst sizes <> []) by (destruct sizes; [contradiction | discriminate]).
  assert (Hne2 : map snd sizes <> []) by (destruct sizes; [contradiction | discriminate]).
  destruct (max_of_spec _ Hne1) as (mw' & Hmw' & Hinw & _).
  destruct (max_of_spec _ Hne2) as (mh' & Hmh' & Hinh & _).
  rewrite Hmw in Hmw'. injection Hmw' as <-.
  rewrite Hmh in Hmh'. injection Hmh' as <-.
  assert (Hmwr : 1 <= mw).
  { apply in_map_iff in Hinw. destruct Hinw as (s & <- & Hs).
    apply (Hrange s Hs). }
  assert (Hmhr : 1 <= mh).
  { apply in_map_iff in Hinh. destruct Hinh as (s & <- & Hs).
    apply (Hrange s Hs). }
  set (cw := if argparse.cell_width args =? 0 then mw
             else argparse.cell_width args) in *.
  set (ch := if argparse.cell_height args =? 0 then mh
             else argparse.cell_height args) in *.
  assert (Hcw : 1 <= cw).
  { subst cw. destruct (Z.eqb_spec (argparse.cell_width args) 0); lia. }
  assert (Hch : 1 <= ch).
  { subst ch. destruct (Z.eqb_spec (argparse.cell_height args) 0); lia. }
  rewrite (main_cols_total _ n Hn) in Hc. injection Hc as Hc.
  pose proof (sqrt_up_range n ltac:(lia)) as (Hsq & _).
  assert (Hc1 : 1 <= c < 2 ^ 50).
  { rewrite <- Hc. destruct (Z.eqb_spec (argparse.cols args) 0); [lia|].
    split; [lia|]. apply Z.lt_trans with (2 ^ 31); [lia | reflexivity]. }
  assert (Hc74 : 1 <= c <= 2 ^ 1074).
  { split; [lia|]. apply Z.le_trans with (2 ^ 50); [lia|].
    apply Z.pow_le_mono_r; lia. }
  assert (Hn52 : 1 <= n < 2 ^ 52).
  { split; [lia|]. apply Z.lt_trans with (2 ^ 50); [lia | reflexivity]. }
  rewrite (main_rows_exact n c Hn52 Hc74) in Hr. injection Hr as Hr.
  assert (Hr1 : 1 <= r).
  { rewrite <- Hr.
    pose proof (Z.div_mod (n + c - 1) c ltac:(lia)).
    pose proof (Z.mod_pos_bound (n + c - 1) c ltac:(lia)). nia. }
  set (pad0 := argparse.padding args) in *.
  set (gw := c * cw + (c - 1) * pad0) in *.
  set (gh := r * ch + (r - 1) * pad0) in *.
  assert (Hgw : 1 <= gw) by (subst gw; nia).
  assert (Hgh : 1 <= gh) by (subst gh; nia).
  eexists sizes, _. split; [exact Hsizes|]. split; [exact HL|].
  cbn [grid_w grid_h]. split; [exact Hgw|]. split; [exact Hgh|].
  intros Hbig. unfold main. rewrite Hdir. cbn [negb]. fold images.
  destruct images as [|p0 rest] eqn:Eimg; [contradiction|].
  rewrite Hsizes, HL. cbn [grid_w grid_h].
  unfold Image_new. cbn [fst snd].
  destruct (Z.ltb_spec gw 0); [lia|]. destruct (Z.ltb_spec gh 0); [lia|].
  cbn [orb].
  destruct (Z.ltb_spec INT_MAX gw), (Z.ltb_spec INT_MAX gh); cbn [orb];
    first [reflexivity | lia].
Qed.

Lemma oversize_canvas_overflows_witness :
  exists sizes L,
    read_sizes (iter_images (iterdir Sample.photos)) = Ok sizes /\
    main_layout Cases.oversize sizes = Ok L /\
    1 <= grid_w L /\ 1 <= grid_h L /\
    (INT_MAX < grid_w L \/ INT_MAX < grid_h L ->
     main Cases.oversize Sample.photos = (Uncaught OverflowError, [])).
Proof.
  apply (oversize_canvas_overflows Cases.oversize Sample.photos);
    try reflexivity; try (split; [discriminate | reflexivity]);
    try discriminate.
  intros p Hp. vm_compute in Hp.
  repeat (destruct Hp as [<-|Hp];
          [do 2 eexists; split; [reflexivity|]; split; discriminate|]).
  contradiction.
Defined.

(** The canvas of that command line is 4000000008 wide. *)
Example oversize_run :
  main Cases.oversize Sample.photos = (Uncaught OverflowError, []).
Proof. vm_compute. reflexivity. Qed.

(** ** A single image *)

(** The model's run on a folder with one image and everything left to
    auto. *)
Lemma single_image_main (args : argparse.Namespace) (w : World)
      (p : DirEntry) (sw sh : Z) :
  is_dir w = true -> writable w = true ->
  iter_images (iterdir w) = [p] -> image p = Some (sw, sh) ->
  1 <= sw < 2 ^ 31 -> 1 <= sh < 2 ^ 31 ->
  argparse.cols args = 0 ->
  argparse.cell_width args = 0 -> argparse.cell_height args = 0 ->
  main args w =
    (Returned,
     [NewGrid (sw, sh);
      Paste (name p)
            {| canvas_size := (sw, sh); new_size := (sw, sh); offset := (0, 0) |}
            (0, 0);
      Save (argparse.output args);
      Stdout ("Wrote " ++ argparse.output args)]).
Proof.
  intros Hdir Hwr Himgs Him Hsw Hsh Hcols Hcw Hch.
  assert (Hfit : load_and_fit p sw sh =
                 Ok {| canvas_size := (sw, sh); new_size := (sw, sh);
                       offset := (0, 0) |}).
  { destruct (load_and_fit_window p sw sh sw sh Him Hsw Hsh Hsw Hsh)
      as (a & b & pw & ph & kw & kh & _ & _ & _ & _ & _ & _ & Hc & Hwin).
    cbv zeta in Hwin. destruct Hwin as ((Hbw & Hupw & _) & (Hbh & Huph & _)).
    assert (HDN : snd (Spec.scale sw sh sw sh) <= fst (Spec.scale sw sh sw sh)).
    { unfold Spec.scale. destruct (sw * sh <=? sh * sw); cbn [fst snd]; lia. }
    specialize (Hupw HDN). specialize (Huph HDN).
    rewrite Hc. assert (kw = sw) by lia. assert (kh = sh) by lia. subst kw kh.
    rewrite !Z.max_r by lia. rewrite !Z.sub_diag. reflexivity. }
  assert (HL : main_layout args [(sw, sh)] =
               Ok {| cell_w := sw; cell_h := sh; cols := 1; rows := 1;
                     pad := argparse.padding args; grid_w := sw; grid_h := sh |}).
  { unfold main_layout. cbn [map fst snd List.length Py.max_of fold_left bind].
    rewrite Hcols, Hcw, Hch. unfold Py.or_else at 1 2.
    cbn [Z.eqb bind]. change (Z.of_nat 1) with 1.
    replace (main_cols 0 1) with (Ok 1 : res Z) by (vm_compute; reflexivity).
    cbn [bind].
    replace (main_rows 1 1) with (Ok 1 : res Z) by (vm_compute; reflexivity).
    cbn [bind]. f_equal. f_equal; lia. }
  unfold main. rewrite Hdir, Hwr, Himgs. cbn [negb read_sizes].
  rewrite Him. cbn [bind]. rewrite HL. cbn [grid_w grid_h].
  assert (Hnew : Image_new (sw, sh) = Ok tt).
  { unfold Image_new, INT_MAX. cbn [fst snd].
    destruct (Z.ltb_spec sw 0); [lia|]. destruct (Z.ltb_spec sh 0); [lia|].
    destruct (Z.ltb_spec (2 ^ 31 - 1) sw); [lia|].
    destruct (Z.ltb_spec (2 ^ 31 - 1) sh); [lia|]. reflexivity. }
  rewrite Hnew. cbn [paste_loop cols cell_w cell_h pad].
  unfold Py.floordiv, Py.modulo. cbn [Z.eqb]. rewrite Hfit.
  cbn [app]. rewrite Zmod_0_l, Zdiv_0_l, !Z.mul_0_l. reflexivity.
Qed.

(** X19. When a run over a folder with a single image returns, columns and
    cell size left to auto, the canvas it saved has exactly that image's
    size, whatever the padding, and the image was pasted unscaled at the
    origin. *)
Theorem single_image_run (args : argparse.Namespace) (w : World)
        (trace : list event) (p : DirEntry) (sw sh : Z) :
  main args w = (Returned, trace) ->
  iter_images (iterdir w) = [p] -> image p = Some (sw, sh) ->
  argparse.cols args = 0 ->
  argparse.cell_width args = 0 -> argparse.cell_height args = 0 ->
  exists line,
    trace =
      [NewGrid (sw, sh);
       Paste (name p)
             {| canvas_size := (sw, sh); new_size := (sw, sh); offset := (0, 0) |}
             (0, 0);
       Save (argparse.output args);
       Stdout line].
Proof.
  intros H Himgs Him Hcols Hcw Hch.
  destruct (main_returned_inv args w trace H)
    as (sizes0 & L0 & pasted0 & Hdir & Hwr & _).
  destruct (returned_run_geometry args w trace H)
    as (sizes & L & pasted & _ & Hsizes & _ & HL & _ & _ & Hw & Hh & _).
  rewrite Himgs in Hsizes. cbn [read_sizes] in Hsizes. rewrite Him in Hsizes.
  cbn [bind] in Hsizes. injection Hsizes as <-.
  destruct (main_layout_inv args _ L HL) as (mw & mh & Hmw & Hmh & Ecw & Ech & _).
  cbn [map fst snd Py.max_of fold_left] in Hmw, Hmh.
  injection Hmw as <-. injection Hmh as <-.
  rewrite Hcw in Ecw. rewrite Hch in Ech. cbn [Z.eqb] in Ecw, Ech.
  rewrite Ecw in Hw. rewrite Ech in Hh. unfold INT_MAX in Hw, Hh.
  eexists.
  rewrite (single_image_main args w p sw sh Hdir Hwr Himgs Him
             ltac:(lia) ltac:(lia) Hcols Hcw Hch) in H.
  injection H as <-. reflexivity.
Qed.

Lemma single_image_run_witness :
  exists line,
    snd (main (Cases.defaults "photos") Cases.single) =
      [NewGrid (640, 480);
       Paste (name (Sample.picture "only.png" (640, 480)))
             {| canvas_size := (640, 480); new_size := (640, 480);
                offset := (0, 0) |}
             (0, 0);
       Save (argparse.output (Cases.defaults "photos"));
       Stdout line].
Proof.
  apply (single_image_run (Cases.defaults "photos") Cases.single
           (snd (main (Cases.defaults "photos") Cases.single))
           (Sample.picture "only.png" (640, 480)) 640 480);
    try reflexivity.
Defined.
